(** * The fuzzy-matching patch engine of the coding agent

    A shallow embedding of the two file-patching tools of the repository,
    [code_edit] (single search-and-replace with three escalating match
    strategies) and [code_apply_diff] (multi-hunk SEARCH/REPLACE blocks with
    line hints), together with the properties their specification states
    and further properties of the code: what the tools do to the files, how
    the codec, the counts, the replacements and the three strategies relate,
    what the parser accepts and rejects, and what the locator and the splices
    return.

    JavaScript strings are sequences of UTF-16 code units; they are modelled
    as [list N].  Indices and counts are [nat]; a JavaScript [-1] or [null]
    result is [None].  The numeric tool argument [expected_replacements] is an
    integer [Z] (fractional and NaN arguments are outside the model), and a
    line hint is the natural number its digits denote (the rounding of
    [parseInt] beyond 2^53 is outside the model).  File contents are stored
    as already decoded strings.  The loops of the source run on fuel that is
    proved never to run out. *)

From Stdlib Require Import ZArith NArith Ascii String DecimalString DecimalNat.
From stdpp Require Import base option list sorting gmap.

Local Open Scope nat_scope.

(** ** Strings *)

Abbreviation jsstring := (list N).

(** The code units of an ASCII literal. *)
Definition js (s : string) : jsstring :=
  map N_of_ascii (list_ascii_of_string s).

Arguments js : simpl never.

Definition LF : N := 10%N.
Definition CR : N := 13%N.
Definition DOLLAR : N := 36%N.

(** [`${n}`] for a non-negative integer and for an integer. *)
Definition dec (n : nat) : jsstring :=
  js (NilZero.string_of_uint (Nat.to_uint n)).

Definition decZ (z : Z) : jsstring :=
  js (NilZero.string_of_int (Z.to_int z)).

Arguments dec : simpl never.
Arguments decZ : simpl never.

(** [s.startsWith(sub)] *)
Fixpoint startsWith (s sub : jsstring) {struct sub} : bool :=
  match sub, s with
  | [], _ => true
  | _ :: _, [] => false
  | a :: sub', b :: s' => if N.eqb a b then startsWith s' sub' else false
  end.

(** The first index at which [sub] occurs in [s], counted from the head of
    [s]. *)
Fixpoint index_in (sub s : jsstring) : option nat :=
  if startsWith s sub then Some 0
  else match s with
       | [] => None
       | _ :: t => S <$> index_in sub t
       end.

(** The abstract operation StringIndexOf(string, searchValue, fromIndex) of
    ECMA-262: the least index [i >= fromIndex] at which [sub] occurs. *)
Definition StringIndexOf (s sub : jsstring) (from : nat) : option nat :=
  if decide (from <= length s)
  then (fun i => from + i) <$> index_in sub (drop from s)
  else None.

(** [s.indexOf(sub, pos)]: the start position is clamped to the length. *)
Definition indexOf (s sub : jsstring) (pos : nat) : option nat :=
  StringIndexOf s sub (Nat.min pos (length s)).

(** [s.includes(sub)] *)
Definition includes (s sub : jsstring) : bool :=
  bool_decide (is_Some (indexOf s sub 0)).

(** [s.substring(a, b)]: both ends are clamped to the length and swapped when
    out of order. *)
Definition substring (s : jsstring) (a b : nat) : jsstring :=
  let a' := Nat.min a (length s) in
  let b' := Nat.min b (length s) in
  let from := Nat.min a' b' in
  let to := Nat.max a' b' in
  take (to - from) (drop from s).

(** [s.substring(a)] *)
Definition substring_from (s : jsstring) (a : nat) : jsstring :=
  drop (Nat.min a (length s)) s.

(** [s.split("\n")] *)
Fixpoint split_lines (s : jsstring) : list jsstring :=
  match s with
  | [] => [[]]
  | c :: t =>
      if N.eqb c LF then [] :: split_lines t
      else match split_lines t with
           | l :: ls => (c :: l) :: ls
           | [] => [[c]]
           end
  end.

(** [parts.join(sep)] *)
Fixpoint join {A} (sep : list A) (parts : list (list A)) : list A :=
  match parts with
  | [] => []
  | [p] => p
  | p :: ps => p ++ sep ++ join sep ps
  end.

(** [arr.slice(a, b)] for non-negative bounds. *)
Definition slice {A} (l : list A) (a b : nat) : list A :=
  take (b - a) (drop a l).

(** White space as the pattern class [\s] and [String.prototype.trim] see it:
    the WhiteSpace and LineTerminator code units of ECMA-262. *)
Definition is_space (c : N) : bool :=
  ((9 <=? c) && (c <=? 13) || (c =? 32) || (c =? 160) || (c =? 5760)
   || (8192 <=? c) && (c <=? 8202) || (c =? 8232) || (c =? 8233)
   || (c =? 8239) || (c =? 8287) || (c =? 12288) || (c =? 65279))%N.

Fixpoint trimStart (s : jsstring) : jsstring :=
  match s with
  | c :: t => if is_space c then trimStart t else s
  | [] => []
  end.

Definition trim (s : jsstring) : jsstring :=
  rev (trimStart (rev (trimStart s))).

(** [[l0, l1, ...].join("\n")] of ASCII literals, to write file contents. *)
Definition unlines (ls : list string) : jsstring := join [LF] (map js ls).

(** ** Line-ending codec *)

Inductive LineEnding := EOL_CRLF | EOL_LF.

Definition CRLF : jsstring := [CR; LF].

Definition detectLineEnding (content : jsstring) : LineEnding :=
  if includes content CRLF then EOL_CRLF else EOL_LF.

(** [content.replace(/\r\n/g, "\n")]: scanning from the left, every CR that
    is directly followed by LF is rewritten, with that LF, to one LF. *)
Fixpoint normalizeToLF (content : jsstring) : jsstring :=
  match content with
  | [] => []
  | c :: t =>
      match t with
      | d :: t' =>
          if (c =? CR)%N && (d =? LF)%N then LF :: normalizeToLF t'
          else c :: normalizeToLF t
      | [] => [c]
      end
  end.

(** [contentLF.replace(/\n/g, "\r\n")] *)
Fixpoint expandLF (contentLF : jsstring) : jsstring :=
  match contentLF with
  | [] => []
  | c :: t => if (c =? LF)%N then CR :: LF :: expandLF t else c :: expandLF t
  end.

Definition restoreLineEnding (contentLF : jsstring) (eol : LineEnding) : jsstring :=
  match eol with
  | EOL_LF => contentLF
  | EOL_CRLF => expandLF contentLF
  end.

(** ** Patterns

    The patterns the tools build have three kinds of pieces only: an escaped
    literal code unit, [\s+] and [[\t ]+]; besides them there is the pattern
    [(?!)] that matches nowhere.  A pattern is kept as the list of its pieces;
    [regexp_source] is the text the source passes to [new RegExp]. *)

Inductive ratom :=
  | RChar (c : N)   (* an escaped literal code unit *)
  | RSpaces         (* \s+ *)
  | RBlanks.        (* [\t ]+ *)

Inductive RegExp :=
  | RNever                       (* (?!) *)
  | RSeq (atoms : list ratom).

(** The code units [. * + ? ^ $ { } ( ) | [ ] \] that [escapeRegExp] guards
    with a backslash. *)
Definition is_regexp_special (c : N) : bool :=
  bool_decide (c ∈ js ".*+?^${}()|[]\").

Definition escapeRegExp (input : jsstring) : jsstring :=
  flat_map (fun c => if is_regexp_special c then [92%N; c] else [c]) input.

Definition ratom_source (a : ratom) : jsstring :=
  match a with
  | RChar c => escapeRegExp [c]
  | RSpaces => js "\s+"
  | RBlanks => js "[\t ]+"
  end.

Definition regexp_source (r : RegExp) : jsstring :=
  match r with
  | RNever => js "(?!)"
  | RSeq atoms => flat_map ratom_source atoms
  end.

Definition is_blank (c : N) : bool := ((c =? 9) || (c =? 32))%N.

(** One or more code units of the class [cls], then the continuation [k]:
    the longest run is tried first and shortened on failure (greedy, with
    backtracking).  The result is the number of code units matched. *)
Fixpoint match_plus (cls : N -> bool) (k : jsstring -> option nat)
    (s : jsstring) : option nat :=
  match s with
  | [] => None
  | c :: t =>
      if cls c then
        match match_plus cls k t with
        | Some n => Some (S n)
        | None => S <$> k t
        end
      else None
  end.

(** The pieces matched at the head of the input. *)
Fixpoint match_here (atoms : list ratom) : jsstring -> option nat :=
  match atoms with
  | [] => fun _ => Some 0
  | RChar c :: rest =>
      fun s => match s with
               | d :: t => if (c =? d)%N then S <$> match_here rest t else None
               | [] => None
               end
  | RSpaces :: rest => match_plus is_space (match_here rest)
  | RBlanks :: rest => match_plus is_blank (match_here rest)
  end.

(** The leftmost match in [s], whose head has index [i] in the whole input:
    its index and its length. *)
Fixpoint search_from (atoms : list ratom) (s : jsstring) (i : nat)
    : option (nat * nat) :=
  match match_here atoms s with
  | Some n => Some (i, n)
  | None => match s with
            | [] => None
            | _ :: t => search_from atoms t (S i)
            end
  end.

(** [regex.exec(s)] started at [lastIndex]. *)
Definition regexp_exec (r : RegExp) (s : jsstring) (lastIndex : nat)
    : option (nat * nat) :=
  match r with
  | RNever => None
  | RSeq atoms =>
      if decide (lastIndex <= length s)
      then search_from atoms (drop lastIndex s) lastIndex
      else None
  end.

(** The matches of a global pattern, from left to right; after an empty
    match the scan advances by one code unit.  Every round moves [lastIndex]
    forward, so the fuel [S (S (length s))] of [matchAll] is never used up
    (lemma [matchAllLoop_fuel]). *)
Fixpoint matchAllLoop (fuel : nat) (r : RegExp) (s : jsstring)
    (lastIndex : nat) : list (nat * nat) :=
  match fuel with
  | 0 => []
  | S f =>
      match regexp_exec r s lastIndex with
      | None => []
      | Some (i, n) =>
          (i, n) :: matchAllLoop f r s (if n =? 0 then S (i + n) else i + n)
      end
  end.

Definition matchAll (s : jsstring) (r : RegExp) : list (nat * nat) :=
  matchAllLoop (S (S (length s))) r s 0.

Definition countRegexMatches (content : jsstring) (regex : RegExp) : nat :=
  length (matchAll content regex).

(** [s.replace(regex, () => newLF)] with a global pattern: every match is
    replaced by [newLF], which is not a template. *)
Fixpoint replaceMatches (s : jsstring) (matches : list (nat * nat))
    (nextSourcePosition : nat) (newLF : jsstring) : jsstring :=
  match matches with
  | [] => substring_from s nextSourcePosition
  | (i, n) :: ms =>
      substring s nextSourcePosition i ++ newLF ++ replaceMatches s ms (i + n) newLF
  end.

Definition regexpReplace (s : jsstring) (r : RegExp) (newLF : jsstring) : jsstring :=
  replaceMatches s (matchAll s r) 0 newLF.

(** [oldLF.match(/(\s+|\S+)/g) ?? []]: the maximal runs of white space and of
    other code units, in order. *)
Fixpoint wsParts (s : jsstring) : list jsstring :=
  match s with
  | [] => []
  | c :: t =>
      match wsParts t with
      | (d :: p) :: ps =>
          if Bool.eqb (is_space c) (is_space d) then (c :: d :: p) :: ps
          else [c] :: (d :: p) :: ps
      | _ => [[c]]
      end
  end.

(** [/^\s+$/.test(part)] *)
Definition all_space (part : jsstring) : bool :=
  match part with
  | [] => false
  | _ => forallb is_space part
  end.

Definition wsPartPattern (part : jsstring) : list ratom :=
  if all_space part then
    if includes part [LF] then [RSpaces] else [RBlanks]
  else map RChar part.

Definition buildWhitespaceTolerantRegex (oldLF : jsstring) : RegExp :=
  if decide (oldLF = []) then RNever
  else RSeq (flat_map wsPartPattern (wsParts oldLF)).

(** [s.split(/\s+/)]; [in_sep] says that the code unit before was white
    space. *)
Fixpoint split_spaces_from (in_sep : bool) (s : jsstring) : list jsstring :=
  match s with
  | [] => [[]]
  | c :: t =>
      if is_space c then
        if in_sep then split_spaces_from true t
        else [] :: split_spaces_from true t
      else match split_spaces_from false t with
           | p :: ps => (c :: p) :: ps
           | [] => [[c]]
           end
  end.

Definition split_spaces (s : jsstring) : list jsstring :=
  split_spaces_from false s.

Definition nonempty (s : jsstring) : bool :=
  match s with [] => false | _ => true end.

Definition buildTokenRegex (oldLF : jsstring) : RegExp :=
  let tokens := List.filter nonempty (split_spaces oldLF) in
  if decide (length tokens = 0) then RNever
  else RSeq (join [RSpaces] (map (map RChar) tokens)).

(** ** Literal counting and replacement *)

(** The loop of [countOccurrences]; [pos] is the result of the last
    [indexOf].  The loop body runs at most once per index of [str], so
    [S (length str)] rounds of fuel are never used up
    (lemma [countLoop_fuel]). *)
Fixpoint countLoop (fuel : nat) (str substr : jsstring) (pos : option nat)
    (count : nat) : nat :=
  match fuel, pos with
  | S f, Some p =>
      countLoop f str substr (indexOf str substr (p + length substr)) (S count)
  | _, _ => count
  end.

Definition countOccurrences (str substr : jsstring) : nat :=
  if decide (substr = []) then 0
  else countLoop (S (length str)) str substr (indexOf str substr 0) 0.

(** GetSubstitution of ECMA-262 for a string pattern (no captures, no named
    groups): in the replacement template [$$] stands for a dollar sign, [$&]
    for the matched text, [$`] for the text before the match and [$'] for the
    text after it; every other [$] (also [$1] or [$<], with no group to refer
    to) stands for itself. *)
Fixpoint GetSubstitution (matched before after template : jsstring) : jsstring :=
  match template with
  | [] => []
  | c :: t =>
      if (c =? DOLLAR)%N then
        match t with
        | d :: t' =>
            if (d =? 36)%N then DOLLAR :: GetSubstitution matched before after t'
            else if (d =? 38)%N then matched ++ GetSubstitution matched before after t'
            else if (d =? 96)%N then before ++ GetSubstitution matched before after t'
            else if (d =? 39)%N then after ++ GetSubstitution matched before after t'
            else DOLLAR :: GetSubstitution matched before after t
        | [] => [DOLLAR]
        end
      else c :: GetSubstitution matched before after t
  end.

(** [str.replaceAll(search, template)] with a string pattern, as ECMA-262
    defines it: first the positions of the matches are collected, each search
    resuming behind the last match, then the result is put together. *)
Fixpoint replaceAllPositions (fuel : nat) (str search : jsstring)
    (pos : option nat) : list nat :=
  match fuel, pos with
  | S f, Some p =>
      p :: replaceAllPositions f str search
             (StringIndexOf str search (p + Nat.max 1 (length search)))
  | _, _ => []
  end.

Fixpoint replaceAllBuild (str search template : jsstring)
    (positions : list nat) (endOfLastMatch : nat) : jsstring :=
  match positions with
  | [] => substring_from str endOfLastMatch
  | p :: ps =>
      substring str endOfLastMatch p
      ++ GetSubstitution search (substring str 0 p)
           (substring_from str (p + length search)) template
      ++ replaceAllBuild str search template ps (p + length search)
  end.

Definition replaceAll (str search template : jsstring) : jsstring :=
  replaceAllBuild str search template
    (replaceAllPositions (S (length str)) str search (StringIndexOf str search 0))
    0.

(** Safely replace all occurrences of a literal string, handling [$] escape
    sequences. *)
Definition safeLiteralReplace (str oldString newString : jsstring) : jsstring :=
  if bool_decide (oldString = []) || negb (includes str oldString) then str
  else if negb (includes newString [DOLLAR]) then replaceAll str oldString newString
  else
    let escapedNewString := replaceAll newString [DOLLAR] (js "$$$$") in
    replaceAll str oldString escapedNewString.

(** ** Post-edit context and error text *)

(** [lines.map((l, i) => `${start + i + 1}\t${l}`)] *)
Definition numberLines (start : nat) (lines : list jsstring) : list jsstring :=
  imap (fun i l => dec (start + i + 1) ++ [9%N] ++ l) lines.

Definition extractContext (content oldText newText : jsstring)
    (contextLines : nat) : jsstring :=
  let lines := split_lines content in
  let newTextLines := split_lines newText in
  match indexOf content newText 0 with
  | None => join [LF] (numberLines 0 (slice lines 0 (contextLines * 2)))
  | Some idx =>
      let linesBefore := length (split_lines (substring content 0 idx)) - 1 in
      let startLine := Nat.max 0 (linesBefore - contextLines) in
      let endLine :=
        Nat.min (length lines) (linesBefore + length newTextLines + contextLines) in
      join [LF] (numberLines startLine (slice lines startLine endLine))
  end.

Definition formatError (message : jsstring) (suggestions : list jsstring) : jsstring :=
  let suggestionsText :=
    join [LF] (imap (fun i s => dec (i + 1) ++ js ". " ++ s) suggestions) in
  message ++ [LF; LF] ++ js "<error_details>" ++ [LF]
  ++ js "Recovery suggestions:" ++ [LF] ++ suggestionsText ++ [LF]
  ++ js "</error_details>".

(** ** Paths *)

(** The class [[\u00A0\u2000-\u200A\u202F\u205F\u3000]] of [expandPath]: the
    no-break space and the wide and narrow spaces that a path may carry in
    place of a blank. *)
Definition is_unicode_space (c : N) : bool :=
  ((c =? 160) || (8192 <=? c) && (c <=? 8202) || (c =? 8239) || (c =? 8287)
   || (c =? 12288))%N.

Section Paths.

(** [os.homedir()] *)
Variable homedir : jsstring.

(** [expandPath(filePath)]: the special spaces become blanks, and a leading
    tilde the home directory. *)
Definition expandPath (filePath : jsstring) : jsstring :=
  let normalized := map (fun c => if is_unicode_space c then 32%N else c) filePath in
  if bool_decide (normalized = js "~") then homedir
  else if startsWith normalized (js "~/") then homedir ++ drop 1 normalized
  else normalized.

End Paths.

(** ** The file operations and their effects

    The tools reach the file system through four operations only.  A world
    holds the files by absolute path and the log of the operations performed
    so far (the latest last).  Every file of the world can be read and
    written, so [access] succeeds exactly for the paths that have a file;
    [writeFile] and [mkdir] always succeed. *)

Inductive event :=
  | EvAccess (path : jsstring)
  | EvReadFile (path : jsstring)
  | EvWriteFile (path content : jsstring)
  | EvMkdir (dir : jsstring).

Record world := World {
  files : gmap jsstring jsstring;
  trace : list event
}.

Inductive outcome (E A : Type) :=
  | Returned (a : A)
  | Thrown (e : E).
Arguments Returned {E A} a.
Arguments Thrown {E A} e.

Definition IO (E A : Type) : Type := world -> outcome E A * world.

Definition io_ret {E A} (a : A) : IO E A := fun w => (Returned a, w).

Definition throw {E A} (e : E) : IO E A := fun w => (Thrown e, w).

Definition io_bind {E A B} (m : IO E A) (k : A -> IO E B) : IO E B :=
  fun w => match m w with
           | (Returned a, w') => k a w'
           | (Thrown e, w') => (Thrown e, w')
           end.

Declare Scope io_scope.
Delimit Scope io_scope with io.
Notation "'let*' x ':=' m 'in' k" := (io_bind m (fun x => k))
  (at level 10, x binder, m at level 100, k at level 200) : io_scope.

Definition log (e : event) (w : world) : world :=
  World (files w) (trace w ++ [e]).

(** [ops.access(path)], with the rejection the callers catch turned into
    [false]. *)
Definition access {E} (path : jsstring) : IO E bool :=
  fun w => (Returned (bool_decide (is_Some (files w !! path))), log (EvAccess path) w).

(** [ops.readFile(path)] decoded as UTF-8; [None] when the file is absent. *)
Definition readFile {E} (path : jsstring) : IO E (option jsstring) :=
  fun w => (Returned (files w !! path), log (EvReadFile path) w).

Definition writeFile {E} (path content : jsstring) : IO E unit :=
  fun w => (Returned tt, World (<[path := content]> (files w))
                               (trace w ++ [EvWriteFile path content])).

Definition mkdir {E} (dir : jsstring) : IO E unit :=
  fun w => (Returned tt, log (EvMkdir dir) w).

(** [signal?.aborted], read at the [k]-th checkpoint of a call. *)
Definition check_aborted {E} (aborted : E) (signal : nat -> bool) (k : nat)
    : IO E unit :=
  if signal k then throw aborted else io_ret tt.

(** ** The tool [code_edit] *)

Record CodeEditInput := {
  file_path : jsstring;
  old_string : jsstring;
  new_string : jsstring;
  expected_replacements : option Z
}.


Inductive MatchStrategy := Exact | WhitespaceTolerant | TokenBased.

Definition strategy_name (m : MatchStrategy) : jsstring :=
  match m with
  | Exact => js "exact"
  | WhitespaceTolerant => js "whitespace-tolerant"
  | TokenBased => js "token-based"
  end.

(** The errors [execute] throws; [edit_error_message] is the text of each. *)
Inductive EditError :=
  | Aborted
  | MissingFilePath
  | FileAlreadyExists (file_path : jsstring)
  | FileDoesNotExist (file_path : jsstring)
  | ReadFailed (absolutePath : jsstring)
  | IdenticalStrings
  | NoMatchFound (file_path : jsstring)
  | CountMismatchExact (file_path : jsstring) (expectedCount : Z) (exactCount : nat)
  | CountMismatchRelaxed (file_path : jsstring) (expectedCount : Z)
      (wsCount tokenCount : nat).

Definition edit_error_message (e : EditError) : jsstring :=
  match e with
  | Aborted => js "Operation aborted"
  | MissingFilePath =>
      formatError (js "Missing required parameter: file_path")
        [js "Provide the path to the file you want to edit"]
  | FileAlreadyExists file_path =>
      formatError (js "File already exists: " ++ file_path)
        [js "To modify an existing file, provide a non-empty old_string that matches the current file contents";
         js "Use read to confirm the exact text to match";
         js "If you intended to overwrite the entire file, use write or code_write instead"]
  | FileDoesNotExist file_path =>
      formatError (js "File does not exist: " ++ file_path)
        [js "Verify the file path is correct";
         js "If you intended to create a new file, set old_string to an empty string";
         js "Use read or find to confirm the correct path"]
  | ReadFailed absolutePath =>
      js "ENOENT: no such file or directory, open " ++ absolutePath
  | IdenticalStrings =>
      formatError
        (js "No changes to apply: old_string and new_string are identical (after normalizing line endings)")
        [js "Update new_string to the intended replacement text";
         js "If you intended to verify file state only, use read instead"]
  | NoMatchFound file_path =>
      formatError (js "No match found in " ++ file_path)
        [js "Use read to confirm the file's current contents";
         js "Ensure old_string matches exactly (including whitespace/indentation)";
         js "Provide more surrounding context in old_string to make the match unique";
         js "If the file has changed since you last read it, re-read and retry"]
  | CountMismatchExact file_path expectedCount exactCount =>
      formatError
        (js "Occurrence count mismatch in " ++ file_path ++ js ": expected "
         ++ decZ expectedCount ++ js " but found " ++ dec exactCount
         ++ js " exact match(es)")
        [js "Provide a more specific old_string so it matches exactly the expected number of times";
         js "If you intend to replace all occurrences, set expected_replacements to "
           ++ dec exactCount;
         js "Use read to confirm the exact text and counts"]
  | CountMismatchRelaxed file_path expectedCount wsCount tokenCount =>
      formatError
        (js "Occurrence count mismatch in " ++ file_path ++ js ": expected "
         ++ decZ expectedCount ++ js ", found " ++ dec wsCount
         ++ js " (whitespace-tolerant) and " ++ dec tokenCount ++ js " (token-based)")
        [js "Provide more surrounding context in old_string to make the match unique";
         js "If multiple replacements are intended, adjust expected_replacements";
         js "Use read to confirm the current file contents and refine the match"]
  end.

(** ** The tool [code_apply_diff]: parsing *)

Record DiffBlock := {
  startLine : option nat;
  searchContent : jsstring;
  replaceContent : jsstring;
  rawBlock : jsstring
}.

Record DiffBlockResult := {
  block : DiffBlock;
  success : bool;
  error : option jsstring;
  matchedAtLine : option nat
}.

Definition SEARCH_MARKER : jsstring := js "<<<<<<< SEARCH".
Definition SEPARATOR_MARKER : jsstring := js "=======".
Definition REPLACE_MARKER : jsstring := js ">>>>>>> REPLACE".
Definition DIVIDER_MARKER : jsstring := js "-------".

Definition is_digit (c : N) : bool := ((48 <=? c) && (c <=? 57))%N.

Fixpoint takeWhile {A} (p : A -> bool) (l : list A) : list A :=
  match l with
  | x :: t => if p x then x :: takeWhile p t else []
  | [] => []
  end.

Fixpoint dropWhile {A} (p : A -> bool) (l : list A) : list A :=
  match l with
  | x :: t => if p x then dropWhile p t else l
  | [] => []
  end.

Fixpoint strip_prefix (pre s : jsstring) : option jsstring :=
  match pre, s with
  | [], _ => Some s
  | a :: pre', b :: s' => if (a =? b)%N then strip_prefix pre' s' else None
  | _ :: _, [] => None
  end.

(** [parseInt(digits, 10)] on a run of decimal digits. *)
Definition parseInt (digits : jsstring) : nat :=
  fold_left (fun acc d => 10 * acc + N.to_nat (d - 48)) digits 0.

(** [START_LINE_RE = /^:start_line:(\d+)\s*$/] applied to [line], and the
    number its group holds. *)
Definition matchStartLine (line : jsstring) : option nat :=
  match strip_prefix (js ":start_line:") line with
  | Some rest =>
      let digits := takeWhile is_digit rest in
      if nonempty digits && forallb is_space (dropWhile is_digit rest)
      then Some (parseInt digits)
      else None
  | None => None
  end.

Inductive ParseError :=
  | MissingSeparator (line : nat)
  | MissingReplace (line : nat).

Definition parse_error_message (e : ParseError) : jsstring :=
  match e with
  | MissingSeparator line =>
      js "Invalid diff block starting at line " ++ dec line ++ js ": missing "
      ++ SEPARATOR_MARKER ++ js " separator"
  | MissingReplace line =>
      js "Invalid diff block starting at line " ++ dec line ++ js ": missing "
      ++ REPLACE_MARKER ++ js " marker"
  end.

Definition is_not_marker (marker line : jsstring) : bool :=
  bool_decide (trim line <> marker).

(** The loop of [parseDiffBlocks] over the index [i] into [lines].  Every
    round moves [i] forward, so [S (length lines)] rounds of fuel are never
    used up (lemma [parseLoop_fuel]). *)
Fixpoint parseLoop (fuel : nat) (lines : list jsstring) (i : nat)
    (blocks : list DiffBlock) : ParseError + list DiffBlock :=
  match fuel with
  | 0 => inr blocks
  | S f =>
      match lines !! i with
      | None => inr blocks
      | Some line =>
          if is_not_marker SEARCH_MARKER line then parseLoop f lines (S i) blocks
          else
            let blockStartIdx := i in
            let i1 := S i in
            (* optional :start_line: *)
            let '(startLine, i2) :=
              match lines !! i1 with
              | Some l =>
                  match matchStartLine (trim l) with
                  | Some n => (Some n, S i1)
                  | None => (None, i1)
                  end
              | None => (None, i1)
              end in
            (* optional divider *)
            let i3 :=
              match lines !! i2 with
              | Some l => if bool_decide (trim l = DIVIDER_MARKER) then S i2 else i2
              | None => i2
              end in
            let searchLines := takeWhile (is_not_marker SEPARATOR_MARKER) (drop i3 lines) in
            let i4 := i3 + length searchLines in
            if bool_decide (length lines <= i4)
            then inl (MissingSeparator (blockStartIdx + 1))
            else
              let i5 := S i4 in
              let replaceLines :=
                takeWhile (is_not_marker REPLACE_MARKER) (drop i5 lines) in
              let i6 := i5 + length replaceLines in
              if bool_decide (length lines <= i6)
              then inl (MissingReplace (blockStartIdx + 1))
              else
                let i7 := S i6 in
                let rawBlock := join [LF] (slice lines blockStartIdx i7) in
                parseLoop f lines i7
                  (blocks ++ [{| startLine := startLine;
                                 searchContent := join [LF] searchLines;
                                 replaceContent := join [LF] replaceLines;
                                 rawBlock := rawBlock |}])
      end
  end.

Definition parseDiffBlocks (diff : jsstring) : ParseError + list DiffBlock :=
  let lines := split_lines diff in
  parseLoop (S (length lines)) lines 0 [].

Arguments parseDiffBlocks : simpl never.

(** ** The tool [code_apply_diff]: locating and applying *)

(** [contentLF.substring(0, idx).split("\n").length] *)
Definition lineOfIndex (contentLF : jsstring) (idx : nat) : nat :=
  length (split_lines (substring contentLF 0 idx)).

(** The window of the first strategy: it goes [windowSize] lines up from
    the hinted line and [windowSize] lines down, the bounds being those of
    [lines.slice(windowStart, windowEnd)]. *)
Definition windowSize : nat := 30.

Definition windowStart (startLine : nat) : nat :=
  let hintIdx := startLine - 1 in
  Nat.max 0 (hintIdx - windowSize).

Definition windowEnd (lines : list jsstring) (startLine : nat) : nat :=
  let hintIdx := startLine - 1 in
  Nat.min (length lines) (hintIdx + windowSize).

Definition windowContent (contentLF : jsstring) (startLine : nat) : jsstring :=
  let lines := split_lines contentLF in
  let windowLines := slice lines (windowStart startLine) (windowEnd lines startLine) in
  join [LF] windowLines.

Definition prefixLength (contentLF : jsstring) (startLine : nat) : nat :=
  let lines := split_lines contentLF in
  length (join [LF] (slice lines 0 (windowStart startLine)))
  + (if 0 <? windowStart startLine then 1 else 0).

(** Try to find [searchLF] in the file content, using the [startLine] hint to
    narrow the window: the index of the match and its 1-indexed line. *)
Definition findSearchContent (contentLF searchLF : jsstring)
    (startLine : option nat) : option (nat * nat) :=
  (* Strategy 1: exact match near the hinted line *)
  let hinted :=
    match startLine with
    | Some startLine =>
        if 0 <? startLine then
          match indexOf (windowContent contentLF startLine) searchLF 0 with
          | Some localIdx =>
              (* convert back to global index *)
              let globalIdx := prefixLength contentLF startLine + localIdx in
              Some (globalIdx, lineOfIndex contentLF globalIdx)
          | None => None
          end
        else None
    | None => None
    end in
  match hinted with
  | Some found => Some found
  | None =>
      (* Strategy 2: exact match anywhere in the file *)
      match indexOf contentLF searchLF 0 with
      | Some idx => Some (idx, lineOfIndex contentLF idx)
      | None =>
          (* Strategy 3: whitespace-tolerant match *)
          let parts := wsParts searchLF in
          if 0 <? length parts then
            match regexp_exec (RSeq (flat_map wsPartPattern parts)) contentLF 0 with
            | Some (idx, _) => Some (idx, lineOfIndex contentLF idx)
            | None => None
            end
          else None
      end
  end.

(** A located block.  Blocks are JavaScript objects and are told apart by
    identity; [m_id], the position of the block in the parsed list, stands
    for it. *)
Record MatchResult := {
  m_id : nat;
  m_block : DiffBlock;
  m_index : nat;
  m_matchLength : nat;
  m_matchedAtLine : nat;
  m_searchLF : jsstring;
  m_replaceLF : jsstring
}.

Definition notFoundError (searchLF : jsstring) (b : DiffBlock) : jsstring :=
  let preview :=
    if 80 <? length searchLF then substring searchLF 0 80 ++ js "..." else searchLF in
  let lineHint :=
    match startLine b with
    | Some (S n) => js " (hinted at line " ++ dec (S n) ++ js ")"
    | _ => []
    end in
  js "Could not find search content" ++ lineHint ++ js ": " ++ [34%N] ++ preview ++ [34%N].

(** One round of the first loop of [applyAllBlocks]: the block is pushed on
    [matchResults] or on [failResults]. *)
Definition locateBlock (contentLF : jsstring) (id : nat) (b : DiffBlock)
    : nat * DiffBlockResult + MatchResult :=
  let searchLF := normalizeToLF (searchContent b) in
  let replaceLF := normalizeToLF (replaceContent b) in
  if bool_decide (searchLF = []) then
    inl (id, {| block := b; success := false;
                error := Some (js "Empty search content"); matchedAtLine := None |})
  else
    match findSearchContent contentLF searchLF (startLine b) with
    | None =>
        inl (id, {| block := b; success := false;
                    error := Some (notFoundError searchLF b); matchedAtLine := None |})
    | Some (index, line) =>
        inr {| m_id := id; m_block := b; m_index := index;
               m_matchLength := length searchLF; m_matchedAtLine := line;
               m_searchLF := searchLF; m_replaceLF := replaceLF |}
    end.

(** [matchResults.sort((a, b) => b.index - a.index)]: a stable sort by
    descending index. *)
Fixpoint insertDesc (m : MatchResult) (sorted : list MatchResult) : list MatchResult :=
  match sorted with
  | [] => [m]
  | x :: rest =>
      if m_index m <? m_index x then x :: insertDesc m rest
      else m :: x :: rest
  end.

Definition sortDesc (ms : list MatchResult) : list MatchResult :=
  foldr insertDesc [] ms.

(** One splice of the second loop. *)
Definition splice (result : jsstring) (m : MatchResult) : jsstring :=
  substring result 0 (m_index m) ++ m_replaceLF m
  ++ substring_from result (m_index m + m_matchLength m).

Definition successOf (m : MatchResult) : nat * DiffBlockResult :=
  (m_id m, {| block := m_block m; success := true; error := None;
              matchedAtLine := Some (m_matchedAtLine m) |}).

Definition findById (id : nat) (rs : list (nat * DiffBlockResult))
    : option DiffBlockResult :=
  snd <$> List.find (fun r => fst r =? id) rs.

(** The first loop of [applyAllBlocks]: every block is located in the
    content as it was read, and goes to [matchResults] or to [failResults],
    each list in the order of the blocks. *)
Definition locateAll (contentLF : jsstring) (blocks : list DiffBlock)
    : list (nat * DiffBlockResult + MatchResult) :=
  imap (locateBlock contentLF) blocks.

Definition matchResultsOf (located : list (nat * DiffBlockResult + MatchResult))
    : list MatchResult :=
  omap (fun r => match r with inr m => Some m | inl _ => None end) located.

Definition failResultsOf (located : list (nat * DiffBlockResult + MatchResult))
    : list (nat * DiffBlockResult) :=
  omap (fun r => match r with inl f => Some f | inr _ => None end) located.

(** Apply all diff blocks to the content, processing from bottom to top to
    preserve line numbers. *)
Definition applyAllBlocks (contentLF : jsstring) (blocks : list DiffBlock)
    : jsstring * list DiffBlockResult :=
  (* first, find all matches *)
  let matchResults := matchResultsOf (locateAll contentLF blocks) in
  let failResults := failResultsOf (locateAll contentLF blocks) in
  (* sort by index descending (apply from bottom to top) *)
  let sorted := sortDesc matchResults in
  (* apply replacements *)
  let result := fold_left splice sorted contentLF in
  let successResults := successOf <$> sorted in
  (* combine results in original block order *)
  let allResults :=
    omap (fun id =>
            match findById id successResults with
            | Some r => Some r
            | None => findById id failResults
            end)
         (seq 0 (length blocks)) in
  (result, allResults).

Arguments applyAllBlocks : simpl never.

(** Apply a single diff block to the content: the result reported for it
    (the helper [_applyBlock], which locates the block on its own). *)
Definition _applyBlock (contentLF : jsstring) (b : DiffBlock) : DiffBlockResult :=
  let searchLF := normalizeToLF (searchContent b) in
  if bool_decide (searchLF = []) then
    {| block := b; success := false;
       error := Some (js "Empty search content in diff block");
       matchedAtLine := None |}
  else
    match findSearchContent contentLF searchLF (startLine b) with
    | None =>
        {| block := b; success := false;
           error := Some (notFoundError searchLF b); matchedAtLine := None |}
    | Some (_, line) =>
        {| block := b; success := true; error := None;
           matchedAtLine := Some line |}
    end.

Definition formatBlockError (r : DiffBlockResult) (idx : nat) : jsstring :=
  let lineHint :=
    match startLine (block r) with
    | Some (S n) => js " (start_line: " ++ dec (S n) ++ js ")"
    | _ => []
    end in
  js "Block " ++ dec (idx + 1) ++ lineHint ++ js ": "
  ++ default (js "undefined") (error r).

Inductive DiffError :=
  | DiffAborted
  | DiffMissingFilePath
  | DiffMissingDiff
  | DiffFileDoesNotExist (file_path : jsstring)
  | DiffParseFailed (e : ParseError)
  | DiffNoBlocks
  | DiffReadFailed (absolutePath : jsstring)
  | DiffAllFailed (file_path : jsstring) (failCount : nat)
      (results : list DiffBlockResult).

Definition diff_error_message (e : DiffError) : jsstring :=
  match e with
  | DiffAborted => js "Operation aborted"
  | DiffMissingFilePath =>
      formatError (js "Missing required parameter: file_path")
        [js "Provide the path to the file you want to modify"]
  | DiffMissingDiff =>
      formatError (js "Missing required parameter: diff")
        [js "Provide at least one SEARCH/REPLACE block"]
  | DiffFileDoesNotExist file_path =>
      formatError (js "File does not exist: " ++ file_path)
        [js "Verify the file path is correct";
         js "Use read or find to confirm the correct path"]
  | DiffParseFailed err =>
      formatError (js "Failed to parse diff: " ++ parse_error_message err)
        [js "Ensure each block follows the format: <<<<<<< SEARCH / :start_line:N / ------- / [search] / ======= / [replace] / >>>>>>> REPLACE";
         js "Check for missing markers or mismatched blocks"]
  | DiffNoBlocks =>
      formatError (js "No SEARCH/REPLACE blocks found in diff")
        [js "Include at least one <<<<<<< SEARCH ... >>>>>>> REPLACE block";
         js "Check the diff format " ++ [8212%N]
           ++ js " each block needs SEARCH, =======, and REPLACE markers"]
  | DiffReadFailed absolutePath =>
      js "ENOENT: no such file or directory, open " ++ absolutePath
  | DiffAllFailed file_path failCount results =>
      let errors := join [LF] (imap (fun i r => formatBlockError r i) results) in
      formatError
        (js "All " ++ dec failCount ++ js " diff block(s) failed to apply to "
         ++ file_path ++ js ":" ++ [LF] ++ errors)
        [js "Use read to confirm the file's current contents and line numbers";
         js "Ensure the search content matches exactly (including whitespace/indentation)";
         js "Verify :start_line: values are accurate";
         js "If the file has changed, re-read and rebuild the diff"]
  end.

(** The line that reports block [i] as applied, and the line that reports
    it as failed. *)
Definition successLine (i : nat) (r : DiffBlockResult) : jsstring :=
  let lineInfo :=
    match matchedAtLine r with
    | Some (S n) => js " at line " ++ dec (S n)
    | _ => []
    end in
  js "  " ++ [10003%N] ++ js " Block " ++ dec (i + 1) ++ lineInfo.

Definition failureLine (i : nat) (r : DiffBlockResult) : jsstring :=
  js "  " ++ [10007%N] ++ js " " ++ formatBlockError r i.

(** The lines of the text returned after a write. *)
Definition appliedParts (file_path newContentLF : jsstring)
    (blocks : list DiffBlock) (results : list DiffBlockResult) : list jsstring :=
  let successCount := length (List.filter success results) in
  let failCount := length (List.filter (fun r => negb (success r)) results) in
  let header :=
    js "Applied " ++ dec successCount ++ js "/" ++ dec (length blocks)
    ++ js " diff block(s) to " ++ file_path in
  let successes :=
    omap id (imap (fun i r =>
      if success r then Some (successLine i r) else None) results) in
  let failures :=
    if 0 <? failCount then
      [[]; [9888%N; 65039%N] ++ js " " ++ dec failCount ++ js " block(s) failed:"]
      ++ omap id (imap (fun i r =>
           if success r then None else Some (failureLine i r)) results)
      ++ [[]; js "Use read to check the file and re-apply failed blocks."]
    else [] in
  let context :=
    match List.find success results with
    | Some firstSuccess =>
        match matchedAtLine firstSuccess with
        | Some (S n) =>
            let line := S n in
            let newLines := split_lines newContentLF in
            let contextStart := Nat.max 0 (line - 4) in
            let contextEnd := Nat.min (length newLines) (line + 15) in
            [[]; js "Post-edit context (around line " ++ dec line ++ js "):";
             join [LF] (numberLines contextStart (slice newLines contextStart contextEnd))]
        | _ => []
        end
    | None => []
    end in
  let notice :=
    if length blocks =? 1 then
      [[]; js "<notice>Multiple related changes can be included as additional SEARCH/REPLACE blocks in a single code_apply_diff call for efficiency.</notice>"]
    else [] in
  header :: successes ++ failures ++ context ++ notice.

Arguments appliedParts : simpl never.

Section Tools.

(** [resolveToCwd(filePath, cwd)] and [dirname(path)] come from the path
    library of the platform and the home directory of the user. *)
Variable resolveToCwd : jsstring -> jsstring -> jsstring.
Variable dirname : jsstring -> jsstring.
Variable cwd : jsstring.

Local Open Scope io_scope.

(** [Math.max(1, expected_replacements ?? 1)] *)
Definition expectedCountOf (expected_replacements : option Z) : Z :=
  Z.max 1 (default 1%Z expected_replacements).

(** The text returned after a file was created. *)
Definition createdText (file_path new_string : jsstring) : jsstring :=
  let lineCount := length (split_lines new_string) in
  let preview := join [LF] (numberLines 0 (slice (split_lines new_string) 0 20)) in
  let truncNote :=
    if 20 <? lineCount
    then [LF] ++ js "... (" ++ dec (lineCount - 20) ++ js " more lines)"
    else [] in
  js "Created new file: " ++ file_path ++ js " (" ++ dec lineCount ++ js " lines)"
  ++ [LF; LF] ++ preview ++ truncNote.

(** The three-tier match of [execute]: the new content and the strategy that
    produced it, or the error to report.  The counts of the second and third
    strategy are computed only when the strategies before them were
    rejected.  The pattern engine of the platform enters through
    [countMatches] (the number of matches of a pattern in a text) and
    [replacePattern] (the text with every match replaced); the tool runs
    with [countRegexMatches] and [regexpReplace]. *)
Definition fuzzyMatchWith
    (countMatches : jsstring -> RegExp -> nat)
    (replacePattern : jsstring -> RegExp -> jsstring -> jsstring)
    (file_path contentLF oldLF newLF : jsstring)
    (expectedCount : Z) : EditError + jsstring * MatchStrategy :=
  let wsRegex := buildWhitespaceTolerantRegex oldLF in
  let tokenRegex := buildTokenRegex oldLF in
  let exactCount := countOccurrences contentLF oldLF in
  if bool_decide (Z.of_nat exactCount = expectedCount) then
    inr (safeLiteralReplace contentLF oldLF newLF, Exact)
  else
    let wsCount := countMatches contentLF wsRegex in
    if bool_decide (Z.of_nat wsCount = expectedCount) then
      inr (replacePattern contentLF wsRegex newLF, WhitespaceTolerant)
    else
      let tokenCount := countMatches contentLF tokenRegex in
      if bool_decide (Z.of_nat tokenCount = expectedCount) then
        inr (replacePattern contentLF tokenRegex newLF, TokenBased)
      else
        let anyMatches :=
          (0 <? exactCount) || (0 <? wsCount) || (0 <? tokenCount) in
        if negb anyMatches then inl (NoMatchFound file_path)
        else if 0 <? exactCount
        then inl (CountMismatchExact file_path expectedCount exactCount)
        else inl (CountMismatchRelaxed file_path expectedCount wsCount tokenCount).

Definition fuzzyMatch : jsstring -> jsstring -> jsstring -> jsstring -> Z ->
    EditError + jsstring * MatchStrategy :=
  fuzzyMatchWith countRegexMatches regexpReplace.

(** The text returned after a successful edit. *)
Definition editedText (file_path resultContentLF oldLF newLF : jsstring)
    (matchStrategy : MatchStrategy) (expectedCount : Z) : jsstring :=
  let context := extractContext resultContentLF oldLF newLF 5 in
  let matchNote :=
    match matchStrategy with
    | Exact => []
    | _ => js " (matched via " ++ strategy_name matchStrategy ++ js " strategy)"
    end in
  let replNote :=
    if (1 <? expectedCount)%Z
    then js " (" ++ decZ expectedCount ++ js " replacements)"
    else [] in
  js "Successfully edited " ++ file_path ++ matchNote ++ replNote ++ [LF; LF]
  ++ js "Post-edit context:" ++ [LF] ++ context.

(** [createCodeEditTool(cwd).execute(_, args, signal)]: the text of the
    result, or the error thrown. *)
Definition execute (args : CodeEditInput) (signal : nat -> bool)
    : IO EditError jsstring :=
  let expectedCount := expectedCountOf (expected_replacements args) in
  let* _ := check_aborted Aborted signal 0 in
  if bool_decide (trim (file_path args) = []) then throw MissingFilePath
  else
    let absolutePath := resolveToCwd (file_path args) cwd in
    if bool_decide (old_string args = []) then
      (* create-file mode *)
      let* exists_ := access absolutePath in
      if (exists_ : bool) then throw (FileAlreadyExists (file_path args))
      else
        let* _ := mkdir (dirname absolutePath) in
        let* _ := writeFile absolutePath (new_string args) in
        io_ret (createdText (file_path args) (new_string args))
    else
      (* edit mode *)
      let* accessible := access absolutePath in
      if negb accessible then throw (FileDoesNotExist (file_path args))
      else
        let* _ := check_aborted Aborted signal 1 in
        let* buffer := readFile absolutePath in
        match buffer with
        | None => throw (ReadFailed absolutePath)
        | Some rawContent =>
            let originalEol := detectLineEnding rawContent in
            let contentLF := normalizeToLF rawContent in
            let oldLF := normalizeToLF (old_string args) in
            let newLF := normalizeToLF (new_string args) in
            if bool_decide (oldLF = newLF) then throw IdenticalStrings
            else
              let* _ := check_aborted Aborted signal 2 in
              match fuzzyMatch (file_path args) contentLF oldLF newLF expectedCount with
              | inl e => throw e
              | inr (resultContentLF, matchStrategy) =>
                  if bool_decide (resultContentLF = contentLF)
                  then io_ret (js "No changes needed for " ++ file_path args)
                  else
                    let finalContent := restoreLineEnding resultContentLF originalEol in
                    let* _ := writeFile absolutePath finalContent in
                    io_ret (editedText (file_path args) resultContentLF oldLF newLF
                              matchStrategy expectedCount)
              end
        end.


(** [createCodeApplyDiffTool(cwd).execute(_, args, signal)] with
    [args = { file_path, diff }]. *)
Definition execute_diff (file_path diff : jsstring) (signal : nat -> bool)
    : IO DiffError jsstring :=
  let* _ := check_aborted DiffAborted signal 0 in
  if bool_decide (trim file_path = []) then throw DiffMissingFilePath
  else if bool_decide (trim diff = []) then throw DiffMissingDiff
  else
    let absolutePath := resolveToCwd file_path cwd in
    let* accessible := access absolutePath in
    if negb accessible then throw (DiffFileDoesNotExist file_path)
    else
      let* _ := check_aborted DiffAborted signal 1 in
      match parseDiffBlocks diff with
      | inl err => throw (DiffParseFailed err)
      | inr blocks =>
          if length blocks =? 0 then throw DiffNoBlocks
          else
            let* buffer := readFile absolutePath in
            match buffer with
            | None => throw (DiffReadFailed absolutePath)
            | Some rawContent =>
                let originalEol := detectLineEnding rawContent in
                let contentLF := normalizeToLF rawContent in
                let* _ := check_aborted DiffAborted signal 2 in
                let '(newContentLF, results) := applyAllBlocks contentLF blocks in
                let successCount := length (List.filter success results) in
                let failCount :=
                  length (List.filter (fun r => negb (success r)) results) in
                if successCount =? 0
                then throw (DiffAllFailed file_path failCount results)
                else
                  let finalContent := restoreLineEnding newContentLF originalEol in
                  if bool_decide (finalContent = rawContent)
                  then io_ret (js "No changes needed for " ++ file_path)
                  else
                    let* _ := writeFile absolutePath finalContent in
                    io_ret (join [LF]
                              (appliedParts file_path newContentLF blocks results))
            end
      end.

End Tools.

(** ** Notions of the specification *)

(** No CR except as the first half of a CRLF pair. *)
Fixpoint cr_only_in_crlf (s : jsstring) : bool :=
  match s with
  | [] => true
  | c :: t =>
      if (c =? CR)%N then
        match t with
        | d :: t' => (d =? LF)%N && cr_only_in_crlf t'
        | [] => false
        end
      else cr_only_in_crlf t
  end.

(** No LF except as the second half of a CRLF pair. *)
Fixpoint lf_only_in_crlf (s : jsstring) : bool :=
  match s with
  | [] => true
  | c :: t =>
      if (c =? LF)%N then false
      else if (c =? CR)%N then
        match t with
        | d :: t' => if (d =? LF)%N then lf_only_in_crlf t' else lf_only_in_crlf t
        | [] => true
        end
      else lf_only_in_crlf t
  end.

(** [s] has an occurrence of [sub] that starts at index [i]. *)
Definition occurs_at (sub s : jsstring) (i : nat) : Prop :=
  exists pre suf, s = pre ++ sub ++ suf /\ length pre = i.

(** The first occurrence of [sub] in [s] starts at index [i]. *)
Definition first_occurrence (sub s : jsstring) (i : nat) : Prop :=
  occurs_at sub s i /\ forall j, occurs_at sub s j -> i <= j.

Definition no_occurrence (sub s : jsstring) : Prop :=
  forall j, ~ occurs_at sub s j.

(** The splices of [applyAllBlocks], in the order in which they are made,
    stay clear of each other when every splice ends at or before the start
    of each splice made before it: it then rewrites only content that lies
    strictly before the splices already made. *)
Definition splices_stay_before (sorted : list MatchResult) : Prop :=
  forall i j a b, i < j -> sorted !! i = Some a -> sorted !! j = Some b ->
    m_index b + m_matchLength b <= m_index a.

Definition descending (a b : MatchResult) : Prop := m_index b <= m_index a.

(** The splices in [sorted] lie one below the other, the first below
    [upto]. *)
Fixpoint stacked_below (upto : nat) (sorted : list MatchResult) : Prop :=
  match sorted with
  | [] => True
  | m :: rest =>
      m_index m + m_matchLength m <= upto /\ stacked_below (m_index m) rest
  end.

(** The first [upto] code units of the content with the ranges of [sorted]
    replaced, all at once: below the highest range the same again, then its
    replacement, then the content between that range and [upto]. *)
Fixpoint stitched (content : jsstring) (sorted : list MatchResult) (upto : nat)
    : jsstring :=
  match sorted with
  | [] => take upto content
  | m :: rest =>
      stitched content rest (m_index m) ++ m_replaceLF m
      ++ take (upto - (m_index m + m_matchLength m))
           (drop (m_index m + m_matchLength m) content)
  end.

(** The number of line feeds of a text. *)
Definition newlines (s : list N) : nat :=
  length (filter (fun c => c = LF) s).

(** The hunk [b] can be located in the content. *)
Definition locates (contentLF : jsstring) (b : DiffBlock) : bool :=
  let searchLF := normalizeToLF (searchContent b) in
  negb (bool_decide (searchLF = []))
  && bool_decide (is_Some (findSearchContent contentLF searchLF (startLine b))).

(** The result reported for the block [b] at position [i]. *)
Definition blockOutcome (contentLF : jsstring) (i : nat) (b : DiffBlock)
    : DiffBlockResult :=
  match locateBlock contentLF i b with
  | inl (_, r) => r
  | inr m => snd (successOf m)
  end.

(** What the pieces of a pattern stand for: [Matches atoms text] says that
    [text] is a literal code unit for every [RChar], a run of one or more
    white-space code units for every [RSpaces] and a run of one or more tabs
    and blanks for every [RBlanks], in this order. *)
Inductive Matches : list ratom -> jsstring -> Prop :=
  | Matches_nil : Matches [] []
  | Matches_char c rest t :
      Matches rest t -> Matches (RChar c :: rest) (c :: t)
  | Matches_spaces run rest t :
      run <> [] -> forallb is_space run = true -> Matches rest t ->
      Matches (RSpaces :: rest) (run ++ t)
  | Matches_blanks run rest t :
      run <> [] -> forallb is_blank run = true -> Matches rest t ->
      Matches (RBlanks :: rest) (run ++ t).

(** A pattern that matches nowhere: no search finds it, it counts zero
    matches, and replacing its matches changes nothing. *)
Definition finds_nothing (r : RegExp) : Prop :=
  forall content,
    (forall lastIndex, regexp_exec r content lastIndex = None)
    /\ countRegexMatches content r = 0
    /\ forall newLF, regexpReplace content r newLF = content.

(** Literal replacement of all occurrences: [ReplacedAll old new n s r] says
    that [r] is [s] with its [n] occurrences of [old], taken from the left
    and without overlap, replaced by [new] itself. *)
Inductive ReplacedAll (old new : jsstring) : nat -> jsstring -> jsstring -> Prop :=
  | RA_none s :
      no_occurrence old s -> ReplacedAll old new 0 s s
  | RA_next n pre suf r :
      first_occurrence old (pre ++ old ++ suf) (length pre) ->
      ReplacedAll old new n suf r ->
      ReplacedAll old new (S n) (pre ++ old ++ suf) (pre ++ new ++ r).

(** The state after the access check and the read of edit mode. *)
Definition after_read (path : jsstring) (w : world) : world :=
  World (files w) (trace w ++ [EvAccess path; EvReadFile path]).

(** A call that went from the world [w] to the world [w'] was quiet when it
    left every file as it was and only checked or read files. *)
Definition quiet (w w' : world) : Prop :=
  files w' = files w
  /\ exists events,
       trace w' = trace w ++ events
       /\ forall e, e ∈ events ->
            (exists p, e = EvAccess p) \/ (exists p, e = EvReadFile p).

(** The call wrote the file at [path], once and as its last operation, and
    changed no other file. *)
Definition wrote (path : jsstring) (w w' : world) : Prop :=
  exists content events,
    files w' = <[path := content]> (files w)
    /\ trace w' = trace w ++ events ++ [EvWriteFile path content]
    /\ forall p c, EvWriteFile p c ∉ events.

(** The text has no white space. *)
Definition solid (s : jsstring) : bool := forallb (fun c => negb (is_space c)) s.

(** Every white-space code unit of the text is a tab, a blank or a line feed. *)
Definition plain_spaces (s : jsstring) : bool :=
  forallb (fun c => negb (is_space c) || is_blank c || (c =? LF)%N) s.

(** ** A platform for the examples

    Paths resolve by prefixing the working directory; the directory of a
    path is the working directory itself; no signal ever aborts. *)

Definition resolve_plain (filePath cwd : jsstring) : jsstring :=
  cwd ++ js "/" ++ filePath.

Definition dirname_plain (path : jsstring) : jsstring := js "/w".

Definition never_aborted (k : nat) : bool := false.

Definition edit_args (old new : jsstring) (expected : option Z) : CodeEditInput :=
  {| file_path := js "f"; old_string := old; new_string := new;
     expected_replacements := expected |}.

(** Two hunks with the same search body. *)
Definition same_offset_diff : jsstring :=
  unlines ["<<<<<<< SEARCH"; "bbb"; "======="; "X"; ">>>>>>> REPLACE";
           "<<<<<<< SEARCH"; "bbb"; "======="; "YYYYY"; ">>>>>>> REPLACE"]%string.

(** One hunk that replaces a line by itself. *)
Definition same_text_diff : jsstring :=
  unlines ["<<<<<<< SEARCH"; "aaa"; "======="; "aaa"; ">>>>>>> REPLACE"]%string.

(** Two hunks, the second of which is found nowhere. *)
Definition partial_diff : jsstring :=
  unlines ["<<<<<<< SEARCH"; "bbb"; "======="; "BBB"; ">>>>>>> REPLACE"; "";
           "<<<<<<< SEARCH"; "zzz"; "======="; "ZZZ"; ">>>>>>> REPLACE"]%string.

(** The world with one file, [/w/f], and an empty log. *)
Definition one_file (content : jsstring) : world :=
  World {[ js "/w/f" := content ]} [].

(** ** Tactics *)

(** Closes a goal that says that no write is among the listed events. *)
Ltac no_write :=
  let Hin := fresh "Hin" in
  intros ? ? Hin;
  repeat (apply elem_of_cons in Hin as [Hin|Hin]; [discriminate Hin|]);
  by apply elem_of_nil in Hin.

(** Closes a goal that says that a call was quiet, its events being listed. *)
Ltac quiet_events :=
  split; [done|]; eexists; split; [done|];
  let e := fresh "e" in let He := fresh "He" in
  intros e He;
  repeat (apply elem_of_cons in He as [->|He]; [eauto|]);
  by apply elem_of_nil in He.

Ltac file_kept Hfile :=
  let H := fresh "H" in
  intros H; left; cbn [files snd log] in H; rewrite Hfile in H; congruence.

(** * Properties *)

(** ** Searching *)

Lemma startsWith_app (s sub : jsstring) :
  startsWith s sub = true <-> exists t, s = sub ++ t.
Proof.
  revert s; induction sub as [|a sub IH]; intros s; simpl.
  - split; [intros _; by exists s | done].
  - destruct s as [|b s]; [split; [done | intros [t Ht]; done]|].
    destruct (N.eqb_spec a b) as [->|Hne].
    + rewrite IH. split; intros [t Ht]; exists t; [by rewrite Ht | congruence].
    + split; [done | intros [t Ht]; congruence].
Qed.

Lemma index_in_cons (sub : jsstring) (c : N) (t : jsstring) :
  index_in sub (c :: t) =
    if startsWith (c :: t) sub then Some 0 else S <$> index_in sub t.
Proof. done. Qed.

Lemma occurs_at_0 (sub s : jsstring) :
  occurs_at sub s 0 <-> startsWith s sub = true.
Proof.
  rewrite startsWith_app. split.
  - intros (pre & suf & -> & Hl). destruct pre; [eauto | done].
  - intros [t ->]. by exists [], t.
Qed.

Lemma occurs_at_S (sub : jsstring) (c : N) (t : jsstring) (j : nat) :
  occurs_at sub (c :: t) (S j) <-> occurs_at sub t j.
Proof.
  split.
  - intros (pre & suf & Heq & Hl). destruct pre as [|d pre]; [done|].
    simpl in *. exists pre, suf. split; [congruence | lia].
  - intros (pre & suf & -> & Hl). exists (c :: pre), suf. simpl. auto.
Qed.

Lemma index_in_Some (sub s : jsstring) (i : nat) :
  index_in sub s = Some i -> first_occurrence sub s i.
Proof.
  revert i; induction s as [|c t IH]; intros i.
  - simpl. destruct (startsWith [] sub) eqn:E; [|done].
    intros [= <-]. split; [by apply occurs_at_0 | lia].
  - rewrite index_in_cons. destruct (startsWith (c :: t) sub) eqn:E.
    + intros [= <-]. split; [by apply occurs_at_0 | lia].
    + destruct (index_in sub t) as [i'|] eqn:Ei; [|done].
      intros [= <-]. destruct (IH i' eq_refl) as [Hocc Hmin]. split.
      * by apply occurs_at_S.
      * intros [|j] Hj.
        -- apply occurs_at_0 in Hj. congruence.
        -- apply occurs_at_S in Hj. apply Hmin in Hj. lia.
Qed.

Lemma index_in_None (sub s : jsstring) :
  index_in sub s = None -> no_occurrence sub s.
Proof.
  induction s as [|c t IH].
  - simpl. destruct (startsWith [] sub) eqn:E; [done|].
    intros _ j (pre & suf & Heq & Hl).
    destruct pre; [|done]. destruct sub; [done | done].
  - rewrite index_in_cons. destruct (startsWith (c :: t) sub) eqn:E; [done|].
    destruct (index_in sub t) eqn:Ei; [done|]. intros _ [|j] Hj.
    + apply occurs_at_0 in Hj. congruence.
    + apply occurs_at_S in Hj. by apply (IH eq_refl j).
Qed.

Lemma first_occurrence_index_in (sub s : jsstring) (i : nat) :
  first_occurrence sub s i -> index_in sub s = Some i.
Proof.
  intros [Hocc Hmin]. destruct (index_in sub s) as [j|] eqn:E.
  - destruct (index_in_Some _ _ _ E) as [Hj Hjmin].
    f_equal. apply Nat.le_antisymm; auto.
  - by apply index_in_None in E; destruct (E i).
Qed.

Lemma indexOf_0 (s sub : jsstring) : indexOf s sub 0 = index_in sub s.
Proof.
  unfold indexOf, StringIndexOf. rewrite Nat.min_0_l, drop_0.
  destruct (decide (0 <= length s)); [|lia].
  by destruct (index_in sub s).
Qed.

Lemma includes_true (s sub : jsstring) :
  includes s sub = true <-> exists i, index_in sub s = Some i.
Proof.
  unfold includes. rewrite bool_decide_eq_true, indexOf_0. done.
Qed.

Lemma includes_false (s sub : jsstring) :
  includes s sub = false <-> index_in sub s = None.
Proof.
  unfold includes. rewrite bool_decide_eq_false, indexOf_0.
  destruct (index_in sub s); split; try done.
  intros H; destruct H; eauto.
Qed.

(** ** Line endings *)

Lemma normalizeToLF_no_crlf (s : jsstring) :
  index_in CRLF s = None -> normalizeToLF s = s.
Proof.
  induction s as [|c t IH]; [done|].
  rewrite index_in_cons.
  destruct (startsWith (c :: t) CRLF) eqn:E; [done|].
  destruct (index_in CRLF t) eqn:Ei; [done|]. intros _.
  destruct t as [|d t']; [done|].
  change (normalizeToLF (c :: d :: t'))
    with (if (c =? CR)%N && (d =? LF)%N then LF :: normalizeToLF t'
          else c :: normalizeToLF (d :: t')).
  unfold CRLF in E. cbn [startsWith] in E.
  rewrite (N.eqb_sym CR c), (N.eqb_sym LF d) in E.
  destruct (c =? CR)%N, (d =? LF)%N; cbn [andb]; try done; by rewrite IH.
Qed.

Lemma normalizeToLF_cons2 (c d : N) (t : jsstring) :
  normalizeToLF (c :: d :: t) =
    if (c =? CR)%N && (d =? LF)%N then LF :: normalizeToLF t
    else c :: normalizeToLF (d :: t).
Proof. done. Qed.

Lemma cr_only_in_crlf_cons (c : N) (t : jsstring) :
  cr_only_in_crlf (c :: t) =
    if (c =? CR)%N then
      match t with
      | d :: t' => (d =? LF)%N && cr_only_in_crlf t'
      | [] => false
      end
    else cr_only_in_crlf t.
Proof. done. Qed.

Lemma lf_only_in_crlf_cons (c : N) (t : jsstring) :
  lf_only_in_crlf (c :: t) =
    if (c =? LF)%N then false
    else if (c =? CR)%N then
      match t with
      | d :: t' => if (d =? LF)%N then lf_only_in_crlf t' else lf_only_in_crlf t
      | [] => true
      end
    else lf_only_in_crlf t.
Proof. done. Qed.

Lemma expandLF_cons (c : N) (t : jsstring) :
  expandLF (c :: t) =
    if (c =? LF)%N then CR :: LF :: expandLF t else c :: expandLF t.
Proof. done. Qed.

Lemma expandLF_normalizeToLF (s : jsstring) :
  cr_only_in_crlf s = true -> lf_only_in_crlf s = true ->
  expandLF (normalizeToLF s) = s.
Proof.
  remember (length s) as n eqn:Hn. revert s Hn.
  induction n as [n IH] using lt_wf_ind. intros s Hn Hcr Hlf.
  destruct s as [|c t]; [done|].
  rewrite cr_only_in_crlf_cons in Hcr. rewrite lf_only_in_crlf_cons in Hlf.
  destruct (N.eqb_spec c LF) as [->|HcLF]; [done|].
  destruct t as [|d t'].
  - destruct (c =? CR)%N; [done|]. cbn [normalizeToLF].
    rewrite expandLF_cons. by destruct (N.eqb_spec c LF).
  - rewrite normalizeToLF_cons2.
    destruct (N.eqb_spec c CR) as [->|HcCR].
    + apply andb_prop in Hcr as [Hd Hcr]. rewrite Hd in Hlf |- *.
      apply N.eqb_eq in Hd as ->. cbn [andb].
      rewrite expandLF_cons, N.eqb_refl.
      rewrite (IH (length t')); simpl in *; auto; lia.
    + cbn [andb]. rewrite expandLF_cons. destruct (N.eqb_spec c LF); [done|].
      rewrite (IH (length (d :: t'))); simpl in *; auto; lia.
Qed.

Lemma detectLineEnding_CRLF (raw : jsstring) :
  detectLineEnding raw = EOL_CRLF <-> exists pre suf, raw = pre ++ CRLF ++ suf.
Proof.
  unfold detectLineEnding. destruct (includes raw CRLF) eqn:E.
  - apply includes_true in E as [i Hi].
    apply index_in_Some in Hi as [(pre & suf & Heq & _) _]. split; eauto.
  - apply includes_false, index_in_None in E. split; [done|].
    intros (pre & suf & Heq). destruct (E (length pre)). by exists pre, suf.
Qed.

(** C6, as the specification states it, fails on a file that mixes LF and
    CRLF line ends: every CR of ["a\nb\r\nc"] is part of a CRLF pair, yet the
    restored text is ["a\r\nb\r\nc"]. *)
Lemma line_ending_round_trip_mixed :
  let raw := js "a" ++ [LF] ++ js "b" ++ [CR; LF] ++ js "c" in
  cr_only_in_crlf raw = true
  /\ restoreLineEnding (normalizeToLF raw) (detectLineEnding raw)
     = js "a" ++ [CR; LF] ++ js "b" ++ [CR; LF] ++ js "c"
  /\ restoreLineEnding (normalizeToLF raw) (detectLineEnding raw) <> raw.
Proof. repeat split; by vm_compute. Qed.

(** C6 (amended): restoring the line ends after normalisation gives back
    every raw content in which no CR stands outside a CRLF pair and, when the
    content has a CRLF at all, no LF stands outside a CRLF pair either;
    [detectLineEnding] answers CRLF exactly when the content contains a CRLF,
    and LF otherwise. *)
Theorem line_ending_round_trip (raw : jsstring) :
  cr_only_in_crlf raw = true ->
  (includes raw CRLF = true -> lf_only_in_crlf raw = true) ->
  restoreLineEnding (normalizeToLF raw) (detectLineEnding raw) = raw
  /\ (detectLineEnding raw = EOL_CRLF <-> exists pre suf, raw = pre ++ CRLF ++ suf)
  /\ (detectLineEnding raw = EOL_LF <-> ~ exists pre suf, raw = pre ++ CRLF ++ suf).
Proof.
  intros Hcr Hlf. split; [|split].
  - unfold detectLineEnding. destruct (includes raw CRLF) eqn:E; simpl.
    + by apply expandLF_normalizeToLF; auto.
    + by apply normalizeToLF_no_crlf, includes_false.
  - apply detectLineEnding_CRLF.
  - rewrite <- detectLineEnding_CRLF. by destruct (detectLineEnding raw).
Qed.

Lemma line_ending_round_trip_witness :
  let raw := js "line1" ++ CRLF ++ js "line2" ++ CRLF in
  restoreLineEnding (normalizeToLF raw) (detectLineEnding raw) = raw
  /\ (detectLineEnding raw = EOL_CRLF <-> exists pre suf, raw = pre ++ CRLF ++ suf)
  /\ (detectLineEnding raw = EOL_LF <-> ~ exists pre suf, raw = pre ++ CRLF ++ suf).
Proof.
  apply (line_ending_round_trip (js "line1" ++ CRLF ++ js "line2" ++ CRLF));
    [reflexivity | intros _; reflexivity].
Defined.

(** ** Literal replacement *)

Lemma StringIndexOf_app (pre t sub : jsstring) :
  StringIndexOf (pre ++ t) sub (length pre) =
    (fun i => length pre + i) <$> index_in sub t.
Proof.
  unfold StringIndexOf. rewrite drop_app_length.
  destruct (decide (length pre <= length (pre ++ t))) as [|Hn]; [done|].
  rewrite length_app in Hn. lia.
Qed.

Lemma index_in_nil (sub : jsstring) : sub <> [] -> index_in sub [] = None.
Proof. by destruct sub. Qed.

Lemma indexOf_StringIndexOf (s sub : jsstring) (p : nat) :
  sub <> [] -> indexOf s sub p = StringIndexOf s sub p.
Proof.
  intros Hsub. unfold indexOf. destruct (decide (p <= length s)) as [Hle|Hgt].
  - by rewrite Nat.min_l.
  - rewrite Nat.min_r by lia. unfold StringIndexOf.
    destruct (decide (length s <= length s)); [|lia].
    destruct (decide (p <= length s)); [lia|].
    by rewrite drop_all, index_in_nil.
Qed.

Lemma substring_from_app (pre t : jsstring) :
  substring_from (pre ++ t) (length pre) = t.
Proof.
  unfold substring_from. rewrite Nat.min_l by (rewrite length_app; lia).
  apply drop_app_length.
Qed.

Lemma substring_app_mid (pre a rest : jsstring) :
  substring (pre ++ a ++ rest) (length pre) (length pre + length a) = a.
Proof.
  unfold substring. rewrite !length_app.
  rewrite (Nat.min_l (length pre)) by lia.
  rewrite (Nat.min_l (length pre + length a)) by lia.
  rewrite Nat.min_l, Nat.max_r by lia.
  rewrite drop_app_length.
  replace (length pre + length a - length pre) with (length a) by lia.
  apply take_app_length.
Qed.

Lemma substring_0_app (pre rest : jsstring) :
  substring (pre ++ rest) 0 (length pre) = pre.
Proof. apply (substring_app_mid [] pre rest). Qed.

(** The count of [countOccurrences] is the number of positions at which
    [replaceAll] replaces. *)
Lemma countLoop_positions (fuel : nat) (str substr : jsstring)
    (pos : option nat) (count : nat) :
  substr <> [] ->
  countLoop fuel str substr pos count =
    count + length (replaceAllPositions fuel str substr pos).
Proof.
  intros Hsub. revert pos count.
  induction fuel as [|f IH]; intros pos count; simpl.
  - lia.
  - destruct pos as [p|]; [|simpl; lia].
    rewrite indexOf_StringIndexOf by done.
    replace (Nat.max 1 (length substr)) with (length substr)
      by (destruct substr; [done | simpl; lia]).
    rewrite IH. simpl. lia.
Qed.

(** The loop of [replaceAll] behind a prefix [pre] already dealt with: the
    remaining text [t] is rewritten as [ReplacedAll] says, whenever the
    template stands for [new] at every match. *)
Lemma replaceAll_behind (old new template : jsstring) :
  old <> [] ->
  (forall before after, GetSubstitution old before after template = new) ->
  forall fuel pre t, length t < fuel ->
    let positions :=
      replaceAllPositions fuel (pre ++ t) old
        (StringIndexOf (pre ++ t) old (length pre)) in
    ReplacedAll old new (length positions) t
      (replaceAllBuild (pre ++ t) old template positions (length pre)).
Proof.
  intros Hold Hsub. induction fuel as [|f IH]; intros pre t Hlen; [lia|].
  simpl. rewrite StringIndexOf_app.
  destruct (index_in old t) as [i|] eqn:Ei; simpl.
  - destruct (index_in_Some _ _ _ Ei) as [(a & b & Ht & Hla) Hmin].
    subst t i.
    replace (Nat.max 1 (length old)) with (length old)
      by (destruct old; [done | simpl; lia]).
    assert (Hpre : pre ++ a ++ old ++ b = (pre ++ a ++ old) ++ b)
      by (by rewrite <- !app_assoc).
    assert (Hl : length pre + length a + length old = length (pre ++ a ++ old))
      by (rewrite !length_app; lia).
    rewrite Hl. rewrite substring_app_mid, Hsub.
    rewrite Hpre.
    apply RA_next.
    + split; [by exists a, b|]. intros j Hj. by apply Hmin.
    + apply IH. rewrite !length_app in Hlen.
      destruct old; [done|]. simpl in Hlen. lia.
  - rewrite substring_from_app. by apply RA_none, index_in_None.
Qed.

Lemma replaceAll_spec (old new template str : jsstring) :
  old <> [] ->
  (forall before after, GetSubstitution old before after template = new) ->
  ReplacedAll old new (countOccurrences str old) str (replaceAll str old template).
Proof.
  intros Hold Hsub. unfold countOccurrences, replaceAll.
  destruct (decide (old = [])); [done|].
  rewrite countLoop_positions by done. simpl "+".
  rewrite indexOf_StringIndexOf by done.
  apply (replaceAll_behind old new template Hold Hsub (S (length str)) [] str).
  lia.
Qed.

Lemma GetSubstitution_cons (matched before after : jsstring) (c : N) (t : jsstring) :
  c <> DOLLAR ->
  GetSubstitution matched before after (c :: t) =
    c :: GetSubstitution matched before after t.
Proof. intros Hc. simpl. by destruct (N.eqb_spec c DOLLAR). Qed.

(** A template without dollar sign stands for itself. *)
Lemma GetSubstitution_plain (matched before after template : jsstring) :
  DOLLAR ∉ template ->
  GetSubstitution matched before after template = template.
Proof.
  induction template as [|c t IH]; [done|]. intros Hnot.
  apply not_elem_of_cons in Hnot as [Hc Ht].
  by rewrite GetSubstitution_cons, IH.
Qed.

Lemma GetSubstitution_app_plain (matched before after pre t : jsstring) :
  DOLLAR ∉ pre ->
  GetSubstitution matched before after (pre ++ t) =
    pre ++ GetSubstitution matched before after t.
Proof.
  induction pre as [|c pre IH]; [done|]. intros Hnot.
  apply not_elem_of_cons in Hnot as [Hc Ht]. simpl app.
  by rewrite GetSubstitution_cons, IH.
Qed.

Lemma occurs_at_singleton (c : N) (s : jsstring) :
  (exists j, occurs_at [c] s j) <-> c ∈ s.
Proof.
  split.
  - intros (j & pre & suf & -> & _). set_solver.
  - intros (pre & suf & ->)%list_elem_of_split. exists (length pre).
    by exists pre, suf.
Qed.

Lemma no_occurrence_singleton (c : N) (s : jsstring) :
  no_occurrence [c] s <-> c ∉ s.
Proof.
  rewrite <- occurs_at_singleton. unfold no_occurrence. split.
  - intros H [j Hj]. by apply (H j).
  - intros H j Hj. apply H. eauto.
Qed.

(** Doubling every dollar sign of a text gives a template that stands for
    the text. *)
Lemma GetSubstitution_escaped (matched before after : jsstring)
    (n : nat) (s r : jsstring) :
  ReplacedAll [DOLLAR] [DOLLAR; DOLLAR] n s r ->
  GetSubstitution matched before after r = s.
Proof.
  induction 1 as [s Hno|n pre suf r [Hocc Hmin] _ IH].
  - by apply GetSubstitution_plain, no_occurrence_singleton.
  - assert (Hpre : DOLLAR ∉ pre).
    { intros (a & b & ->)%list_elem_of_split.
      assert (Hj : occurs_at [DOLLAR] ((a ++ DOLLAR :: b) ++ [DOLLAR] ++ suf) (length a)).
      { exists a, (b ++ [DOLLAR] ++ suf). split; [|done].
        by rewrite <- !app_assoc. }
      apply Hmin in Hj. rewrite length_app in Hj. simpl in Hj. lia. }
    rewrite !GetSubstitution_app_plain by done. f_equal.
    simpl. by rewrite IH.
Qed.

Lemma includes_singleton (c : N) (s : jsstring) :
  includes s [c] = true <-> c ∈ s.
Proof.
  rewrite includes_true, <- occurs_at_singleton. split.
  - intros [i Hi]. exists i. by apply index_in_Some in Hi as [? _].
  - intros [j Hj]. destruct (index_in [c] s) eqn:E; [eauto|].
    apply index_in_None in E. by destruct (E j).
Qed.

(** The dollar signs of a text are doubled by the call
    [newString.replaceAll("$", "$$$$")]. *)
Lemma escape_dollars (newString : jsstring) :
  ReplacedAll [DOLLAR] [DOLLAR; DOLLAR] (countOccurrences newString [DOLLAR])
    newString (replaceAll newString [DOLLAR] (js "$$$$")).
Proof. by apply replaceAll_spec. Qed.

(** [safeLiteralReplace] replaces every occurrence by the new text itself,
    whatever dollar sequences that text holds. *)
Lemma safeLiteralReplace_spec (str oldString newString : jsstring) :
  oldString <> [] ->
  ReplacedAll oldString newString (countOccurrences str oldString) str
    (safeLiteralReplace str oldString newString).
Proof.
  intros Hold. unfold safeLiteralReplace.
  rewrite bool_decide_eq_false_2 by done. simpl orb.
  destruct (includes str oldString) eqn:Einc; simpl negb.
  - destruct (includes newString [DOLLAR]) eqn:Ed; simpl negb.
    + apply replaceAll_spec; [done|]. intros before after.
      apply (GetSubstitution_escaped _ _ _ _ _ _ (escape_dollars newString)).
    + apply replaceAll_spec; [done|]. intros before after.
      apply GetSubstitution_plain. rewrite <- includes_singleton. congruence.
  - apply includes_false in Einc. unfold countOccurrences.
    destruct (decide (oldString = [])); [done|].
    rewrite indexOf_0, Einc. simpl. by apply RA_none, index_in_None.
Qed.

Lemma occurs_at_inj (sub pre pre' suf suf' : jsstring) :
  pre ++ sub ++ suf = pre' ++ sub ++ suf' -> length pre = length pre' ->
  pre = pre' /\ suf = suf'.
Proof.
  intros Heq Hl. apply app_inj_1 in Heq as [-> Heq]; [|done].
  by apply app_inv_head in Heq.
Qed.

(** The relation [ReplacedAll] determines the count and the result. *)
Lemma ReplacedAll_functional (old new : jsstring) (n n' : nat) (s r r' : jsstring) :
  ReplacedAll old new n s r -> ReplacedAll old new n' s r' -> n = n' /\ r = r'.
Proof.
  intros H. revert n' r'.
  induction H as [s Hno|n pre suf r [Hocc Hmin] _ IH]; intros n' r' H'.
  - inversion H' as [|m pre' suf' r0 [Hocc' _] _]; subst; [done|].
    by destruct (Hno (length pre')).
  - inversion H' as [s0 Hno|m pre' suf' r0 [Hocc' Hmin'] Hrest Hm Heq]; subst.
    + by destruct (Hno (length pre)).
    + assert (length pre = length pre') as Hl.
      { apply Nat.le_antisymm; [apply Hmin | apply Hmin'].
        - rewrite <- Heq. by exists pre', suf'.
        - rewrite Heq. by exists pre, suf. }
      symmetry in Heq. destruct (occurs_at_inj _ _ _ _ _ Heq Hl) as [-> ->].
      destruct (IH _ _ Hrest) as [-> ->]. done.
Qed.

Lemma ReplacedAll_length (old new : jsstring) (n : nat) (s r : jsstring) :
  ReplacedAll old new n s r ->
  length r + n * length old = length s + n * length new.
Proof.
  induction 1 as [|n pre suf r _ _ IH]; [lia|].
  rewrite !length_app. lia.
Qed.

(** A replacement that replaces at least once by a different text changes
    the content. *)
Lemma ReplacedAll_changes (old new : jsstring) (n : nat) (s r : jsstring) :
  ReplacedAll old new (S n) s r -> old <> new -> r <> s.
Proof.
  intros H Hne Heq. subst r.
  pose proof (ReplacedAll_length _ _ _ _ _ H) as Hlen.
  assert (length new = length old) as Hl by nia.
  inversion H as [|m pre suf r0 _ Hrest Hm Hs Hr].
  apply app_inv_head in Hr.
  apply app_inj_1 in Hr as [? _]; [congruence | done].
Qed.

(** The fuel of the two literal loops is never used up: every fuel above the
    length of the text gives the same count. *)
Lemma countLoop_fuel (fuel : nat) (str substr : jsstring) :
  substr <> [] -> length str < fuel ->
  countLoop fuel str substr (indexOf str substr 0) 0 = countOccurrences str substr.
Proof.
  intros Hsub Hfuel.
  assert (Hid : forall before after : jsstring,
             GetSubstitution substr before after [] = []) by done.
  pose proof (replaceAll_behind substr [] [] Hsub Hid fuel [] str Hfuel) as H1.
  pose proof (replaceAll_spec substr [] [] str Hsub Hid) as H2.
  simpl in H1. destruct (ReplacedAll_functional _ _ _ _ _ _ _ H1 H2) as [Hn _].
  rewrite countLoop_positions by done.
  by rewrite indexOf_StringIndexOf.
Qed.

(** ** The tool [code_edit] *)

Section EditProperties.

Variable resolveToCwd : jsstring -> jsstring -> jsstring.
Variable dirname : jsstring -> jsstring.
Variable cwd : jsstring.

Local Abbreviation run := (execute resolveToCwd dirname cwd).
Local Abbreviation resolved args := (resolveToCwd (file_path args) cwd).

(** Edit mode up to the match: the file is checked, read and normalised, and
    the three-tier match decides. *)
Lemma execute_edit_mode (args : CodeEditInput) (signal : nat -> bool)
    (w : world) (raw : jsstring) :
  (forall k, signal k = false) ->
  trim (file_path args) <> [] ->
  old_string args <> [] ->
  files w !! resolved args = Some raw ->
  normalizeToLF (old_string args) <> normalizeToLF (new_string args) ->
  run args signal w =
    let path := resolved args in
    let contentLF := normalizeToLF raw in
    let oldLF := normalizeToLF (old_string args) in
    let newLF := normalizeToLF (new_string args) in
    let expectedCount := expectedCountOf (expected_replacements args) in
    match fuzzyMatch (file_path args) contentLF oldLF newLF expectedCount with
    | inl e => (Thrown e, after_read path w)
    | inr (resultContentLF, matchStrategy) =>
        if bool_decide (resultContentLF = contentLF)
        then (Returned (js "No changes needed for " ++ file_path args),
              after_read path w)
        else
          let finalContent :=
            restoreLineEnding resultContentLF (detectLineEnding raw) in
          (Returned (editedText (file_path args) resultContentLF oldLF newLF
                       matchStrategy expectedCount),
           World (<[path := finalContent]> (files w))
                 (trace w ++ [EvAccess path; EvReadFile path;
                              EvWriteFile path finalContent]))
    end.
Proof.
  intros Hsig Hpath Hold Hfile Hne.
  unfold execute, io_bind, check_aborted, access, readFile, writeFile,
    throw, io_ret, after_read, log.
  rewrite !Hsig. cbn.
  rewrite (bool_decide_eq_false_2 _ Hpath), (bool_decide_eq_false_2 _ Hold).
  rewrite bool_decide_eq_true_2 by eauto. cbn.
  rewrite (bool_decide_eq_false_2 _ Hne), <- !app_assoc, Hfile. cbn.
  destruct (fuzzyMatch _ _ _ _ _) as [e|[res strat]]; [done|].
  destruct (bool_decide (res = normalizeToLF raw)); [done|].
  cbn. by rewrite <- !app_assoc.
Qed.

Lemma normalizeToLF_nil (s : jsstring) : normalizeToLF s = [] <-> s = [].
Proof.
  split; [|by intros ->]. destruct s as [|c [|d t]]; try done.
  rewrite normalizeToLF_cons2. by destruct ((c =? CR)%N && (d =? LF)%N).
Qed.

Lemma expectedCountOf_pos (e : option Z) : (1 <= expectedCountOf e)%Z.
Proof. unfold expectedCountOf. lia. Qed.

(** C1: in single-edit mode, when the literal count of the search text in
    the normalised content equals the expected count, the edit is committed
    by literal substitution: the file is written with every one of these
    occurrences replaced by the replacement text itself (whatever [$&], [$1]
    or other dollar sequences it holds), the strategy reported is the exact
    one, and the outcome is the same whatever the pattern engine would
    answer for the two relaxed strategies. *)
Theorem exact_count_commits_literal_replacement
    (args : CodeEditInput) (signal : nat -> bool) (w : world) (raw : jsstring) :
  (forall k, signal k = false) ->
  trim (file_path args) <> [] ->
  files w !! resolved args = Some raw ->
  normalizeToLF (old_string args) <> normalizeToLF (new_string args) ->
  Z.of_nat (countOccurrences (normalizeToLF raw) (normalizeToLF (old_string args)))
    = expectedCountOf (expected_replacements args) ->
  exists r,
    ReplacedAll (normalizeToLF (old_string args)) (normalizeToLF (new_string args))
      (countOccurrences (normalizeToLF raw) (normalizeToLF (old_string args)))
      (normalizeToLF raw) r
    /\ (forall countMatches replacePattern,
          fuzzyMatchWith countMatches replacePattern (file_path args)
            (normalizeToLF raw) (normalizeToLF (old_string args))
            (normalizeToLF (new_string args))
            (expectedCountOf (expected_replacements args))
          = inr (r, Exact))
    /\ run args signal w =
         (Returned (editedText (file_path args) r
                      (normalizeToLF (old_string args))
                      (normalizeToLF (new_string args)) Exact
                      (expectedCountOf (expected_replacements args))),
          World (<[resolved args := restoreLineEnding r (detectLineEnding raw)]>
                   (files w))
                (trace w ++ [EvAccess (resolved args); EvReadFile (resolved args);
                             EvWriteFile (resolved args)
                               (restoreLineEnding r (detectLineEnding raw))])).
Proof.
  intros Hsig Hpath Hfile Hne Hcount.
  pose proof (expectedCountOf_pos (expected_replacements args)) as Hpos.
  assert (Hold : old_string args <> []).
  { intros E. rewrite E in Hcount. unfold countOccurrences in Hcount.
    cbn [normalizeToLF] in Hcount.
    destruct (decide (@nil N = [])); [lia | done]. }
  assert (HoldLF : normalizeToLF (old_string args) <> [])
    by (by rewrite normalizeToLF_nil).
  pose proof (safeLiteralReplace_spec (normalizeToLF raw) _
                (normalizeToLF (new_string args)) HoldLF) as Hspec.
  eexists. split; [exact Hspec|].
  assert (Hmatch : forall countMatches replacePattern,
    fuzzyMatchWith countMatches replacePattern (file_path args)
      (normalizeToLF raw) (normalizeToLF (old_string args))
      (normalizeToLF (new_string args))
      (expectedCountOf (expected_replacements args))
    = inr (safeLiteralReplace (normalizeToLF raw)
             (normalizeToLF (old_string args))
             (normalizeToLF (new_string args)), Exact)).
  { intros. unfold fuzzyMatchWith. by rewrite bool_decide_eq_true_2. }
  split; [exact Hmatch|].
  rewrite (execute_edit_mode args signal w raw) by done. cbv zeta.
  unfold fuzzyMatch. rewrite Hmatch.
  rewrite bool_decide_eq_false_2; [done|].
  destruct (countOccurrences (normalizeToLF raw) (normalizeToLF (old_string args)))
    as [|n] eqn:En; [lia|].
  by apply (ReplacedAll_changes _ _ _ _ _ Hspec).
Qed.

(** C3: in single-edit mode, when the count of no strategy equals the
    expected count, the call fails without writing, and the error is one of
    three: "no match found" exactly when all three counts are zero; the
    mismatch that names the exact count exactly when the exact count is not
    zero (it differs from the expected count); the mismatch that names the
    two relaxed counts in the remaining case. *)
Theorem no_strategy_matches_diagnostic
    (args : CodeEditInput) (signal : nat -> bool) (w : world) (raw : jsstring) :
  (forall k, signal k = false) ->
  trim (file_path args) <> [] ->
  old_string args <> [] ->
  files w !! resolved args = Some raw ->
  normalizeToLF (old_string args) <> normalizeToLF (new_string args) ->
  let contentLF := normalizeToLF raw in
  let oldLF := normalizeToLF (old_string args) in
  let expectedCount := expectedCountOf (expected_replacements args) in
  let exactCount := countOccurrences contentLF oldLF in
  let wsCount := countRegexMatches contentLF (buildWhitespaceTolerantRegex oldLF) in
  let tokenCount := countRegexMatches contentLF (buildTokenRegex oldLF) in
  Z.of_nat exactCount <> expectedCount ->
  Z.of_nat wsCount <> expectedCount ->
  Z.of_nat tokenCount <> expectedCount ->
  exists e,
    run args signal w = (Thrown e, after_read (resolved args) w)
    /\ (e = NoMatchFound (file_path args)
        \/ e = CountMismatchExact (file_path args) expectedCount exactCount
        \/ e = CountMismatchRelaxed (file_path args) expectedCount wsCount tokenCount)
    /\ (e = NoMatchFound (file_path args)
        <-> exactCount = 0 /\ wsCount = 0 /\ tokenCount = 0)
    /\ (e = CountMismatchExact (file_path args) expectedCount exactCount
        <-> exactCount <> 0 /\ Z.of_nat exactCount <> expectedCount)
    /\ (e = CountMismatchRelaxed (file_path args) expectedCount wsCount tokenCount
        <-> exactCount = 0 /\ ~ (wsCount = 0 /\ tokenCount = 0)).
Proof.
  intros Hsig Hpath Hold Hfile Hne contentLF oldLF expectedCount
    exactCount wsCount tokenCount Hexact Hws Htok.
  rewrite (execute_edit_mode args signal w raw) by done. cbv zeta.
  unfold fuzzyMatch, fuzzyMatchWith.
  fold contentLF oldLF expectedCount. fold exactCount wsCount tokenCount.
  rewrite !bool_decide_eq_false_2 by done.
  clearbody exactCount wsCount tokenCount expectedCount.
  destruct exactCount as [|a], wsCount as [|b], tokenCount as [|c]; cbn;
    eexists; (split; [reflexivity|]);
    repeat split; try tauto; try (right; tauto);
    try (intros; discriminate); try lia; try (intros [? ?]; lia);
    try (intros [? [? ?]]; lia); auto.
Qed.

(** C8: in create-file mode (empty [old_string]) the call fails with the
    error "already exists" and writes nothing when the target exists;
    otherwise it writes [new_string], as given, as the whole content of the
    file.  No file is read and no match is attempted on either path. *)
Theorem create_mode_writes_new_string
    (args : CodeEditInput) (signal : nat -> bool) (w : world) :
  signal 0 = false ->
  trim (file_path args) <> [] ->
  old_string args = [] ->
  (is_Some (files w !! resolved args) ->
     run args signal w =
       (Thrown (FileAlreadyExists (file_path args)),
        World (files w) (trace w ++ [EvAccess (resolved args)])))
  /\ (files w !! resolved args = None ->
        run args signal w =
          (Returned (createdText (file_path args) (new_string args)),
           World (<[resolved args := new_string args]> (files w))
                 (trace w ++ [EvAccess (resolved args);
                              EvMkdir (dirname (resolved args));
                              EvWriteFile (resolved args) (new_string args)]))).
Proof.
  intros Hsig Hpath Hold.
  unfold execute, io_bind, check_aborted, access, mkdir, writeFile,
    throw, io_ret, log.
  rewrite Hsig. cbn.
  rewrite (bool_decide_eq_false_2 _ Hpath), (bool_decide_eq_true_2 _ Hold).
  split; intros Hfile.
  - by rewrite bool_decide_eq_true_2.
  - rewrite bool_decide_eq_false_2 by (rewrite Hfile; by intros [? ?]).
    cbn. by rewrite <- !app_assoc.
Qed.

(** C9, as the specification states it, fails: a request whose search and
    replacement texts are equal is turned down only after the target file
    was checked and read. *)
Lemma identical_strings_rejected_after_read :
  let args := edit_args (js "x") (js "x") None in
  let w := one_file (js "x") in
  normalizeToLF (old_string args) = normalizeToLF (new_string args)
  /\ execute resolve_plain dirname_plain (js "/w") args never_aborted w
     = (Thrown IdenticalStrings,
        World (files w) [EvAccess (js "/w/f"); EvReadFile (js "/w/f")])
  /\ EvReadFile (js "/w/f")
     ∈ trace (snd (execute resolve_plain dirname_plain (js "/w") args never_aborted w)).
Proof.
  split; [by vm_compute|]. split; [by vm_compute|].
  vm_compute. apply list_elem_of_further, list_elem_of_here.
Qed.

(** C9 (amended): a single-edit request whose search text is not empty and
    equals the replacement text after normalisation of the line ends never
    writes, and leaves every file as it is; when the call is not aborted, the
    path is given and the target exists, the request is rejected as a no-op,
    and this after the access check and the read of the target, which are
    the only file operations of the call. *)
Theorem identical_strings_never_write
    (args : CodeEditInput) (signal : nat -> bool) (w : world) :
  old_string args <> [] ->
  normalizeToLF (old_string args) = normalizeToLF (new_string args) ->
  (files (snd (run args signal w)) = files w
   /\ exists events,
        trace (snd (run args signal w)) = trace w ++ events
        /\ forall path content, EvWriteFile path content ∉ events)
  /\ ((forall k, signal k = false) ->
      trim (file_path args) <> [] ->
      is_Some (files w !! resolved args) ->
      run args signal w = (Thrown IdenticalStrings, after_read (resolved args) w)).
Proof.
  intros Hold Heq.
  unfold execute, io_bind, check_aborted, access, readFile, writeFile,
    throw, io_ret, after_read, log.
  split.
  - destruct (signal 0); cbn.
    { split; [done|]. exists []. rewrite app_nil_r. split; [done|]. no_write. }
    destruct (bool_decide (trim (file_path args) = [])); cbn.
    { split; [done|]. exists []. rewrite app_nil_r. split; [done|]. no_write. }
    rewrite (bool_decide_eq_false_2 _ Hold).
    destruct (bool_decide (is_Some (files w !! resolved args))) eqn:Hex; cbn.
    2:{ split; [done|]. eexists. split; [done|]. no_write. }
    destruct (signal 1); cbn.
    { split; [done|]. eexists. split; [done|]. no_write. }
    rewrite <- !app_assoc.
    destruct (files w !! resolved args) as [raw|]; cbn.
    2:{ split; [done|]. eexists. split; [done|]. no_write. }
    rewrite (bool_decide_eq_true_2 _ Heq). cbn.
    split; [done|]. eexists. split; [done|]. no_write.
  - intros Hsig Hpath [raw Hfile]. rewrite !Hsig. cbn.
    rewrite (bool_decide_eq_false_2 _ Hpath), (bool_decide_eq_false_2 _ Hold).
    rewrite bool_decide_eq_true_2 by eauto. cbn.
    rewrite <- !app_assoc, Hfile. cbn.
    by rewrite (bool_decide_eq_true_2 _ Heq).
Qed.


End EditProperties.

(** *** The theorems of [code_edit] at concrete calls *)

Lemma exact_count_commits_literal_replacement_witness :
  let args := edit_args (js "b = 2;") (js "b = $& $1;") None in
  let raw := unlines ["a = 1;"; "b = 2;"; ""]%string in
  exists r,
    ReplacedAll (js "b = 2;") (js "b = $& $1;") 1 raw r
    /\ files (snd (execute resolve_plain dirname_plain (js "/w") args
                     never_aborted (one_file raw))) !! js "/w/f"
       = Some r.
Proof.
  intros args raw.
  destruct (exact_count_commits_literal_replacement resolve_plain dirname_plain
              (js "/w") args never_aborted (one_file raw) raw)
    as (r & Hr & _ & Hrun);
    [by intros k | by vm_compute | by vm_compute | by vm_compute
    | by vm_compute |].
  exists r. split; [exact Hr|]. rewrite Hrun. cbn [snd files].
  apply lookup_insert_eq.
Defined.

Lemma no_strategy_matches_diagnostic_witness :
  let args := edit_args (js "foo();") (js "bar();") None in
  let raw := unlines ["foo();"; "foo();"; "foo();"; ""]%string in
  exists e,
    execute resolve_plain dirname_plain (js "/w") args never_aborted (one_file raw)
      = (Thrown e, after_read (js "/w/f") (one_file raw))
    /\ (e = CountMismatchExact (js "f") 1 3 <-> 3 <> 0 /\ 3%Z <> 1%Z).
Proof.
  intros args raw.
  destruct (no_strategy_matches_diagnostic resolve_plain dirname_plain
              (js "/w") args never_aborted (one_file raw) raw)
    as (e & Hrun & _ & _ & Hexact & _);
    [by intros k | by vm_compute | by vm_compute | by vm_compute
    | by vm_compute | by vm_compute | by vm_compute | by vm_compute |].
  exists e. split; [exact Hrun | exact Hexact].
Defined.

Lemma create_mode_writes_new_string_witness :
  let args := {| file_path := js "new"; old_string := [];
                 new_string := js "hello"; expected_replacements := None |} in
  let w := one_file (js "old content") in
  execute resolve_plain dirname_plain (js "/w") args never_aborted w
  = (Returned (createdText (js "new") (js "hello")),
     World (<[js "/w/new" := js "hello"]> (files w))
           [EvAccess (js "/w/new"); EvMkdir (js "/w");
            EvWriteFile (js "/w/new") (js "hello")]).
Proof.
  intros args w.
  apply (create_mode_writes_new_string resolve_plain dirname_plain (js "/w")
           args never_aborted w);
    [reflexivity | by vm_compute | reflexivity | by vm_compute].
Defined.

Lemma identical_strings_never_write_witness :
  let args := edit_args (js "x") (js "x") None in
  let w := one_file (js "x") in
  files (snd (execute resolve_plain dirname_plain (js "/w") args never_aborted w))
  = files w.
Proof.
  intros args w.
  apply (identical_strings_never_write resolve_plain dirname_plain (js "/w")
           args never_aborted w);
    [by vm_compute | by vm_compute].
Defined.


(** ** The matcher *)

Lemma match_plus_sound (cls : N -> bool) (k : jsstring -> option nat)
    (s : jsstring) (n : nat) :
  match_plus cls k s = Some n ->
  exists run t m,
    s = run ++ t /\ run <> [] /\ forallb cls run = true
    /\ k t = Some m /\ n = length run + m.
Proof.
  revert n. induction s as [|c t IH]; intros n; [done|]. cbn.
  destruct (cls c) eqn:Hc; [|done].
  destruct (match_plus cls k t) as [m|] eqn:E.
  - intros [= <-]. destruct (IH m eq_refl) as (run & t' & m' & -> & _ & Hrun & Hk & ->).
    exists (c :: run), t', m'. cbn. rewrite Hc, Hrun. by repeat split.
  - destruct (k t) as [m|] eqn:Ek; [|done]. intros [= <-].
    exists [c], t, m. cbn. rewrite Hc. by repeat split.
Qed.

Lemma match_plus_complete (cls : N -> bool) (k : jsstring -> option nat)
    (run t : jsstring) :
  run <> [] -> forallb cls run = true -> is_Some (k t) ->
  is_Some (match_plus cls k (run ++ t)).
Proof.
  induction run as [|c run IH]; [done|]. intros _ Hrun Hk.
  cbn in Hrun. apply andb_prop in Hrun as [Hc Hrun]. cbn. rewrite Hc.
  destruct run as [|d run].
  - cbn. destruct (match_plus cls k t); [eauto|]. destruct Hk as [m ->]. eauto.
  - destruct (IH ltac:(done) Hrun Hk) as [m ->]. eauto.
Qed.

(** The matcher finds only what the pattern stands for. *)
Lemma match_here_sound (atoms : list ratom) (s : jsstring) (n : nat) :
  match_here atoms s = Some n -> Matches atoms (take n s).
Proof.
  revert s n. induction atoms as [|a rest IH]; intros s n.
  - cbn. intros [= <-]. constructor.
  - destruct a as [c| |]; cbn [match_here].
    + destruct s as [|d t]; [done|]. destruct (N.eqb_spec c d) as [->|]; [|done].
      destruct (match_here rest t) as [m|] eqn:E; [|done].
      intros [= <-]. cbn. constructor. by apply IH.
    + intros (run & t & m & -> & Hne & Hrun & Hk & ->)%match_plus_sound.
      rewrite take_app_add'. constructor; auto. done.
    + intros (run & t & m & -> & Hne & Hrun & Hk & ->)%match_plus_sound.
      rewrite take_app_add'. constructor; auto. done.
Qed.

(** The matcher finds a match wherever the text starts with something the
    pattern stands for. *)
Lemma match_here_complete (atoms : list ratom) (text rest : jsstring) :
  Matches atoms text -> is_Some (match_here atoms (text ++ rest)).
Proof.
  induction 1 as [|c atoms t _ IH|run atoms t Hne Hrun _ IH
                  |run atoms t Hne Hrun _ IH]; cbn [match_here].
  - eauto.
  - cbn. rewrite N.eqb_refl. destruct IH as [m ->]. eauto.
  - rewrite <- app_assoc. by apply match_plus_complete.
  - rewrite <- app_assoc. by apply match_plus_complete.
Qed.

(** ** Pattern builders *)

Lemma RNever_finds_nothing : finds_nothing RNever.
Proof.
  intros content. split; [done|]. split; [done|]. intros newLF.
  unfold regexpReplace, matchAll. cbn. unfold substring_from.
  by rewrite ?Nat.min_0_l, ?drop_0.
Qed.

Lemma split_spaces_from_all_space (in_sep : bool) (s : jsstring) :
  forallb is_space s = true ->
  List.filter nonempty (split_spaces_from in_sep s) = [].
Proof.
  revert in_sep. induction s as [|c t IH]; intros in_sep Hs; [done|].
  cbn in Hs. apply andb_prop in Hs as [Hc Ht]. cbn. rewrite Hc.
  destruct in_sep; cbn; by rewrite IH.
Qed.

Lemma wsParts_all_space (s : jsstring) :
  s <> [] -> forallb is_space s = true -> wsParts s = [s].
Proof.
  induction s as [|c t IH]; [done|]. intros _ Hs.
  cbn in Hs. apply andb_prop in Hs as [Hc Ht].
  destruct t as [|d p]; [done|].
  cbn [wsParts]. cbn [wsParts] in IH. rewrite IH by done.
  cbn in Ht. apply andb_prop in Ht as [Hd _]. by rewrite Hc, Hd.
Qed.

(** C7, as the specification states it, fails for the whitespace-tolerant
    builder: for the search text of one tab it gives the pattern [[\t ]+],
    which matches the run of two blanks in ["a  b"]. *)
Lemma whitespace_search_matches_blank_run :
  forallb is_space [9%N] = true
  /\ regexp_source (buildWhitespaceTolerantRegex [9%N]) = js "[\t ]+"
  /\ regexp_exec (buildWhitespaceTolerantRegex [9%N]) (js "a  b") 0 = Some (1, 2)
  /\ countRegexMatches (js "a  b") (buildWhitespaceTolerantRegex [9%N]) = 1.
Proof. repeat split; by vm_compute. Qed.

(** C7 (amended): for the empty search text both builders give a pattern
    that matches nothing in any content; so does the token-tolerant builder
    for every search text that consists of white space only.  For a search
    text of white space only that is not empty, the whitespace-tolerant
    builder gives the pattern of one white-space run: [\s+] when the text has
    a line feed, [[\t ]+] otherwise. *)
Theorem whitespace_only_patterns :
  finds_nothing (buildWhitespaceTolerantRegex [])
  /\ (forall s, forallb is_space s = true -> finds_nothing (buildTokenRegex s))
  /\ (forall s, s <> [] -> forallb is_space s = true ->
        buildWhitespaceTolerantRegex s
        = RSeq [if includes s [LF] then RSpaces else RBlanks]).
Proof.
  split; [apply RNever_finds_nothing|]. split.
  - intros s Hs. unfold buildTokenRegex, split_spaces.
    rewrite split_spaces_from_all_space by done. apply RNever_finds_nothing.
  - intros s Hne Hs. unfold buildWhitespaceTolerantRegex.
    destruct (decide (s = [])); [done|].
    rewrite wsParts_all_space by done. cbn [flat_map]. rewrite app_nil_r.
    unfold wsPartPattern, all_space. destruct s; [done|]. rewrite Hs.
    by destruct (includes _ _).
Qed.

Lemma whitespace_only_patterns_witness :
  finds_nothing (buildTokenRegex (js "  " ++ [LF; 9%N]))
  /\ buildWhitespaceTolerantRegex (js "  " ++ [LF; 9%N]) = RSeq [RSpaces].
Proof.
  destruct whitespace_only_patterns as (_ & Htok & Hws). split.
  - apply Htok. reflexivity.
  - apply (Hws (js "  " ++ [LF; 9%N])); [by vm_compute | reflexivity].
Defined.

(** ** The order of the splices *)

Lemma insertDesc_Permutation (m : MatchResult) (l : list MatchResult) :
  insertDesc m l ≡ₚ m :: l.
Proof.
  induction l as [|x l IH]; [done|]. cbn [insertDesc].
  destruct (m_index m <? m_index x); [|done].
  rewrite IH. apply Permutation_swap.
Qed.

Lemma sortDesc_Permutation (ms : list MatchResult) : sortDesc ms ≡ₚ ms.
Proof.
  induction ms as [|m ms IH]; [done|]. cbn [sortDesc foldr].
  fold (sortDesc ms). by rewrite insertDesc_Permutation, IH.
Qed.

Lemma insertDesc_Sorted (m : MatchResult) (l : list MatchResult) :
  Sorted descending l -> Sorted descending (insertDesc m l).
Proof.
  induction l as [|x l IH]; intros Hs; cbn [insertDesc].
  - by repeat constructor.
  - destruct (Nat.ltb_spec (m_index m) (m_index x)) as [Hlt|Hge].
    + apply Sorted_inv in Hs as [Hs Hhd]. constructor; [by apply IH|].
      destruct l as [|y l]; cbn [insertDesc].
      * constructor. unfold descending. lia.
      * destruct (m_index m <? m_index y); constructor.
        -- by inversion Hhd.
        -- unfold descending. lia.
    + constructor; [done|]. constructor. by unfold descending.
Qed.

(** The located blocks are spliced in the order of descending start
    offsets. *)
Lemma sortDesc_Sorted (ms : list MatchResult) : Sorted descending (sortDesc ms).
Proof.
  induction ms as [|m ms IH]; [constructor|]. by apply insertDesc_Sorted.
Qed.

Lemma splices_stay_before_tail (m : MatchResult) (rest : list MatchResult) :
  splices_stay_before (m :: rest) -> splices_stay_before rest.
Proof.
  intros H i j a b Hij Ha Hb. by apply (H (S i) (S j) a b); [lia| |].
Qed.

Lemma stacked_below_of_stay_before (upto : nat) (sorted : list MatchResult) :
  splices_stay_before sorted ->
  (forall m, m ∈ sorted -> m_index m + m_matchLength m <= upto) ->
  stacked_below upto sorted.
Proof.
  revert upto. induction sorted as [|m rest IH]; intros upto Hstay Hin; [done|].
  split; [apply Hin; by left|].
  apply IH; [by eapply splices_stay_before_tail|].
  intros m' Hm'. apply list_elem_of_lookup in Hm' as [j Hj].
  by apply (Hstay 0 (S j) m m'); [lia| |].
Qed.

(** Splices that lie one below the other do not disturb each other: made
    from the highest to the lowest, they give the content with all ranges
    replaced at once. *)
Lemma fold_splice_stitched (content : jsstring) (sorted : list MatchResult) :
  forall upto tail,
    upto <= length content ->
    stacked_below upto sorted ->
    fold_left splice sorted (take upto content ++ tail)
    = stitched content sorted upto ++ tail.
Proof.
  induction sorted as [|m rest IH]; intros upto tail Hupto Hst; [done|].
  destruct Hst as [Hm Hrest]. cbn [fold_left stitched].
  assert (Hsplice : splice (take upto content ++ tail) m
                    = take (m_index m) content
                      ++ (m_replaceLF m
                          ++ take (upto - (m_index m + m_matchLength m))
                               (drop (m_index m + m_matchLength m) content)
                          ++ tail)).
  { unfold splice, substring, substring_from.
    rewrite length_app, length_take.
    rewrite Nat.min_0_l, (Nat.min_l (m_index m)) by lia.
    rewrite Nat.min_0_l, Nat.max_r, Nat.sub_0_r, drop_0 by lia.
    rewrite (Nat.min_l (m_index m + m_matchLength m)) by lia.
    rewrite take_app_le by (rewrite length_take; lia).
    rewrite take_take, Nat.min_l by lia.
    rewrite drop_app_le by (rewrite length_take; lia).
    by rewrite skipn_firstn_comm. }
  rewrite Hsplice, IH by (done || lia). by rewrite <- !app_assoc.
Qed.

(** For hunks located in ranges that stay clear of each other,
    [applyAllBlocks] gives the content with all ranges replaced at once. *)
Lemma applyAllBlocks_disjoint (content : jsstring) (blocks : list DiffBlock) :
  let sorted := sortDesc (matchResultsOf (locateAll content blocks)) in
  splices_stay_before sorted ->
  (forall m, m ∈ sorted -> m_index m + m_matchLength m <= length content) ->
  fst (applyAllBlocks content blocks) = stitched content sorted (length content).
Proof.
  intros sorted Hstay Hin. unfold applyAllBlocks. cbn [fst]. fold sorted.
  pose proof (fold_splice_stitched content sorted (length content) []
                (Nat.le_refl _)
                (stacked_below_of_stay_before _ _ Hstay Hin)) as H.
  by rewrite firstn_all, !app_nil_r in H.
Qed.

(** C2 fails on the code for two hunks whose search bodies are located at
    the same offset.  Both hunks of [same_offset_diff] are located at offset
    4 of ["aaa\nbbb\nccc\n"], so the second splice covers the offsets from 4
    to 7 of a content in which the first splice already put [X] at offset 4:
    it does not stay before the first splice, and the text [X\nc] is lost. *)
Theorem applyAllBlocks_same_offset_overlap :
  let content := unlines ["aaa"; "bbb"; "ccc"; ""]%string in
  exists b1 b2,
    parseDiffBlocks same_offset_diff = inr [b1; b2]
    /\ map (fun m => (m_index m, m_matchLength m))
         (sortDesc (matchResultsOf (locateAll content [b1; b2])))
       = [(4, 3); (4, 3)]
    /\ ~ splices_stay_before
           (sortDesc (matchResultsOf (locateAll content [b1; b2])))
    /\ fst (applyAllBlocks content [b1; b2])
       = unlines ["aaa"; "YYYYYcc"; ""]%string
    /\ map success (snd (applyAllBlocks content [b1; b2])) = [true; true].
Proof.
  intros content. eexists _, _. split; [by vm_compute|].
  split; [by vm_compute|]. split; [|split; by vm_compute].
  intros Hsafe.
  match goal with
  | H : splices_stay_before ?l |- _ =>
      destruct (l !! 0) as [a|] eqn:Ea; [|by vm_compute in Ea];
      destruct (l !! 1) as [b|] eqn:Eb; [|by vm_compute in Eb];
      pose proof (H 0 1 a b ltac:(lia) Ea Eb) as Hbad
  end.
  vm_compute in Ea, Eb. injection Ea as <-. injection Eb as <-.
  vm_compute in Hbad. lia.
Qed.

(** ** Lines *)

Lemma split_lines_cons (c : N) (t : jsstring) :
  split_lines (c :: t) =
    if (c =? LF)%N then [] :: split_lines t
    else match split_lines t with
         | l :: ls => (c :: l) :: ls
         | [] => [[c]]
         end.
Proof. done. Qed.

Lemma split_lines_inv (s : jsstring) : exists l ls, split_lines s = l :: ls.
Proof.
  induction s as [|c t (l & ls & IH)]; [by eexists _, _|].
  rewrite split_lines_cons, IH. destruct (c =? LF)%N; by eexists _, _.
Qed.

Lemma newlines_cons (c : N) (t : jsstring) :
  newlines (c :: t) = if (c =? LF)%N then S (newlines t) else newlines t.
Proof.
  unfold newlines. rewrite filter_cons.
  destruct (N.eqb_spec c LF); by destruct (decide (c = LF)).
Qed.

Lemma newlines_app (a b : jsstring) : newlines (a ++ b) = newlines a + newlines b.
Proof. unfold newlines. by rewrite filter_app, length_app. Qed.

(** The number of lines of a text is one more than its line feeds, so
    [lineOfIndex] is the 1-indexed line of an index. *)
Lemma split_lines_length (s : jsstring) :
  length (split_lines s) = S (newlines s).
Proof.
  induction s as [|c t IH]; [done|].
  rewrite split_lines_cons, newlines_cons.
  destruct (split_lines_inv t) as (l & ls & Ht). rewrite Ht in IH |- *.
  destruct (c =? LF)%N; cbn in *; lia.
Qed.

Lemma join_cons {A} (sep p : list A) (ps : list (list A)) :
  ps <> [] -> join sep (p :: ps) = p ++ sep ++ join sep ps.
Proof. by destruct ps. Qed.

Lemma join_split_lines (s : jsstring) : join [LF] (split_lines s) = s.
Proof.
  induction s as [|c t IH]; [done|].
  rewrite split_lines_cons.
  destruct (split_lines_inv t) as (l & ls & Ht). rewrite Ht in IH |- *.
  destruct (N.eqb_spec c LF) as [->|Hc].
  - rewrite join_cons by done. by rewrite IH.
  - rewrite <- IH. by destruct ls.
Qed.

Lemma split_lines_no_LF (s : jsstring) :
  Forall (fun l => newlines l = 0) (split_lines s).
Proof.
  induction s as [|c t IH]; [by repeat constructor|].
  rewrite split_lines_cons.
  destruct (split_lines_inv t) as (l & ls & Ht). rewrite Ht in IH |- *.
  apply Forall_cons in IH as [Hl Hls].
  destruct (N.eqb_spec c LF) as [->|Hc].
  - by repeat constructor.
  - constructor; [|done]. rewrite newlines_cons.
    by destruct (N.eqb_spec c LF).
Qed.

Lemma join_app {A} (sep : list A) (l1 l2 : list (list A)) :
  l1 <> [] -> l2 <> [] ->
  join sep (l1 ++ l2) = join sep l1 ++ sep ++ join sep l2.
Proof.
  intros H1 H2. induction l1 as [|p l1 IH]; [done|].
  destruct l1 as [|q l1].
  - cbn [app]. by rewrite join_cons.
  - change ((p :: q :: l1) ++ l2) with (p :: (q :: l1) ++ l2).
    rewrite !join_cons by done. rewrite IH by done. by rewrite <- !app_assoc.
Qed.

Lemma newlines_join (ls : list jsstring) :
  Forall (fun l => newlines l = 0) ls ->
  newlines (join [LF] ls) = length ls - 1.
Proof.
  induction 1 as [|l ls Hl Hls IH]; [done|].
  destruct ls as [|q ls]; [cbn [join length]; lia|].
  rewrite join_cons by done. rewrite !newlines_app, IH, Hl.
  cbn [length]. change (newlines [LF]) with 1. lia.
Qed.

Lemma substring_0_take (s : jsstring) (n : nat) :
  n <= length s -> substring s 0 n = take n s.
Proof.
  intros Hn. unfold substring.
  rewrite Nat.min_0_l, (Nat.min_l n) by done.
  by rewrite Nat.min_0_l, Nat.max_r, Nat.sub_0_r, drop_0 by lia.
Qed.

Lemma lineOfIndex_app (pre rest : jsstring) :
  lineOfIndex (pre ++ rest) (length pre) = S (newlines pre).
Proof.
  unfold lineOfIndex. by rewrite substring_0_app, split_lines_length.
Qed.

(** ** The windowed locator *)

Lemma slice_empty {A} (l : list A) (a b : nat) : b <= a -> slice l a b = [].
Proof. intros H. unfold slice. by replace (b - a) with 0 by lia. Qed.

(** The content is the text before the window, the window and the text
    behind it; the text before the window has [prefixLength] code units and
    holds the lines above the window. *)
Lemma window_decomposition (content : jsstring) (h : nat) :
  windowStart h < windowEnd (split_lines content) h ->
  exists P S,
    content = P ++ windowContent content h ++ S
    /\ length P = prefixLength content h
    /\ newlines P = windowStart h
    /\ newlines (windowContent content h)
       = windowEnd (split_lines content) h - windowStart h - 1.
Proof.
  unfold windowContent, prefixLength.
  set (lines := split_lines content). set (ws := windowStart h).
  set (we := windowEnd lines h). intros Hlt.
  assert (Hwe : we <= length lines) by (unfold we, windowEnd; lia).
  assert (Hno : Forall (fun l => newlines l = 0) lines)
    by apply split_lines_no_LF.
  set (A := take ws lines). set (B := slice lines ws we).
  set (C := drop (we - ws) (drop ws lines)).
  assert (Hlines : lines = A ++ B ++ C).
  { unfold A, B, C, slice. by rewrite take_drop, take_drop. }
  assert (HA : length A = ws) by (unfold A; rewrite length_take; lia).
  assert (HB : length B = we - ws)
    by (unfold B, slice; rewrite length_take, length_drop; lia).
  assert (HBne : B <> []) by (intros E; rewrite E in HB; cbn in HB; lia).
  assert (HnoA : Forall (fun l => newlines l = 0) A) by (by apply Forall_take).
  assert (HnoB : Forall (fun l => newlines l = 0) B)
    by (by apply Forall_take, Forall_drop).
  assert (Hcontent : content = join [LF] (A ++ B ++ C))
    by (rewrite <- Hlines; symmetry; apply join_split_lines).
  assert (HBC : exists S, join [LF] (B ++ C) = join [LF] B ++ S).
  { destruct C as [|c C'].
    - exists []. by rewrite !app_nil_r.
    - eexists. by rewrite join_app. }
  destruct HBC as [S HBC].
  assert (Hslice0 : slice lines 0 ws = A)
    by (unfold slice, A; by rewrite Nat.sub_0_r, drop_0).
  rewrite Hslice0. rewrite newlines_join by done. rewrite HB.
  clearbody A B C.
  destruct (Nat.ltb_spec 0 ws) as [Hpos|Hzero].
  - assert (HAne : A <> []) by (intros E; rewrite E in HA; cbn in HA; lia).
    exists (join [LF] A ++ [LF]), S. split; [|split; [|split]].
    + rewrite Hcontent, join_app, HBC; [by rewrite <- !app_assoc | done |].
      by destruct B.
    + rewrite length_app. cbn. lia.
    + rewrite newlines_app, newlines_join by done.
      change (newlines [LF]) with 1. lia.
    + done.
  - assert (A = []) as HAnil by (destruct A; [done | cbn in HA; lia]).
    exists [], S. split; [|split; [|split]].
    + by rewrite Hcontent, HAnil, !app_nil_l, HBC.
    + rewrite HAnil. cbn. lia.
    + cbn. lia.
    + done.
Qed.

(** A match of the first strategy: the translated offset is the offset of
    an occurrence in the whole content, and the matched line lies in the
    window. *)
Lemma hinted_match_sound (content search : jsstring) (h localIdx : nat) :
  search <> [] ->
  index_in search (windowContent content h) = Some localIdx ->
  let globalIdx := prefixLength content h + localIdx in
  occurs_at search content globalIdx
  /\ windowStart h + 1 <= lineOfIndex content globalIdx
  /\ lineOfIndex content globalIdx <= windowEnd (split_lines content) h.
Proof.
  intros Hne Hidx.
  destruct (index_in_Some _ _ _ Hidx) as [(a & b & HW & Hla) _].
  assert (Hlt : windowStart h < windowEnd (split_lines content) h).
  { destruct (Nat.lt_ge_cases (windowStart h) (windowEnd (split_lines content) h))
      as [|Hge]; [done|].
    unfold windowContent in HW. rewrite slice_empty in HW by done.
    cbn in HW. destruct a, search; done. }
  destruct (window_decomposition content h Hlt)
    as (P & rest & Hc & HP & HnP & HnW).
  rewrite HW in Hc, HnW. cbv zeta. rewrite <- HP, <- Hla, <- length_app.
  assert (Hc' : content = (P ++ a) ++ search ++ b ++ rest)
    by (rewrite Hc; by rewrite <- !app_assoc).
  split; [by exists (P ++ a), (b ++ rest)|].
  assert (Hline : lineOfIndex content (length (P ++ a))
                  = S (newlines P + newlines a)).
  { rewrite Hc' at 1. by rewrite lineOfIndex_app, newlines_app. }
  rewrite Hline. rewrite !newlines_app in HnW. lia.
Qed.

Lemma wsParts_nonempty (s : jsstring) : s <> [] -> wsParts s <> [].
Proof.
  destruct s as [|c t]; [done|]. intros _. cbn [wsParts].
  destruct (wsParts t) as [|[|d p] ps]; [done | done |].
  by destruct (Bool.eqb _ _).
Qed.



(** ** The results of [applyAllBlocks] *)

Lemma find_unique {A} (p : A -> bool) (l : list A) (x : A) :
  x ∈ l -> p x = true -> (forall y, y ∈ l -> p y = true -> y = x) ->
  List.find p l = Some x.
Proof.
  induction l as [|a l IH]; intros Hin Hp Huniq.
  - by apply elem_of_nil in Hin.
  - cbn. destruct (p a) eqn:Ea.
    + f_equal. apply Huniq; [by left | done].
    + apply IH; [|done|].
      * apply elem_of_cons in Hin as [->|]; [congruence | done].
      * intros y Hy. apply Huniq. by right.
Qed.

Lemma find_absent {A} (p : A -> bool) (l : list A) :
  (forall y, y ∈ l -> p y = false) -> List.find p l = None.
Proof.
  induction l as [|a l IH]; intros Hall; [done|]. cbn.
  rewrite (Hall a) by (by left). apply IH. intros y Hy. apply Hall. by right.
Qed.

Lemma locateBlock_inr (content : jsstring) (i : nat) (b : DiffBlock)
    (m : MatchResult) :
  locateBlock content i b = inr m -> m_id m = i.
Proof.
  unfold locateBlock.
  destruct (bool_decide _); [done|].
  destruct (findSearchContent _ _ _) as [[idx line]|]; [|done].
  by intros [= <-].
Qed.

Lemma locateBlock_inl (content : jsstring) (i : nat) (b : DiffBlock)
    (f : nat * DiffBlockResult) :
  locateBlock content i b = inl f -> fst f = i.
Proof.
  unfold locateBlock.
  destruct (bool_decide _); [by intros [= <-]|].
  destruct (findSearchContent _ _ _) as [[idx line]|]; [done|].
  by intros [= <-].
Qed.

Lemma elem_of_matchResults (content : jsstring) (blocks : list DiffBlock)
    (m : MatchResult) :
  m ∈ matchResultsOf (locateAll content blocks) <->
  exists i b, blocks !! i = Some b /\ locateBlock content i b = inr m.
Proof.
  unfold matchResultsOf, locateAll. rewrite list_elem_of_omap. split.
  - intros (r & Hr & Hm). apply elem_of_lookup_imap in Hr as (i & b & -> & Hb).
    exists i, b. split; [done|]. by destruct (locateBlock content i b); simplify_eq.
  - intros (i & b & Hb & Hloc). exists (inr m). split; [|done].
    rewrite <- Hloc. by apply elem_of_lookup_imap_2.
Qed.

Lemma elem_of_failResults (content : jsstring) (blocks : list DiffBlock)
    (f : nat * DiffBlockResult) :
  f ∈ failResultsOf (locateAll content blocks) <->
  exists i b, blocks !! i = Some b /\ locateBlock content i b = inl f.
Proof.
  unfold failResultsOf, locateAll. rewrite list_elem_of_omap. split.
  - intros (r & Hr & Hm). apply elem_of_lookup_imap in Hr as (i & b & -> & Hb).
    exists i, b. split; [done|]. by destruct (locateBlock content i b); simplify_eq.
  - intros (i & b & Hb & Hloc). exists (inl f). split; [|done].
    rewrite <- Hloc. by apply elem_of_lookup_imap_2.
Qed.

(** The result found for the block at position [i] is the outcome of
    locating that block. *)
Lemma combined_result (content : jsstring) (blocks : list DiffBlock)
    (i : nat) (b : DiffBlock) :
  blocks !! i = Some b ->
  let successResults :=
    successOf <$> sortDesc (matchResultsOf (locateAll content blocks)) in
  let failResults := failResultsOf (locateAll content blocks) in
  match findById i successResults with
  | Some r => Some r
  | None => findById i failResults
  end = Some (blockOutcome content i b).
Proof.
  intros Hb successResults failResults. unfold blockOutcome, findById.
  destruct (locateBlock content i b) as [f|m] eqn:Hloc.
  - rewrite (find_absent _ successResults).
    + rewrite (find_unique _ failResults f).
      * by destruct f.
      * apply elem_of_failResults. eauto.
      * apply Nat.eqb_eq. by apply locateBlock_inl in Hloc.
      * intros y (j & c & Hc & Hy)%elem_of_failResults Hid.
        apply Nat.eqb_eq in Hid. apply locateBlock_inl in Hy as Hj.
        assert (j = i) as -> by congruence. congruence.
    + intros y (m & -> & Hm)%list_elem_of_fmap.
      rewrite sortDesc_Permutation in Hm.
      apply elem_of_matchResults in Hm as (j & c & Hc & Hm).
      apply locateBlock_inr in Hm as Hj. cbn. apply Nat.eqb_neq.
      intros Heq. assert (j = i) as -> by congruence. congruence.
  - rewrite (find_unique _ successResults (successOf m)); [done| | |].
    + apply list_elem_of_fmap_2. rewrite sortDesc_Permutation.
      apply elem_of_matchResults. eauto.
    + cbn. apply Nat.eqb_eq. by apply locateBlock_inr in Hloc.
    + intros y (m' & -> & Hm)%list_elem_of_fmap Hid.
      rewrite sortDesc_Permutation in Hm.
      apply elem_of_matchResults in Hm as (j & c & Hc & Hm).
      apply locateBlock_inr in Hm as Hj. cbn in Hid. apply Nat.eqb_eq in Hid.
      assert (j = i) as -> by congruence. congruence.
Qed.

Lemma omap_seq_imap {A B} (F : nat -> option B) (g : nat -> A -> B)
    (l : list A) (k : nat) :
  (forall i a, l !! i = Some a -> F (k + i) = Some (g i a)) ->
  omap F (seq k (length l)) = imap g l.
Proof.
  revert k g. induction l as [|x l IH]; intros k g Hall; [done|].
  rewrite imap_cons. simpl.
  pose proof (Hall 0 x eq_refl) as H0. rewrite Nat.add_0_r in H0. rewrite H0.
  f_equal. apply IH. intros i a Hi.
  replace (S k + i) with (k + S i) by lia. by apply Hall.
Qed.

(** The results of [applyAllBlocks] mirror the blocks in their order: one
    result for each block, the outcome of locating it. *)
Lemma applyAllBlocks_results (content : jsstring) (blocks : list DiffBlock) :
  snd (applyAllBlocks content blocks) = imap (blockOutcome content) blocks.
Proof.
  unfold applyAllBlocks. cbn [snd]. apply omap_seq_imap.
  intros i b Hb. by apply combined_result.
Qed.

Lemma success_blockOutcome (content : jsstring) (i : nat) (b : DiffBlock) :
  success (blockOutcome content i b) = locates content b.
Proof.
  unfold blockOutcome, locateBlock, locates.
  destruct (bool_decide (normalizeToLF (searchContent b) = [])); [done|].
  by destruct (findSearchContent _ _ _) as [[idx line]|].
Qed.

Lemma filter_imap_length {A B} (p : B -> bool) (q : A -> bool)
    (g : nat -> A -> B) (l : list A) :
  (forall i a, p (g i a) = q a) ->
  length (List.filter p (imap g l)) = length (List.filter q l).
Proof.
  revert g. induction l as [|x l IH]; intros g Hpq; [done|].
  rewrite imap_cons. cbn [List.filter]. rewrite Hpq.
  destruct (q x); cbn [length]; rewrite IH; try done;
    intros i a; apply Hpq.
Qed.

Lemma filter_length_0 {A} (q : A -> bool) (l : list A) :
  length (List.filter q l) = 0 <-> Forall (fun a => q a = false) l.
Proof.
  induction l as [|x l IH]; [by split; [constructor|]|].
  cbn [List.filter]. rewrite Forall_cons. destruct (q x); cbn [length].
  - split; [lia | by intros [? _]].
  - rewrite IH. tauto.
Qed.

Lemma filter_length_all {A} (q : A -> bool) (l : list A) :
  Forall (fun a => q a = true) l -> length (List.filter q l) = length l.
Proof.
  induction 1 as [|x l Hx _ IH]; [done|].
  cbn [List.filter]. rewrite Hx. cbn. by rewrite IH.
Qed.

Lemma filter_length_pos {A} (q : A -> bool) (l : list A) (x : A) :
  x ∈ l -> q x = true -> 0 < length (List.filter q l).
Proof.
  intros Hin Hq. destruct (length (List.filter q l)) eqn:E; [|lia].
  apply filter_length_0 in E. rewrite Forall_forall in E.
  rewrite (E x Hin) in Hq. done.
Qed.

(** Every block is reported on a line of its own: as applied when it was
    located, as failed otherwise. *)
Lemma appliedParts_breakdown (file_path newContentLF : jsstring)
    (blocks : list DiffBlock) (results : list DiffBlockResult)
    (i : nat) (r : DiffBlockResult) :
  results !! i = Some r ->
  (if success r then successLine i r else failureLine i r)
    ∈ appliedParts file_path newContentLF blocks results.
Proof.
  intros Hr. unfold appliedParts. apply elem_of_cons. right.
  destruct (success r) eqn:Hs.
  - apply elem_of_app. left. apply list_elem_of_omap.
    exists (Some (successLine i r)). split; [|done].
    replace (Some (successLine i r))
      with ((fun i r => if success r then Some (successLine i r) else None) i r)
      by (by rewrite Hs).
    exact (elem_of_lookup_imap_2
             (fun i r => if success r then Some (successLine i r) else None)
             results r i Hr).
  - apply elem_of_app. right. apply elem_of_app. left.
    assert (Hpos : 0 < length (List.filter (fun r => negb (success r)) results)).
    { apply (filter_length_pos _ _ r); [by eapply list_elem_of_lookup_2|].
      by rewrite Hs. }
    apply Nat.ltb_lt in Hpos. rewrite Hpos.
    apply elem_of_app. right. apply elem_of_app. left. apply list_elem_of_omap.
    exists (Some (failureLine i r)). split; [|done].
    replace (Some (failureLine i r))
      with ((fun i r => if success r then None else Some (failureLine i r)) i r)
      by (by rewrite Hs).
    exact (elem_of_lookup_imap_2
             (fun i r => if success r then None else Some (failureLine i r))
             results r i Hr).
Qed.

(** ** The tool [code_apply_diff] *)

Section DiffProperties.

Variable resolveToCwd : jsstring -> jsstring -> jsstring.
Variable cwd : jsstring.

Local Abbreviation run_diff := (execute_diff resolveToCwd cwd).

(** The call up to the decision on the write. *)
Lemma execute_diff_mode (file_path diff : jsstring) (signal : nat -> bool)
    (w : world) (raw : jsstring) (blocks : list DiffBlock) :
  (forall k, signal k = false) ->
  trim file_path <> [] ->
  trim diff <> [] ->
  files w !! resolveToCwd file_path cwd = Some raw ->
  parseDiffBlocks diff = inr blocks ->
  blocks <> [] ->
  run_diff file_path diff signal w =
    let path := resolveToCwd file_path cwd in
    let contentLF := normalizeToLF raw in
    let newContentLF := fst (applyAllBlocks contentLF blocks) in
    let results := snd (applyAllBlocks contentLF blocks) in
    let finalContent := restoreLineEnding newContentLF (detectLineEnding raw) in
    if length (List.filter success results) =? 0 then
      (Thrown (DiffAllFailed file_path
                 (length (List.filter (fun r => negb (success r)) results))
                 results),
       after_read path w)
    else if bool_decide (finalContent = raw) then
      (Returned (js "No changes needed for " ++ file_path), after_read path w)
    else
      (Returned (join [LF] (appliedParts file_path newContentLF blocks results)),
       World (<[path := finalContent]> (files w))
             (trace w ++ [EvAccess path; EvReadFile path;
                          EvWriteFile path finalContent])).
Proof.
  intros Hsig Hpath Hdiff Hfile Hparse Hblocks.
  unfold execute_diff, io_bind, check_aborted, access, readFile, writeFile,
    throw, io_ret, after_read, log.
  rewrite !Hsig. cbn.
  rewrite (bool_decide_eq_false_2 _ Hpath), (bool_decide_eq_false_2 _ Hdiff).
  rewrite bool_decide_eq_true_2 by eauto. cbn.
  rewrite Hparse. destruct blocks as [|b0 blocks']; [done|].
  cbn [length Nat.eqb]. cbn. rewrite <- !app_assoc, Hfile. cbn.
  destruct (applyAllBlocks (normalizeToLF raw) (b0 :: blocks'))
    as [newContentLF results]. cbn [fst snd].
  destruct (length (List.filter success results) =? 0); [done|].
  destruct (bool_decide _); [done|]. cbn. by rewrite <- !app_assoc.
Qed.

(** C4, as the specification states it, fails when the located hunks leave
    the content as it was: the one hunk of [same_text_diff] is located in
    ["aaa\n"], yet nothing is written and the result does not report the
    count of applied hunks. *)
Lemma located_hunk_without_write :
  let w := one_file (unlines ["aaa"; ""]%string) in
  exists b,
    parseDiffBlocks same_text_diff = inr [b]
    /\ locates (unlines ["aaa"; ""]%string) b = true
    /\ execute_diff resolve_plain (js "/w") (js "f") same_text_diff never_aborted w
       = (Returned (js "No changes needed for f"),
          World (files w) [EvAccess (js "/w/f"); EvReadFile (js "/w/f")]).
Proof. intros w. eexists. repeat split; by vm_compute. Qed.

(** C4 (amended): in multi-hunk mode the results mirror the hunks in their
    order.  If at least one hunk is located and the content after the
    splices, with its line ends restored, differs from the content read, the
    file is written with that content, and the result reports the number of
    located hunks over the number of hunks and has a line for every hunk,
    which says that it was applied or why it failed.  If at least one hunk
    is located and that content equals the content read, nothing is written
    and the result says that no change was needed.  If no hunk is located,
    the call fails with an error that holds the result of every hunk, and
    nothing is written. *)
Theorem partial_success_policy (file_path diff : jsstring)
    (signal : nat -> bool) (w : world) (raw : jsstring)
    (blocks : list DiffBlock) :
  (forall k, signal k = false) ->
  trim file_path <> [] ->
  trim diff <> [] ->
  files w !! resolveToCwd file_path cwd = Some raw ->
  parseDiffBlocks diff = inr blocks ->
  blocks <> [] ->
  let path := resolveToCwd file_path cwd in
  let contentLF := normalizeToLF raw in
  let newContentLF := fst (applyAllBlocks contentLF blocks) in
  let results := snd (applyAllBlocks contentLF blocks) in
  let finalContent := restoreLineEnding newContentLF (detectLineEnding raw) in
  let successCount := length (List.filter (locates contentLF) blocks) in
  results = imap (blockOutcome contentLF) blocks
  /\ (forall i b, blocks !! i = Some b ->
        success (blockOutcome contentLF i b) = locates contentLF b)
  /\ (Exists (fun b => locates contentLF b = true) blocks ->
      finalContent <> raw ->
      run_diff file_path diff signal w
      = (Returned (join [LF] (appliedParts file_path newContentLF blocks results)),
         World (<[path := finalContent]> (files w))
               (trace w ++ [EvAccess path; EvReadFile path;
                            EvWriteFile path finalContent]))
      /\ (exists rest,
            appliedParts file_path newContentLF blocks results
            = (js "Applied " ++ dec successCount ++ js "/" ++ dec (length blocks)
               ++ js " diff block(s) to " ++ file_path) :: rest)
      /\ (forall i r, results !! i = Some r ->
            (if success r then successLine i r else failureLine i r)
              ∈ appliedParts file_path newContentLF blocks results))
  /\ (Exists (fun b => locates contentLF b = true) blocks ->
      finalContent = raw ->
      run_diff file_path diff signal w
      = (Returned (js "No changes needed for " ++ file_path), after_read path w))
  /\ (Forall (fun b => locates contentLF b = false) blocks ->
      run_diff file_path diff signal w
      = (Thrown (DiffAllFailed file_path (length blocks) results),
         after_read path w)).
Proof.
  intros Hsig Hpath Hdiff Hfile Hparse Hblocks
    path contentLF newContentLF results finalContent successCount.
  assert (Hresults : results = imap (blockOutcome contentLF) blocks)
    by apply applyAllBlocks_results.
  assert (Hcount : length (List.filter success results) = successCount).
  { rewrite Hresults. apply filter_imap_length.
    intros. apply success_blockOutcome. }
  assert (Hsome : Exists (fun b => locates contentLF b = true) blocks ->
                  (successCount =? 0) = false).
  { intros Hex. apply Nat.eqb_neq. intros H0.
    apply filter_length_0 in H0. apply Exists_exists in Hex as (b & Hb & Hloc).
    rewrite Forall_forall in H0. rewrite (H0 b Hb) in Hloc. done. }
  pose proof (execute_diff_mode file_path diff signal w raw blocks
                Hsig Hpath Hdiff Hfile Hparse Hblocks) as Hrun.
  cbv zeta in Hrun. fold contentLF in Hrun. fold newContentLF results in Hrun.
  fold finalContent path in Hrun. rewrite Hcount in Hrun.
  split; [done|]. split; [intros; apply success_blockOutcome|].
  split; [|split].
  - intros Hex Hchanged. rewrite Hrun, (Hsome Hex).
    rewrite bool_decide_eq_false_2 by done. split; [done|]. split.
    + eexists. unfold appliedParts. by rewrite Hcount.
    + intros i r Hr. by apply appliedParts_breakdown.
  - intros Hex Hsame. rewrite Hrun, (Hsome Hex).
    by rewrite bool_decide_eq_true_2.
  - intros Hall. pose proof Hall as Hzero.
    apply filter_length_0 in Hzero. fold successCount in Hzero.
    rewrite Hrun, Hzero. cbn [Nat.eqb]. do 3 f_equal.
    rewrite Hresults.
    rewrite (filter_imap_length _ (fun b => negb (locates contentLF b)))
      by (intros; by rewrite success_blockOutcome).
    apply filter_length_all. eapply Forall_impl; [exact Hall|].
    intros b Hb. by rewrite Hb.
Qed.

End DiffProperties.

Lemma partial_success_policy_witness :
  let w := one_file (unlines ["aaa"; "bbb"; "ccc"; ""]%string) in
  fst (execute_diff resolve_plain (js "/w") (js "f") partial_diff never_aborted w)
  = Returned (join [LF]
      (appliedParts (js "f") (unlines ["aaa"; "BBB"; "ccc"; ""]%string)
         (match parseDiffBlocks partial_diff with inr bs => bs | inl _ => [] end)
         (snd (applyAllBlocks (unlines ["aaa"; "bbb"; "ccc"; ""]%string)
                 (match parseDiffBlocks partial_diff with
                  | inr bs => bs | inl _ => [] end)))))
  /\ files (snd (execute_diff resolve_plain (js "/w") (js "f") partial_diff
                   never_aborted w)) !! js "/w/f"
     = Some (unlines ["aaa"; "BBB"; "ccc"; ""]%string).
Proof.
  intros w.
  destruct (parseDiffBlocks partial_diff) as [e|blocks] eqn:Hparse;
    [by vm_compute in Hparse|].
  destruct (partial_success_policy resolve_plain (js "/w") (js "f") partial_diff
              never_aborted w (unlines ["aaa"; "bbb"; "ccc"; ""]%string) blocks)
    as (_ & _ & Hwrite & _);
    [by intros k | by vm_compute | by vm_compute | by vm_compute | exact Hparse
    | vm_compute in Hparse; injection Hparse as <-; done |].
  destruct Hwrite as (Hrun & _).
  - vm_compute in Hparse. injection Hparse as <-.
    apply Exists_cons. left. by vm_compute.
  - vm_compute in Hparse. injection Hparse as <-. by vm_compute.
  - rewrite Hrun. cbn [fst snd files]. split.
    + vm_compute in Hparse. injection Hparse as <-. by vm_compute.
    + vm_compute in Hparse. injection Hparse as <-.
      rewrite lookup_insert_eq. by vm_compute.
Defined.

(** ** The fuel of the loops is never used up *)

(** Every fuel above the number of lines left gives the same parse. *)
Lemma parseLoop_fuel (fuel fuel' : nat) (lines : list jsstring) (i : nat)
    (blocks : list DiffBlock) :
  length lines - i < fuel -> length lines - i < fuel' ->
  parseLoop fuel lines i blocks = parseLoop fuel' lines i blocks.
Proof.
  revert fuel' i blocks.
  induction fuel as [|f IH]; intros fuel' i blocks Hf Hf'; [lia|].
  destruct fuel' as [|f']; [lia|]. cbn [parseLoop].
  destruct (lines !! i) as [line|] eqn:Hi; [|done].
  apply lookup_lt_Some in Hi.
  destruct (is_not_marker SEARCH_MARKER line); [apply IH; lia|].
  destruct (match lines !! S i with
            | Some l => match matchStartLine (trim l) with
                        | Some n => (Some n, S (S i))
                        | None => (None, S i)
                        end
            | None => (None, S i)
            end) as [startLine i2] eqn:E2.
  assert (Hi2 : i < i2).
  { destruct (lines !! S i) as [l|]; [|injection E2; lia].
    destruct (matchStartLine (trim l)); injection E2; lia. }
  set (i3 := match lines !! i2 with
             | Some l => if bool_decide (trim l = DIVIDER_MARKER) then S i2 else i2
             | None => i2
             end).
  assert (Hi3 : i2 <= i3).
  { unfold i3. destruct (lines !! i2) as [l|]; [|lia].
    destruct (bool_decide _); lia. }
  destruct (bool_decide (length lines <= i3 + _)); [done|].
  destruct (bool_decide (length lines <= _)) eqn:E6; [done|].
  apply bool_decide_eq_false in E6.
  apply IH; lia.
Qed.

Lemma match_plus_bound (cls : N -> bool) (k : jsstring -> option nat) :
  (forall s n, k s = Some n -> n <= length s) ->
  forall s n, match_plus cls k s = Some n -> 0 < n /\ n <= length s.
Proof.
  intros Hk. induction s as [|c t IH]; intros n; [done|]. cbn.
  destruct (cls c); [|done].
  destruct (match_plus cls k t) as [m|] eqn:E.
  - intros [= <-]. destruct (IH m eq_refl). lia.
  - destruct (k t) as [m|] eqn:Ek; [|done]. intros [= <-].
    apply Hk in Ek. lia.
Qed.

(** A match lies within the text. *)
Lemma match_here_bound (atoms : list ratom) (s : jsstring) (n : nat) :
  match_here atoms s = Some n -> n <= length s.
Proof.
  revert s n. induction atoms as [|a rest IH]; intros s n.
  - cbn. intros [= <-]. lia.
  - destruct a as [c| |]; cbn [match_here].
    + destruct s as [|d t]; [done|]. destruct (c =? d)%N; [|done].
      destruct (match_here rest t) as [m|] eqn:E; [|done].
      intros [= <-]. apply IH in E. cbn. lia.
    + intros H. by apply (match_plus_bound _ _ IH) in H as [_ ?].
    + intros H. by apply (match_plus_bound _ _ IH) in H as [_ ?].
Qed.

Lemma search_from_bound (atoms : list ratom) (s : jsstring) (k i n : nat) :
  search_from atoms s k = Some (i, n) -> k <= i /\ i + n <= k + length s.
Proof.
  revert k. induction s as [|c t IH]; intros k; cbn.
  - destruct (match_here atoms []) as [m|] eqn:E; [|done].
    intros [= <- <-]. apply match_here_bound in E. cbn in *. lia.
  - destruct (match_here atoms (c :: t)) as [m|] eqn:E.
    + intros [= <- <-]. apply match_here_bound in E. cbn in *. lia.
    + intros H. apply IH in H. lia.
Qed.

Lemma regexp_exec_bound (r : RegExp) (s : jsstring) (lastIndex i n : nat) :
  regexp_exec r s lastIndex = Some (i, n) ->
  lastIndex <= i /\ i + n <= length s.
Proof.
  destruct r as [|atoms]; [done|]. cbn.
  destruct (decide (lastIndex <= length s)); [|done].
  intros H. apply search_from_bound in H. rewrite length_drop in H. lia.
Qed.

(** Every fuel above the number of indices left gives the same matches. *)
Lemma matchAllLoop_fuel (fuel fuel' : nat) (r : RegExp) (s : jsstring)
    (lastIndex : nat) :
  S (length s) - lastIndex < fuel -> S (length s) - lastIndex < fuel' ->
  matchAllLoop fuel r s lastIndex = matchAllLoop fuel' r s lastIndex.
Proof.
  revert fuel' lastIndex.
  induction fuel as [|f IH]; intros fuel' lastIndex Hf Hf'; [lia|].
  destruct fuel' as [|f']; [lia|]. cbn [matchAllLoop].
  destruct (regexp_exec r s lastIndex) as [[i n]|] eqn:E; [|done].
  apply regexp_exec_bound in E. f_equal.
  destruct (Nat.eqb_spec n 0); apply IH; lia.
Qed.

(** The splice takes the length of the search body for the length of the
    match.  A hunk that is located by the whitespace-tolerant pattern can
    match a text of another length: the first hunk here is located at offset
    0, where it matches the three code units of [a b], and splices out four,
    over the [!] that the splice of the second hunk put at offset 3. *)
Lemma splice_of_tolerant_match_overlaps :
  let content := js "a b;" in
  let blocks :=
    [ {| startLine := None; searchContent := js "a  b";
         replaceContent := js "X"; rawBlock := [] |};
      {| startLine := None; searchContent := js ";";
         replaceContent := js "!"; rawBlock := [] |} ] in
  map (fun m => (m_index m, m_matchLength m))
    (sortDesc (matchResultsOf (locateAll content blocks)))
  = [(3, 1); (0, 4)]
  /\ regexp_exec (buildWhitespaceTolerantRegex (js "a  b")) content 0 = Some (0, 3)
  /\ fst (applyAllBlocks content blocks) = js "X".
Proof. repeat split; by vm_compute. Qed.

(** ** What the tools do to the files *)

Lemma quiet_refl (w : world) : quiet w w.
Proof.
  split; [done|]. exists []. rewrite app_nil_r. split; [done|].
  intros e He. by apply elem_of_nil in He.
Qed.

Section ToolEffects.

Variable resolveToCwd : jsstring -> jsstring -> jsstring.
Variable dirname : jsstring -> jsstring.
Variable cwd : jsstring.

(** Every call of [code_edit] is quiet, or returns after one write to its
    target. *)
Lemma execute_effects (args : CodeEditInput) (signal : nat -> bool) (w : world) :
  let r := execute resolveToCwd dirname cwd args signal w in
  quiet w (snd r)
  \/ ((exists text, fst r = Returned text)
      /\ wrote (resolveToCwd (file_path args) cwd) w (snd r)).
Proof.
  unfold execute, io_bind, check_aborted, access, readFile, writeFile, mkdir,
    throw, io_ret, log.
  destruct (signal 0); cbn; [left; apply quiet_refl|].
  destruct (bool_decide (trim (file_path args) = [])); cbn;
    [left; apply quiet_refl|].
  destruct (bool_decide (old_string args = [])); cbn.
  - destruct (bool_decide (is_Some _)); cbn; [left; quiet_events|].
    right. split; [eauto|]. eexists _, [_; _]. split; [done|].
    split; [by rewrite <- !app_assoc|]. no_write.
  - destruct (bool_decide (is_Some _)); cbn; [|left; quiet_events].
    destruct (signal 1); cbn; [left; quiet_events|].
    rewrite <- !app_assoc.
    destruct (files w !! resolveToCwd (file_path args) cwd) as [raw|]; cbn;
      [|left; quiet_events].
    destruct (bool_decide (normalizeToLF (old_string args) = _)); cbn;
      [left; quiet_events|].
    destruct (signal 2); cbn; [left; quiet_events|].
    destruct (fuzzyMatch _ _ _ _ _) as [e|[res strat]]; cbn;
      [left; quiet_events|].
    destruct (bool_decide (res = normalizeToLF raw)); cbn;
      [left; quiet_events|].
    right. split; [eauto|]. eexists _, [_; _]. split; [done|].
    split; [by rewrite <- !app_assoc|]. no_write.
Qed.

(** Every call of [code_apply_diff] is quiet, or returns after one write to
    its target. *)
Lemma execute_diff_effects (file_path diff : jsstring) (signal : nat -> bool)
    (w : world) :
  let r := execute_diff resolveToCwd cwd file_path diff signal w in
  quiet w (snd r)
  \/ ((exists text, fst r = Returned text)
      /\ wrote (resolveToCwd file_path cwd) w (snd r)).
Proof.
  unfold execute_diff, io_bind, check_aborted, access, readFile, writeFile,
    throw, io_ret, log.
  destruct (signal 0); cbn; [left; apply quiet_refl|].
  destruct (bool_decide (trim file_path = [])); cbn; [left; apply quiet_refl|].
  destruct (bool_decide (trim diff = [])); cbn; [left; apply quiet_refl|].
  destruct (bool_decide (is_Some _)); cbn; [|left; quiet_events].
  destruct (signal 1); cbn; [left; quiet_events|].
  destruct (parseDiffBlocks diff) as [err|blocks]; cbn; [left; quiet_events|].
  destruct (length blocks =? 0); cbn; [left; quiet_events|].
  rewrite <- !app_assoc.
  destruct (files w !! resolveToCwd file_path cwd) as [raw|]; cbn;
    [|left; quiet_events].
  destruct (signal 2); cbn; [left; quiet_events|].
  destruct (applyAllBlocks (normalizeToLF raw) blocks) as [newContentLF results].
  destruct (length (List.filter success results) =? 0); cbn;
    [left; quiet_events|].
  destruct (bool_decide (_ = raw)); cbn; [left; quiet_events|].
  right. split; [eauto|]. eexists _, [_; _]. split; [done|].
  split; [by rewrite <- !app_assoc|]. no_write.
Qed.



(** X3: neither tool ever changes a file other than its target: every other
    path holds after the call what it held before, whether the call
    succeeds or fails. *)
Theorem tools_touch_only_target (p : jsstring) :
  (forall args signal w,
     p <> resolveToCwd (file_path args) cwd ->
     files (snd (execute resolveToCwd dirname cwd args signal w)) !! p
     = files w !! p)
  /\ (forall file_path diff signal w,
        p <> resolveToCwd file_path cwd ->
        files (snd (execute_diff resolveToCwd cwd file_path diff signal w)) !! p
        = files w !! p).
Proof.
  split.
  - intros args signal w Hp.
    destruct (execute_effects args signal w)
      as [[Hf _]|[_ (c & ev & Hf & _)]]; rewrite Hf; [done|].
    by apply lookup_insert_ne.
  - intros file_path diff signal w Hp.
    destruct (execute_diff_effects file_path diff signal w)
      as [[Hf _]|[_ (c & ev & Hf & _)]]; rewrite Hf; [done|].
    by apply lookup_insert_ne.
Qed.

(** X4: cancellation.  A call of either tool whose signal is aborted on
    entry throws at once, before any file operation.  A call of
    [code_apply_diff], or of [code_edit] in edit mode, whose signal is
    aborted at one of its later checkpoints (after the access check, before
    the match or the splices) writes nothing and changes no file. *)
Theorem cancellation_never_writes (signal : nat -> bool) (w : world) :
  (signal 0 = true ->
     (forall args,
        execute resolveToCwd dirname cwd args signal w = (Thrown Aborted, w))
     /\ (forall file_path diff,
           execute_diff resolveToCwd cwd file_path diff signal w
           = (Thrown DiffAborted, w)))
  /\ (signal 1 = true \/ signal 2 = true ->
      (forall args,
         old_string args <> [] ->
         quiet w (snd (execute resolveToCwd dirname cwd args signal w)))
      /\ (forall file_path diff,
            quiet w (snd (execute_diff resolveToCwd cwd file_path diff signal w)))).
Proof.
  split.
  - intros H0. split; intros;
      unfold execute, execute_diff, io_bind, check_aborted, throw;
      by rewrite H0.
  - intros Hsig. split.
    + intros args Hold.
      unfold execute, io_bind, check_aborted, access, readFile, writeFile,
        mkdir, throw, io_ret, log.
      destruct (signal 0); cbn; [apply quiet_refl|].
      destruct (bool_decide (trim (file_path args) = [])); cbn;
        [apply quiet_refl|].
      rewrite (bool_decide_eq_false_2 _ Hold).
      destruct (bool_decide (is_Some _)); cbn; [|quiet_events].
      destruct (signal 1) eqn:H1; cbn; [quiet_events|].
      rewrite <- !app_assoc.
      destruct (files w !! resolveToCwd (file_path args) cwd) as [raw|]; cbn;
        [|quiet_events].
      destruct (bool_decide (normalizeToLF (old_string args) = _)); cbn;
        [quiet_events|].
      destruct (signal 2) eqn:H2; cbn; [quiet_events|].
      by destruct Hsig.
    + intros file_path diff.
      unfold execute_diff, io_bind, check_aborted, access, readFile, writeFile,
        throw, io_ret, log.
      destruct (signal 0); cbn; [apply quiet_refl|].
      destruct (bool_decide (trim file_path = [])); cbn; [apply quiet_refl|].
      destruct (bool_decide (trim diff = [])); cbn; [apply quiet_refl|].
      destruct (bool_decide (is_Some _)); cbn; [|quiet_events].
      destruct (signal 1) eqn:H1; cbn; [quiet_events|].
      destruct (parseDiffBlocks diff) as [err|blocks]; cbn; [quiet_events|].
      destruct (length blocks =? 0); cbn; [quiet_events|].
      rewrite <- !app_assoc.
      destruct (files w !! resolveToCwd file_path cwd) as [raw|]; cbn;
        [|quiet_events].
      destruct (signal 2) eqn:H2; cbn; [quiet_events|].
      by destruct Hsig.
Qed.

End ToolEffects.



Lemma tools_touch_only_target_witness :
  files (snd (execute resolve_plain dirname_plain (js "/w")
                (edit_args (js "a") (js "b") None) never_aborted
                (World {[ js "/w/f" := js "a"; js "/w/g" := js "a" ]} [])))
    !! js "/w/g"
  = Some (js "a").
Proof.
  destruct (tools_touch_only_target resolve_plain dirname_plain (js "/w")
              (js "/w/g")) as [Hedit _].
  rewrite Hedit; by vm_compute.
Defined.

Lemma cancellation_never_writes_witness :
  quiet (one_file (js "a"))
    (snd (execute resolve_plain dirname_plain (js "/w")
            (edit_args (js "a") (js "b") None)
            (fun k => Nat.eqb k 2) (one_file (js "a")))).
Proof.
  destruct (cancellation_never_writes resolve_plain dirname_plain (js "/w")
              (fun k => Nat.eqb k 2) (one_file (js "a"))) as [_ Hlater].
  destruct Hlater as [Hedit _]; [by right|]. by apply Hedit.
Defined.

(** ** The codec, composed *)

Lemma normalizeToLF_expandLF (s : jsstring) : normalizeToLF (expandLF s) = s.
Proof.
  induction s as [|c t IH]; [done|].
  rewrite expandLF_cons. destruct (N.eqb_spec c LF) as [->|Hc].
  - rewrite normalizeToLF_cons2. simpl. by rewrite IH.
  - destruct (expandLF t) as [|d u] eqn:Hu.
    + simpl. simpl in IH. by rewrite <- IH.
    + rewrite normalizeToLF_cons2.
      destruct (N.eqb_spec c CR) as [->|Hcr]; cbn [andb].
      * destruct (N.eqb_spec d LF) as [->|Hd]; [|by rewrite IH].
        (* an expanded text never starts with a line feed *)
        destruct t as [|e t']; [done|]. rewrite expandLF_cons in Hu.
        destruct (N.eqb_spec e LF); [done|]. injection Hu as -> _. done.
      * by rewrite IH.
Qed.

Lemma lf_only_in_crlf_expandLF (s : jsstring) : lf_only_in_crlf (expandLF s) = true.
Proof.
  induction s as [|c t IH]; [done|].
  rewrite expandLF_cons. destruct (N.eqb_spec c LF) as [->|Hc].
  - by rewrite lf_only_in_crlf_cons.
  - rewrite lf_only_in_crlf_cons.
    destruct (N.eqb_spec c LF); [done|].
    destruct (c =? CR)%N; [|done].
    destruct (expandLF t) as [|d u] eqn:Hu; [done|].
    destruct (N.eqb_spec d LF) as [->|Hd]; [|done].
    destruct t as [|e t']; [done|]. rewrite expandLF_cons in Hu.
    destruct (N.eqb_spec e LF); [done|]. injection Hu as -> _. done.
Qed.

(** X5: what a tool writes reads back as the content it computed:
    normalising the restored text gives the text again.  For a CRLF file
    this holds for every content, and the restored text has no line feed
    outside a CRLF pair; for an LF file it holds when the content has no
    CRLF pair (a replacement can bring a lone CR before a line feed). *)
Theorem written_content_reads_back (contentLF : jsstring) (eol : LineEnding) :
  (eol = EOL_LF -> includes contentLF CRLF = false) ->
  normalizeToLF (restoreLineEnding contentLF eol) = contentLF
  /\ (eol = EOL_CRLF -> lf_only_in_crlf (restoreLineEnding contentLF eol) = true).
Proof.
  intros Hlf. split.
  - destruct eol; simpl.
    + apply normalizeToLF_expandLF.
    + apply normalizeToLF_no_crlf. apply includes_false. by apply Hlf.
  - intros ->. apply lf_only_in_crlf_expandLF.
Qed.

Lemma written_content_reads_back_witness :
  normalizeToLF (restoreLineEnding (unlines ["a"; "b"; ""]%string) EOL_CRLF)
  = unlines ["a"; "b"; ""]%string
  /\ (EOL_CRLF = EOL_CRLF ->
      lf_only_in_crlf (restoreLineEnding (unlines ["a"; "b"; ""]%string) EOL_CRLF)
      = true).
Proof.
  apply (written_content_reads_back (unlines ["a"; "b"; ""]%string) EOL_CRLF).
  discriminate.
Defined.

Lemma normalizeToLF_no_CR (raw : jsstring) :
  cr_only_in_crlf raw = true -> CR ∉ normalizeToLF raw.
Proof.
  remember (length raw) as n eqn:Hn. revert raw Hn.
  induction n as [n IH] using lt_wf_ind. intros raw -> Hcr.
  destruct raw as [|c [|d t]].
  - simpl. apply not_elem_of_nil.
  - rewrite cr_only_in_crlf_cons in Hcr. simpl.
    destruct (N.eqb_spec c CR); [done|].
    intros [Heq|H]%elem_of_cons; [done|]. by apply elem_of_nil in H.
  - rewrite cr_only_in_crlf_cons in Hcr. rewrite normalizeToLF_cons2.
    destruct (N.eqb_spec c CR) as [->|Hc]; simpl.
    + apply andb_true_iff in Hcr as [Hd Ht]. rewrite Hd.
      intros [H|H]%elem_of_cons; [done|].
      by apply (IH (length t) ltac:(simpl; lia) t).
    + intros [H|H]%elem_of_cons; [done|].
      by apply (IH (length (d :: t)) ltac:(simpl; lia) (d :: t)).
Qed.

Lemma normalizeToLF_without_CR (s : jsstring) : CR ∉ s -> normalizeToLF s = s.
Proof.
  induction s as [|c t IH]; [done|]. intros Hnot.
  apply not_elem_of_cons in Hnot as [Hc Ht].
  destruct t as [|d u]; [done|]. rewrite normalizeToLF_cons2.
  destruct (N.eqb_spec c CR); [done|]. cbn [andb]. by rewrite IH.
Qed.

(** X6: when every CR of a file is the first half of a CRLF pair, its
    normalised content has no CR at all; it is then an LF text, and
    normalising it again changes nothing. *)
Theorem normalizeToLF_removes_CR (raw : jsstring) :
  cr_only_in_crlf raw = true ->
  (CR ∉ normalizeToLF raw)
  /\ detectLineEnding (normalizeToLF raw) = EOL_LF
  /\ normalizeToLF (normalizeToLF raw) = normalizeToLF raw.
Proof.
  intros Hcr. pose proof (normalizeToLF_no_CR raw Hcr) as Hno. split; [done|].
  split; [|by apply normalizeToLF_without_CR].
  unfold detectLineEnding.
  destruct (includes (normalizeToLF raw) CRLF) eqn:Hinc; [|done].
  apply includes_true in Hinc as [i Hi].
  apply index_in_Some in Hi as [(pre & suf & Heq & _) _].
  exfalso. apply Hno. rewrite Heq. apply elem_of_app. right. by left.
Qed.

Lemma normalizeToLF_removes_CR_witness :
  (CR ∉ normalizeToLF (js "a" ++ CRLF ++ js "b" ++ CRLF))
  /\ detectLineEnding (normalizeToLF (js "a" ++ CRLF ++ js "b" ++ CRLF)) = EOL_LF
  /\ normalizeToLF (normalizeToLF (js "a" ++ CRLF ++ js "b" ++ CRLF))
     = normalizeToLF (js "a" ++ CRLF ++ js "b" ++ CRLF).
Proof.
  apply (normalizeToLF_removes_CR (js "a" ++ CRLF ++ js "b" ++ CRLF)).
  by vm_compute.
Defined.

Lemma normalizeToLF_lines (s : jsstring) :
  newlines (normalizeToLF s) = newlines s /\ length (normalizeToLF s) <= length s.
Proof.
  remember (length s) as n eqn:Hn. revert s Hn.
  induction n as [n IH] using lt_wf_ind. intros s ->.
  destruct s as [|c [|d t]]; [done|done|].
  rewrite normalizeToLF_cons2.
  destruct (IH (length t) ltac:(simpl; lia) t eq_refl) as [H1 H2].
  destruct (IH (length (d :: t)) ltac:(simpl; lia) (d :: t) eq_refl) as [H3 H4].
  rewrite (newlines_cons c (d :: t)).
  destruct (N.eqb_spec c CR) as [->|Hc]; cbn [andb].
  - destruct (N.eqb_spec d LF) as [->|Hd].
    + rewrite !newlines_cons. cbn. rewrite H1. split; [done|cbn; lia].
    + rewrite newlines_cons. change (CR =? LF)%N with false. cbv iota.
      rewrite H3. split; [done|cbn in *; lia].
  - rewrite newlines_cons.
    destruct (c =? LF)%N; rewrite H3; (split; [done|cbn in *; lia]).
Qed.

Lemma newlines_expandLF (s : jsstring) : newlines (expandLF s) = newlines s.
Proof.
  induction s as [|c t IH]; [done|].
  rewrite expandLF_cons, newlines_cons. destruct (N.eqb_spec c LF) as [->|Hc].
  - rewrite (newlines_cons CR), (newlines_cons LF). cbn. by rewrite IH.
  - rewrite newlines_cons. by destruct (N.eqb_spec c LF).
Qed.

(** X7: the codec keeps the lines: the normalised text and the expanded
    text have as many lines as the text they come from (so that a line
    number means the same line before and after), and normalising never
    makes a text longer. *)
Theorem codec_keeps_line_count (s : jsstring) :
  length (split_lines (normalizeToLF s)) = length (split_lines s)
  /\ length (split_lines (expandLF s)) = length (split_lines s)
  /\ length (normalizeToLF s) <= length s.
Proof.
  rewrite !split_lines_length, newlines_expandLF.
  by destruct (normalizeToLF_lines s) as [-> ?].
Qed.

Section CodecEffects.
Variable resolveToCwd : jsstring -> jsstring -> jsstring.
Variable dirname : jsstring -> jsstring.
Variable cwd : jsstring.

(** X8: a file with CRLF line endings keeps them through both tools:
    whatever the call, the file afterwards is the file as it was or a text
    in which every line feed is the second half of a CRLF pair. *)
Theorem crlf_file_stays_crlf (w : world) (raw : jsstring) :
  includes raw CRLF = true ->
  (forall args signal c,
     files w !! resolveToCwd (file_path args) cwd = Some raw ->
     files (snd (execute resolveToCwd dirname cwd args signal w))
       !! resolveToCwd (file_path args) cwd = Some c ->
     c = raw \/ lf_only_in_crlf c = true)
  /\ (forall file_path diff signal c,
        files w !! resolveToCwd file_path cwd = Some raw ->
        files (snd (execute_diff resolveToCwd cwd file_path diff signal w))
          !! resolveToCwd file_path cwd = Some c ->
        c = raw \/ lf_only_in_crlf c = true).
Proof.
  intros Hinc.
  assert (Hwritten : forall p r c,
            <[p := restoreLineEnding r (detectLineEnding raw)]> (files w) !! p
            = Some c ->
            c = raw \/ lf_only_in_crlf c = true).
  { intros p r c. rewrite lookup_insert_eq. intros [= <-]. right.
    unfold detectLineEnding. rewrite Hinc. apply lf_only_in_crlf_expandLF. }
  split.
  - intros args signal c Hfile.
    unfold execute, io_bind, check_aborted, access, readFile, writeFile,
      mkdir, throw, io_ret.
    destruct (signal 0); cbn [fst snd]; [file_kept Hfile|].
    destruct (bool_decide (trim (file_path args) = [])); [file_kept Hfile|].
    destruct (bool_decide (old_string args = []));
      cbn [files log]; rewrite Hfile;
      rewrite (bool_decide_eq_true_2 (is_Some (Some raw))) by eauto;
      [file_kept Hfile|].
    cbn [negb].
    destruct (signal 1); [file_kept Hfile|].
    cbn [files log]. rewrite Hfile.
    destruct (bool_decide (normalizeToLF (old_string args) = _));
      [file_kept Hfile|].
    destruct (signal 2); [file_kept Hfile|].
    destruct (fuzzyMatch _ _ _ _ _) as [e|[r strategy]]; [file_kept Hfile|].
    destruct (bool_decide (r = _)); [file_kept Hfile|].
    cbn [snd files]. apply Hwritten.
  - intros file_path diff signal c Hfile.
    unfold execute_diff, io_bind, check_aborted, access, readFile, writeFile,
      throw, io_ret.
    destruct (signal 0); cbn [fst snd]; [file_kept Hfile|].
    destruct (bool_decide (trim file_path = [])); [file_kept Hfile|].
    destruct (bool_decide (trim diff = [])); [file_kept Hfile|].
    cbn [files log]. rewrite Hfile.
    rewrite (bool_decide_eq_true_2 (is_Some (Some raw))) by eauto.
    cbn [negb].
    destruct (signal 1); [file_kept Hfile|].
    destruct (parseDiffBlocks diff) as [err|blocks]; [file_kept Hfile|].
    destruct (length blocks =? 0); [file_kept Hfile|].
    cbn [files log]. rewrite Hfile.
    destruct (signal 2); [file_kept Hfile|].
    destruct (applyAllBlocks _ blocks) as [newContentLF results].
    destruct (_ =? 0); [file_kept Hfile|].
    destruct (bool_decide (_ = raw)); [file_kept Hfile|].
    cbn [snd files]. apply Hwritten.
Qed.

End CodecEffects.

Lemma crlf_file_stays_crlf_witness :
  let raw := js "a" ++ CRLF ++ js "b" ++ CRLF in
  let c := js "a" ++ CRLF ++ js "c" ++ CRLF ++ js "d" ++ CRLF in
  c = raw \/ lf_only_in_crlf c = true.
Proof.
  intros raw c.
  destruct (crlf_file_stays_crlf resolve_plain dirname_plain (js "/w")
              (one_file raw) raw) as [Hedit _]; [by vm_compute|].
  apply (Hedit (edit_args (js "b") (unlines ["c"; "d"]%string) None)
           never_aborted c); by vm_compute.
Defined.

(** ** Counting and replacing *)

Lemma countOccurrences_ReplacedAll (str sub : jsstring) :
  sub <> [] -> exists r, ReplacedAll sub [] (countOccurrences str sub) str r.
Proof.
  intros Hsub. exists (replaceAll str sub []). by apply replaceAll_spec.
Qed.

Lemma ReplacedAll_none (old new : jsstring) (n : nat) (s r : jsstring) :
  ReplacedAll old new n s r -> (n = 0 <-> no_occurrence old s).
Proof.
  intros H. destruct H as [s Hno|n pre suf r [Hocc _] _].
  - done.
  - split; [done|]. intros Hno. by destruct (Hno _ Hocc).
Qed.

Lemma ReplacedAll_same (old : jsstring) (n : nat) (s r : jsstring) :
  ReplacedAll old old n s r -> r = s.
Proof. induction 1 as [|n pre suf r _ _ IH]; [done|]. by rewrite IH. Qed.

(** X9: [countOccurrences] counts occurrences that do not overlap: the
    count times the length of the text searched for never exceeds the
    length of the content.  The empty text counts zero, and a text that is
    not empty counts zero exactly when it occurs nowhere. *)
Theorem countOccurrences_bounds (str sub : jsstring) :
  countOccurrences str [] = 0
  /\ countOccurrences str sub * length sub <= length str
  /\ (sub <> [] -> (countOccurrences str sub = 0 <-> no_occurrence sub str)).
Proof.
  split; [done|].
  destruct (decide (sub = [])) as [->|Hsub]; [split; [simpl; lia|done]|].
  destruct (countOccurrences_ReplacedAll str sub Hsub) as [r Hr].
  split.
  - apply ReplacedAll_length in Hr. simpl in Hr. lia.
  - intros _. by apply (ReplacedAll_none _ _ _ _ _ Hr).
Qed.

Lemma countOccurrences_bounds_witness :
  countOccurrences (js "aaa") [] = 0
  /\ countOccurrences (js "aaa") (js "aa") * length (js "aa") <= length (js "aaa")
  /\ (js "aa" <> [] ->
      (countOccurrences (js "aaa") (js "aa") = 0 <-> no_occurrence (js "aa") (js "aaa"))).
Proof. apply (countOccurrences_bounds (js "aaa") (js "aa")). Defined.

(** X10: [safeLiteralReplace] replacing a text by itself, replacing the
    empty text, or replacing a text that does not occur returns the content
    unchanged; in general every occurrence counted changes the length by the
    difference of the two lengths. *)
Theorem safeLiteralReplace_laws (str old new : jsstring) :
  safeLiteralReplace str old old = str
  /\ safeLiteralReplace str [] new = str
  /\ length (safeLiteralReplace str old new) + countOccurrences str old * length old
     = length str + countOccurrences str old * length new
  /\ (countOccurrences str old = 0 -> safeLiteralReplace str old new = str).
Proof.
  destruct (decide (old = [])) as [->|Hold]; [done|].
  pose proof (safeLiteralReplace_spec str old old Hold) as Hsame.
  pose proof (safeLiteralReplace_spec str old new Hold) as Hnew.
  split; [by apply (ReplacedAll_same _ _ _ _ Hsame)|]. split; [done|].
  split; [by apply ReplacedAll_length|].
  intros H0. rewrite H0 in Hnew. inversion Hnew; congruence.
Qed.

Lemma safeLiteralReplace_laws_witness :
  safeLiteralReplace (js "abc") (js "x") (js "$&") = js "abc".
Proof.
  destruct (safeLiteralReplace_laws (js "abc") (js "x") (js "$&"))
    as (_ & _ & _ & Hnone).
  apply Hnone. by vm_compute.
Defined.

(** ** The strategies compared *)

Lemma match_here_chars (sub s : jsstring) :
  match_here (map RChar sub) s = if startsWith s sub then Some (length sub) else None.
Proof.
  revert s; induction sub as [|a sub IH]; intros s; [done|].
  destruct s as [|b s]; [done|]. simpl.
  destruct (N.eqb_spec a b) as [->|Hne]; [|done].
  rewrite IH. by destruct (startsWith s sub).
Qed.

Lemma search_from_chars (sub s : jsstring) (k : nat) :
  search_from (map RChar sub) s k
  = (fun i => (k + i, length sub)) <$> index_in sub s.
Proof.
  revert k; induction s as [|c t IH]; intros k.
  - simpl. rewrite match_here_chars.
    destruct (startsWith [] sub); simpl; [by rewrite Nat.add_0_r|done].
  - rewrite index_in_cons. cbn [search_from]. rewrite match_here_chars.
    destruct (startsWith (c :: t) sub); simpl; [by rewrite Nat.add_0_r|].
    rewrite IH. destruct (index_in sub t); simpl; [|done].
    do 2 f_equal. lia.
Qed.

Lemma regexp_exec_chars (sub s : jsstring) (lastIndex : nat) :
  regexp_exec (RSeq (map RChar sub)) s lastIndex
  = (fun i => (i, length sub)) <$> StringIndexOf s sub lastIndex.
Proof.
  unfold regexp_exec, StringIndexOf.
  destruct (decide (lastIndex <= length s)); [|done].
  rewrite search_from_chars. by destruct (index_in sub (drop lastIndex s)).
Qed.

Lemma matchAllLoop_chars (fuel : nat) (sub s : jsstring) (lastIndex : nat) :
  sub <> [] ->
  fst <$> matchAllLoop fuel (RSeq (map RChar sub)) s lastIndex
  = replaceAllPositions fuel s sub (StringIndexOf s sub lastIndex).
Proof.
  intros Hsub. revert lastIndex; induction fuel as [|f IH]; intros lastIndex.
  - simpl. by destruct (StringIndexOf s sub lastIndex).
  - cbn [matchAllLoop replaceAllPositions]. rewrite regexp_exec_chars.
    destruct (StringIndexOf s sub lastIndex) as [p|]; [|done].
    cbn [fmap option_fmap option_map]. rewrite fmap_cons. cbn [fst]. f_equal.
    assert (Hlen : 0 < length sub) by (destruct sub; [done|simpl; lia]).
    destruct (Nat.eqb_spec (length sub) 0); [lia|].
    rewrite IH. do 2 f_equal. lia.
Qed.

Lemma countRegexMatches_chars (content sub : jsstring) :
  sub <> [] ->
  countRegexMatches content (RSeq (map RChar sub)) = countOccurrences content sub.
Proof.
  intros Hsub. unfold countRegexMatches, matchAll.
  rewrite <- (length_fmap fst), matchAllLoop_chars by done.
  rewrite <- (countLoop_fuel (S (S (length content)))) by (done || lia).
  rewrite countLoop_positions by done.
  rewrite <- indexOf_StringIndexOf by done. done.
Qed.

Lemma wsParts_cons (c : N) (t : jsstring) :
  wsParts (c :: t) =
    match wsParts t with
    | (d :: p) :: ps =>
        if Bool.eqb (is_space c) (is_space d) then (c :: d :: p) :: ps
        else [c] :: (d :: p) :: ps
    | _ => [[c]]
    end.
Proof. done. Qed.

Lemma wsParts_solid (s : jsstring) : s <> [] -> solid s = true -> wsParts s = [s].
Proof.
  induction s as [|c t IH]; [done|]. intros _ Hs.
  apply andb_true_iff in Hs as [Hc Ht].
  destruct t as [|d u]; [done|].
  specialize (IH ltac:(done) Ht). rewrite wsParts_cons, IH.
  apply andb_true_iff in Ht as [Hd _].
  apply negb_true_iff in Hc, Hd. by rewrite Hc, Hd.
Qed.

Lemma split_spaces_solid (s : jsstring) :
  solid s = true -> split_spaces_from false s = [s].
Proof.
  induction s as [|c t IH]; [done|]. intros Hs.
  apply andb_true_iff in Hs as [Hc Ht]. apply negb_true_iff in Hc.
  cbn [split_spaces_from]. by rewrite Hc, IH.
Qed.

Lemma solid_patterns (s : jsstring) :
  s <> [] -> solid s = true ->
  buildWhitespaceTolerantRegex s = RSeq (map RChar s)
  /\ buildTokenRegex s = RSeq (map RChar s).
Proof.
  intros Hne Hs. split.
  - unfold buildWhitespaceTolerantRegex. destruct (decide (s = [])); [done|].
    rewrite wsParts_solid by done. cbn [flat_map]. rewrite app_nil_r.
    unfold wsPartPattern, all_space.
    destruct s as [|c t]; [done|].
    apply andb_true_iff in Hs as [Hc _]. apply negb_true_iff in Hc.
    cbn [forallb]. by rewrite Hc.
  - unfold buildTokenRegex, split_spaces. rewrite split_spaces_solid by done.
    destruct s as [|c t]; [done|]. done.
Qed.

(** X11: for a text without white space the three strategies of
    [code_edit] are one: both patterns built from it match exactly its literal
    occurrences, so both relaxed counts equal the exact count, and the match
    either succeeds as an exact one or fails with no match or with the exact
    count mismatch; the relaxed strategies never decide. *)
Theorem solid_text_strategies_agree
    (file_path contentLF oldLF newLF : jsstring) (expectedCount : Z) :
  oldLF <> [] -> solid oldLF = true ->
  countRegexMatches contentLF (buildWhitespaceTolerantRegex oldLF)
  = countOccurrences contentLF oldLF
  /\ countRegexMatches contentLF (buildTokenRegex oldLF)
     = countOccurrences contentLF oldLF
  /\ (fuzzyMatch file_path contentLF oldLF newLF expectedCount
      = inr (safeLiteralReplace contentLF oldLF newLF, Exact)
      \/ fuzzyMatch file_path contentLF oldLF newLF expectedCount
         = inl (NoMatchFound file_path)
      \/ fuzzyMatch file_path contentLF oldLF newLF expectedCount
         = inl (CountMismatchExact file_path expectedCount
                  (countOccurrences contentLF oldLF))).
Proof.
  intros Hne Hs. destruct (solid_patterns oldLF Hne Hs) as [Hws Htok].
  assert (Hc := countRegexMatches_chars contentLF oldLF Hne).
  rewrite Hws, Htok. split; [done|]. split; [done|].
  unfold fuzzyMatch, fuzzyMatchWith. rewrite Hws, Htok, Hc.
  destruct (bool_decide (Z.of_nat (countOccurrences contentLF oldLF) = expectedCount));
    [by left|].
  rewrite !orb_diag.
  destruct (0 <? countOccurrences contentLF oldLF); simpl; [by right; right|by right; left].
Qed.

Lemma solid_text_strategies_agree_witness :
  countRegexMatches (js "foo(); foo();") (buildWhitespaceTolerantRegex (js "foo();"))
  = countOccurrences (js "foo(); foo();") (js "foo();")
  /\ countRegexMatches (js "foo(); foo();") (buildTokenRegex (js "foo();"))
     = countOccurrences (js "foo(); foo();") (js "foo();").
Proof.
  destruct (solid_text_strategies_agree (js "f") (js "foo(); foo();")
              (js "foo();") (js "bar();") 1) as (Hws & Htok & _);
    [done|by vm_compute|].
  by split.
Defined.

Lemma wsParts_head (s : jsstring) (ps : list jsstring) : wsParts s <> [] :: ps.
Proof.
  destruct s as [|c t]; [done|]. rewrite wsParts_cons.
  destruct (wsParts t) as [|[|d p] qs]; [done|done|].
  by destruct (Bool.eqb _ _).
Qed.

Lemma wsParts_concat (s : jsstring) : concat (wsParts s) = s.
Proof.
  induction s as [|c t IH]; [done|]. rewrite wsParts_cons.
  pose proof (wsParts_head t) as Hhead.
  destruct (wsParts t) as [|[|d p] qs].
  - by rewrite <- IH.
  - by destruct (Hhead qs).
  - rewrite <- IH. by destruct (Bool.eqb _ _).
Qed.

Lemma Matches_chars (p : jsstring) : Matches (map RChar p) p.
Proof. induction p; [constructor|by constructor]. Qed.

Lemma Matches_app (a1 a2 : list ratom) (t1 t2 : jsstring) :
  Matches a1 t1 -> Matches a2 t2 -> Matches (a1 ++ a2) (t1 ++ t2).
Proof.
  intros H1 H2. induction H1 as [|c rest t _ IH|run rest t Hne Hall _ IH
                                 |run rest t Hne Hall _ IH]; simpl.
  - done.
  - by constructor.
  - rewrite <- app_assoc. by constructor.
  - rewrite <- app_assoc. by constructor.
Qed.

Lemma part_matches (p : jsstring) :
  plain_spaces p = true -> Matches (wsPartPattern p) p.
Proof.
  intros Hp. unfold wsPartPattern.
  destruct (all_space p) eqn:Hall; [|apply Matches_chars].
  assert (Hne : p <> []) by (by destruct p).
  assert (Hsp : forallb is_space p = true) by (by destruct p).
  rewrite <- (app_nil_r p) at 2.
  destruct (includes p [LF]) eqn:Hinc.
  - constructor; [done|done|constructor].
  - constructor; [done| |constructor].
    assert (Hno : LF ∉ p).
    { intros Hin. apply includes_singleton in Hin. congruence. }
    apply forallb_forall. intros c Hc.
    unfold plain_spaces in Hp. rewrite forallb_forall in Hsp, Hp. specialize (Hsp c Hc). specialize (Hp c Hc).
    rewrite Hsp in Hp. simpl in Hp.
    apply orb_true_iff in Hp as [Hb|Hlf]; [done|].
    apply N.eqb_eq in Hlf as ->. exfalso. apply Hno. by apply list_elem_of_In.
Qed.

Lemma parts_match (parts : list jsstring) :
  plain_spaces (concat parts) = true ->
  Matches (flat_map wsPartPattern parts) (concat parts).
Proof.
  induction parts as [|p ps IH]; simpl; [constructor|].
  unfold plain_spaces. rewrite forallb_app. intros [Hp Hps]%andb_true_iff.
  apply Matches_app; [by apply part_matches|by apply IH].
Qed.

Lemma search_from_finds (atoms : list ratom) (s : jsstring) (i k : nat) :
  i <= length s -> is_Some (match_here atoms (drop i s)) ->
  exists j n, search_from atoms s k = Some (k + j, n) /\ j <= i.
Proof.
  revert i k; induction s as [|c t IH]; intros i k Hi Hm.
  - simpl in Hi. assert (i = 0) as -> by lia. destruct Hm as [n Hn].
    exists 0, n. simpl in *. rewrite Hn. by rewrite Nat.add_0_r.
  - cbn [search_from]. destruct (match_here atoms (c :: t)) as [n|] eqn:Hhere.
    + exists 0, n. rewrite Nat.add_0_r. split; [done|lia].
    + destruct i as [|i]; [simpl in Hm; rewrite Hhere in Hm; by destruct Hm|].
      destruct (IH i (S k) ltac:(simpl in Hi; lia) Hm) as (j & n & Hs & Hj).
      exists (S j), n. rewrite Hs. split; [do 2 f_equal; lia|lia].
Qed.

(** X12: the whitespace-tolerant pattern relaxes the exact search when
    the white space of the text is made of tabs, blanks and line feeds: where
    the text occurs literally in the content, the pattern built from it finds
    a match at that place or before it, and so counts at least one match. *)
Theorem whitespace_tolerant_relaxes_exact (content s : jsstring) (i : nat) :
  s <> [] -> plain_spaces s = true -> occurs_at s content i ->
  (exists j n,
     regexp_exec (buildWhitespaceTolerantRegex s) content 0 = Some (j, n)
     /\ j <= i)
  /\ 0 < countRegexMatches content (buildWhitespaceTolerantRegex s).
Proof.
  intros Hne Hplain (pre & suf & -> & <-).
  unfold buildWhitespaceTolerantRegex. destruct (decide (s = [])); [done|].
  assert (Hm : Matches (flat_map wsPartPattern (wsParts s)) s).
  { rewrite <- (wsParts_concat s) at 2. apply parts_match.
    by rewrite wsParts_concat. }
  assert (Hexec : exists j n,
            regexp_exec (RSeq (flat_map wsPartPattern (wsParts s)))
              (pre ++ s ++ suf) 0 = Some (j, n) /\ j <= length pre).
  { unfold regexp_exec. destruct (decide (0 <= length (pre ++ s ++ suf))); [|lia].
    rewrite drop_0.
    apply (search_from_finds _ _ (length pre) 0).
    - rewrite length_app. lia.
    - rewrite drop_app_length. by apply match_here_complete. }
  split; [done|].
  destruct Hexec as (j & len & Hexec & _).
  unfold countRegexMatches, matchAll. cbn [matchAllLoop]. rewrite Hexec.
  simpl. lia.
Qed.

Lemma whitespace_tolerant_relaxes_exact_witness :
  let s := unlines ["if (x) {"; "  y();"]%string in
  let content := unlines ["a"; "if (x) {"; "  y();"; "}"]%string in
  (exists j n,
     regexp_exec (buildWhitespaceTolerantRegex s) content 0 = Some (j, n)
     /\ j <= 2)
  /\ 0 < countRegexMatches content (buildWhitespaceTolerantRegex s).
Proof.
  intros s content.
  apply (whitespace_tolerant_relaxes_exact content s 2); [done|by vm_compute|].
  exists (js "a" ++ [LF]), ([LF] ++ js "}"). by vm_compute.
Defined.

(** Without the hypothesis on the white space the pattern built from a text
    may miss the text itself: a no-break space between two words makes a
    [[\t ]+] that does not match it. *)
Lemma whitespace_tolerant_misses_own_text :
  let s := js "a" ++ [160%N] ++ js "b" in
  countOccurrences s s = 1
  /\ regexp_exec (buildWhitespaceTolerantRegex s) s 0 = None.
Proof. split; by vm_compute. Qed.

(** ** Parsing a diff *)

Lemma takeWhile_Forall {A} (p : A -> bool) (l : list A) :
  Forall (fun x => p x = true) (takeWhile p l).
Proof.
  induction l as [|x t IH]; simpl; [constructor|].
  destruct (p x) eqn:Hx; by constructor.
Qed.

Lemma takeWhile_length {A} (p : A -> bool) (l : list A) :
  length (takeWhile p l) <= length l.
Proof. induction l as [|x t IH]; simpl; [lia|]. destruct (p x); simpl; lia. Qed.

Lemma takeWhile_stop {A} (p : A -> bool) (l : list A) (x : A) :
  l !! length (takeWhile p l) = Some x -> p x = false.
Proof.
  induction l as [|y t IH]; simpl; [done|].
  destruct (p y) eqn:Hy; simpl; [done|]. by intros [= <-].
Qed.

Lemma takeWhile_all {A} (p : A -> bool) (l : list A) :
  length l <= length (takeWhile p l) -> Forall (fun x => p x = true) l.
Proof.
  induction l as [|y t IH]; simpl; [constructor|].
  destruct (p y) eqn:Hy; simpl; [|lia]. intros H. constructor; [done|]. apply IH. lia.
Qed.


(** One round of [parseLoop] on a line that opens a block. *)
Lemma parseLoop_marker (f : nat) (lines : list jsstring) (i : nat)
    (blocks : list DiffBlock) (line : jsstring) :
  lines !! i = Some line -> is_not_marker SEARCH_MARKER line = false ->
  exists i3 hint,
    i < i3 /\ i3 <= i + 3 /\
    let searchLines := takeWhile (is_not_marker SEPARATOR_MARKER) (drop i3 lines) in
    let i4 := i3 + length searchLines in
    let replaceLines :=
      takeWhile (is_not_marker REPLACE_MARKER) (drop (S i4) lines) in
    let i6 := S i4 + length replaceLines in
    parseLoop (S f) lines i blocks =
      if bool_decide (length lines <= i4) then inl (MissingSeparator (i + 1))
      else if bool_decide (length lines <= i6) then inl (MissingReplace (i + 1))
      else parseLoop f lines (S i6)
             (blocks ++ [{| startLine := hint;
                            searchContent := join [LF] searchLines;
                            replaceContent := join [LF] replaceLines;
                            rawBlock := join [LF] (slice lines i (S i6)) |}]).
Proof.
  intros Hi Hm. cbn [parseLoop]. rewrite Hi, Hm.
  destruct (match lines !! S i with
            | Some l => match matchStartLine (trim l) with
                        | Some n => (Some n, S (S i))
                        | None => (None, S i)
                        end
            | None => (None, S i)
            end) as [hint i2] eqn:E2.
  assert (Hi2 : i < i2 /\ i2 <= i + 2).
  { destruct (lines !! S i) as [l|]; [|injection E2; lia].
    destruct (matchStartLine (trim l)); injection E2; lia. }
  set (i3 := match lines !! i2 with
             | Some l => if bool_decide (trim l = DIVIDER_MARKER) then S i2 else i2
             | None => i2
             end).
  assert (Hi3 : i2 <= i3 /\ i3 <= S i2).
  { unfold i3. destruct (lines !! i2) as [l|]; [|lia].
    destruct (bool_decide _); lia. }
  exists i3, hint. split; [lia|]. split; [lia|]. done.
Qed.

Lemma parseLoop_skip (f : nat) (lines : list jsstring) (i : nat)
    (blocks : list DiffBlock) (line : jsstring) :
  lines !! i = Some line -> is_not_marker SEARCH_MARKER line = true ->
  parseLoop (S f) lines i blocks = parseLoop f lines (S i) blocks.
Proof. intros Hi Hm. cbn [parseLoop]. by rewrite Hi, Hm. Qed.

Lemma parseLoop_end (f : nat) (lines : list jsstring) (i : nat)
    (blocks : list DiffBlock) :
  lines !! i = None -> parseLoop f lines i blocks = inr blocks.
Proof. intros Hi. destruct f; [done|]. cbn [parseLoop]. by rewrite Hi. Qed.

Lemma parseLoop_grows (fuel : nat) (lines : list jsstring) (i : nat)
    (blocks bs : list DiffBlock) :
  parseLoop fuel lines i blocks = inr bs -> length blocks <= length bs.
Proof.
  revert i blocks; induction fuel as [|f IH]; intros i blocks.
  - simpl. by intros [= <-].
  - destruct (lines !! i) as [line|] eqn:Hi;
      [|rewrite parseLoop_end by done; by intros [= <-]].
    destruct (is_not_marker SEARCH_MARKER line) eqn:Hm.
    + rewrite (parseLoop_skip _ _ _ _ _ Hi Hm). apply IH.
    + destruct (parseLoop_marker f lines i blocks line Hi Hm)
        as (i3 & hint & _ & _ & ->).
      destruct (bool_decide _); [done|]. destruct (bool_decide _); [done|].
      intros H%IH. rewrite length_app in H. simpl in H. lia.
Qed.

Lemma parseLoop_no_marker (fuel : nat) (lines : list jsstring) (i : nat)
    (blocks : list DiffBlock) :
  (forall j l, i <= j -> lines !! j = Some l ->
     is_not_marker SEARCH_MARKER l = true) ->
  parseLoop fuel lines i blocks = inr blocks.
Proof.
  revert i; induction fuel as [|f IH]; intros i Hall; [done|].
  destruct (lines !! i) as [line|] eqn:Hi; [|by apply parseLoop_end].
  rewrite (parseLoop_skip _ _ _ _ _ Hi (Hall i line ltac:(lia) Hi)).
  apply IH. intros j l Hj. apply Hall. lia.
Qed.

Lemma parseLoop_nothing (fuel : nat) (lines : list jsstring) (i : nat) :
  length lines - i < fuel ->
  parseLoop fuel lines i [] = inr [] ->
  forall j l, i <= j -> lines !! j = Some l ->
    is_not_marker SEARCH_MARKER l = true.
Proof.
  revert i; induction fuel as [|f IH]; intros i Hf Hrun j l Hj Hl; [lia|].
  destruct (lines !! i) as [line|] eqn:Hi.
  - destruct (is_not_marker SEARCH_MARKER line) eqn:Hm.
    + rewrite (parseLoop_skip _ _ _ _ _ Hi Hm) in Hrun.
      destruct (decide (j = i)) as [->|Hne]; [congruence|].
      apply lookup_lt_Some in Hi.
      apply (IH (S i) ltac:(lia) Hrun j l ltac:(lia) Hl).
    + destruct (parseLoop_marker f lines i [] line Hi Hm)
        as (i3 & hint & _ & _ & Heq).
      rewrite Heq in Hrun.
      destruct (bool_decide _); [done|]. destruct (bool_decide _); [done|].
      apply parseLoop_grows in Hrun. simpl in Hrun. lia.
  - apply lookup_ge_None in Hi. apply lookup_lt_Some in Hl. lia.
Qed.

(** X13: a diff parses to no block at all exactly when none of its lines
    is, once trimmed, the SEARCH marker; every other text, well formed or
    not, is skipped without an error. *)
Theorem no_block_iff_no_search_marker (diff : jsstring) :
  parseDiffBlocks diff = inr []
  <-> Forall (fun line => trim line <> SEARCH_MARKER) (split_lines diff).
Proof.
  unfold parseDiffBlocks. split.
  - intros Hrun. apply Forall_lookup. intros j l Hl.
    pose proof (parseLoop_nothing (S (length (split_lines diff))) (split_lines diff)
                  0 ltac:(lia) Hrun j l ltac:(lia) Hl) as H.
    by apply bool_decide_eq_true in H.
  - intros Hall. apply parseLoop_no_marker. intros j l _ Hl.
    apply bool_decide_eq_true. by apply (Forall_lookup_1 _ _ _ _ Hall Hl).
Qed.

Lemma parseLoop_error (fuel : nat) (lines : list jsstring) (i : nat)
    (blocks : list DiffBlock) (e : ParseError) :
  parseLoop fuel lines i blocks = inl e ->
  exists k marker,
    i <= k /\ lines !! k = Some marker /\ trim marker = SEARCH_MARKER
    /\ ((e = MissingSeparator (k + 1)
         /\ forall j l, k + 3 <= j -> lines !! j = Some l ->
              trim l <> SEPARATOR_MARKER)
        \/ (e = MissingReplace (k + 1)
            /\ exists s sep,
                 k < s /\ lines !! s = Some sep /\ trim sep = SEPARATOR_MARKER
                 /\ forall j l, s < j -> lines !! j = Some l ->
                      trim l <> REPLACE_MARKER)).
Proof.
  revert i blocks; induction fuel as [|f IH]; intros i blocks; [done|].
  destruct (lines !! i) as [line|] eqn:Hi; [|by rewrite parseLoop_end].
  destruct (is_not_marker SEARCH_MARKER line) eqn:Hm.
  - rewrite (parseLoop_skip _ _ _ _ _ Hi Hm). intros H%IH.
    destruct H as (k & marker & Hk & H). exists k, marker. split; [lia|done].
  - destruct (parseLoop_marker f lines i blocks line Hi Hm)
      as (i3 & hint & Hlo & Hhi & ->). cbv zeta.
    set (searchLines := takeWhile (is_not_marker SEPARATOR_MARKER) (drop i3 lines)).
    set (i4 := i3 + length searchLines).
    set (replaceLines := takeWhile (is_not_marker REPLACE_MARKER) (drop (S i4) lines)).
    assert (Hmarker : trim line = SEARCH_MARKER).
    { apply bool_decide_eq_false in Hm. by destruct (decide (trim line = SEARCH_MARKER)). }
    destruct (bool_decide (length lines <= i4)) eqn:E4.
    { intros [= <-]. exists i, line. split; [lia|]. split; [done|]. split; [done|].
      left. split; [done|]. intros j l Hj Hl.
      apply bool_decide_eq_true in E4.
      assert (Hall : Forall (fun x => is_not_marker SEPARATOR_MARKER x = true)
                       (drop i3 lines)).
      { apply takeWhile_all. rewrite length_drop. fold searchLines. lia. }
      assert (Hd : drop i3 lines !! (j - i3) = Some l).
      { rewrite lookup_drop. rewrite <- Hl. f_equal. lia. }
      pose proof (Forall_lookup_1 _ _ _ _ Hall Hd) as H.
      by apply bool_decide_eq_true in H. }
    apply bool_decide_eq_false in E4.
    destruct (bool_decide (length lines <= S i4 + length replaceLines)) eqn:E6.
    { intros [= <-]. exists i, line. split; [lia|]. split; [done|]. split; [done|].
      right. split; [done|].
      destruct (lines !! i4) as [sep|] eqn:Hsep;
        [|apply lookup_ge_None in Hsep; lia].
      exists i4, sep. split; [lia|]. split; [done|].
      assert (Hstop : is_not_marker SEPARATOR_MARKER sep = false).
      { apply (takeWhile_stop _ (drop i3 lines)). fold searchLines.
        rewrite lookup_drop. exact Hsep. }
      split.
      { apply bool_decide_eq_false in Hstop.
        by destruct (decide (trim sep = SEPARATOR_MARKER)). }
      intros j l Hj Hl. apply bool_decide_eq_true in E6.
      assert (Hall : Forall (fun x => is_not_marker REPLACE_MARKER x = true)
                       (drop (S i4) lines)).
      { apply takeWhile_all. rewrite length_drop. fold replaceLines. lia. }
      assert (Hd : drop (S i4) lines !! (j - S i4) = Some l).
      { rewrite lookup_drop. rewrite <- Hl. f_equal. lia. }
      pose proof (Forall_lookup_1 _ _ _ _ Hall Hd) as H.
      by apply bool_decide_eq_true in H. }
    intros H%IH. destruct H as (k & marker & Hk & H).
    exists k, marker. split; [lia|done].
Qed.

(** X14: a parse error names the block at fault: the line number it
    reports is that of a line that is the SEARCH marker.  When the separator
    is reported missing, no line from the third after the marker on is the
    separator; when the REPLACE marker is reported missing, the block has
    its separator line and no line after that is the REPLACE marker. *)
Theorem parse_error_names_the_block (diff : jsstring) (e : ParseError) :
  parseDiffBlocks diff = inl e ->
  exists k marker,
    split_lines diff !! k = Some marker /\ trim marker = SEARCH_MARKER
    /\ ((e = MissingSeparator (k + 1)
         /\ forall j l, k + 3 <= j -> split_lines diff !! j = Some l ->
              trim l <> SEPARATOR_MARKER)
        \/ (e = MissingReplace (k + 1)
            /\ exists s sep,
                 k < s /\ split_lines diff !! s = Some sep
                 /\ trim sep = SEPARATOR_MARKER
                 /\ forall j l, s < j -> split_lines diff !! j = Some l ->
                      trim l <> REPLACE_MARKER)).
Proof.
  unfold parseDiffBlocks. intros H%parseLoop_error.
  destruct H as (k & marker & _ & H). by exists k, marker.
Qed.

Lemma no_block_iff_no_search_marker_witness :
  parseDiffBlocks (unlines ["some text"; "======="; ">>>>>>> REPLACE"]%string)
  = inr [].
Proof.
  apply no_block_iff_no_search_marker. repeat constructor; by vm_compute.
Defined.

Lemma parse_error_names_the_block_witness :
  let diff := unlines ["intro"; "<<<<<<< SEARCH"; "a"; "======="; "b"]%string in
  exists k marker,
    split_lines diff !! k = Some marker /\ trim marker = SEARCH_MARKER
    /\ ((MissingReplace 2 = MissingSeparator (k + 1)
         /\ forall j l, k + 3 <= j -> split_lines diff !! j = Some l ->
              trim l <> SEPARATOR_MARKER)
        \/ (MissingReplace 2 = MissingReplace (k + 1)
            /\ exists s sep,
                 k < s /\ split_lines diff !! s = Some sep
                 /\ trim sep = SEPARATOR_MARKER
                 /\ forall j l, s < j -> split_lines diff !! j = Some l ->
                      trim l <> REPLACE_MARKER)).
Proof.
  intros diff. apply (parse_error_names_the_block diff (MissingReplace 2)).
  by vm_compute.
Defined.






















(** ** Locating and applying hunks *)

(** The three strategies of [findSearchContent], one after the other. *)
Lemma findSearchContent_cases (c s : jsstring) (h : option nat) :
  s <> [] ->
  findSearchContent c s h =
    match
      match h with
      | Some h =>
          if 0 <? h then
            match index_in s (windowContent c h) with
            | Some localIdx =>
                Some (prefixLength c h + localIdx,
                      lineOfIndex c (prefixLength c h + localIdx))
            | None => None
            end
          else None
      | None => None
      end
    with
    | Some found => Some found
    | None =>
        match index_in s c with
        | Some idx => Some (idx, lineOfIndex c idx)
        | None =>
            match regexp_exec (buildWhitespaceTolerantRegex s) c 0 with
            | Some (idx, _) => Some (idx, lineOfIndex c idx)
            | None => None
            end
        end
    end.
Proof.
  intros Hne. unfold findSearchContent, buildWhitespaceTolerantRegex.
  rewrite !indexOf_0. destruct (decide (s = [])); [done|].
  pose proof (wsParts_nonempty s Hne) as Hparts.
  destruct (wsParts s) as [|p ps]; [done|].
  change (0 <? length (p :: ps)) with true. cbv iota.
  destruct h as [h|]; [|done].
  destruct (0 <? h); [|done].
  by rewrite indexOf_0.
Qed.

Lemma occurs_at_bound (s c : jsstring) (i : nat) :
  occurs_at s c i -> i + length s <= length c.
Proof. intros (pre & suf & -> & <-). rewrite !length_app. lia. Qed.

Lemma lineOfIndex_take (c : jsstring) (idx : nat) :
  idx <= length c ->
  lineOfIndex c idx = S (newlines (take idx c))
  /\ lineOfIndex c idx <= length (split_lines c).
Proof.
  intros Hidx. unfold lineOfIndex.
  rewrite substring_0_take, !split_lines_length by done. split; [done|].
  rewrite <- (take_drop idx c) at 2. rewrite newlines_app. lia.
Qed.

Lemma findSearchContent_spec (c s : jsstring) (h : option nat) :
  s <> [] ->
  (findSearchContent c s h = None
   <-> no_occurrence s c
       /\ regexp_exec (buildWhitespaceTolerantRegex s) c 0 = None)
  /\ (forall idx line,
        findSearchContent c s h = Some (idx, line) ->
        idx <= length c
        /\ line = S (newlines (take idx c))
        /\ line <= length (split_lines c)
        /\ (occurs_at s c idx
            \/ (no_occurrence s c
                /\ exists n,
                     regexp_exec (buildWhitespaceTolerantRegex s) c 0
                     = Some (idx, n)))).
Proof.
  intros Hne. rewrite (findSearchContent_cases c s h Hne).
  set (hinted := match h with Some _ => _ | None => _ end).
  assert (Hhinted : forall idx line,
            hinted = Some (idx, line) ->
            occurs_at s c idx /\ line = lineOfIndex c idx).
  { intros idx line. unfold hinted. destruct h as [h|]; [|done].
    destruct (0 <? h); [|done].
    destruct (index_in s (windowContent c h)) as [localIdx|] eqn:Hidx; [|done].
    intros [= <- <-]. split; [|done].
    by destruct (hinted_match_sound c s h localIdx Hne Hidx) as [Hocc _]. }
  assert (Hfound : forall idx line,
            occurs_at s c idx \/
              (no_occurrence s c /\ exists n,
                 regexp_exec (buildWhitespaceTolerantRegex s) c 0 = Some (idx, n)) ->
            line = lineOfIndex c idx ->
            idx <= length c
            /\ line = S (newlines (take idx c))
            /\ line <= length (split_lines c)
            /\ (occurs_at s c idx
                \/ (no_occurrence s c
                    /\ exists n,
                         regexp_exec (buildWhitespaceTolerantRegex s) c 0
                         = Some (idx, n)))).
  { intros idx line Hwhere ->.
    assert (Hidx : idx <= length c).
    { destruct Hwhere as [Hocc|(_ & n & Hexec)].
      - apply occurs_at_bound in Hocc. lia.
      - apply regexp_exec_bound in Hexec. lia. }
    destruct (lineOfIndex_take c idx Hidx) as [H1 H2]. by rewrite <- H1. }
  split.
  - split.
    + destruct hinted as [found|]; [done|].
      destruct (index_in s c) as [idx|] eqn:Hidx; [done|].
      apply index_in_None in Hidx.
      destruct (regexp_exec _ c 0) as [[idx n]|]; done.
    + intros [Hno Hexec]. destruct hinted as [[idx line]|].
      * destruct (Hhinted idx line eq_refl) as [Hocc _]. by destruct (Hno idx).
      * destruct (index_in s c) as [idx|] eqn:Hidx; [|by rewrite Hexec].
        apply index_in_Some in Hidx as [Hocc _]. by destruct (Hno idx).
  - intros idx line. destruct hinted as [[idx' line']|].
    + intros [= <- <-]. destruct (Hhinted idx' line' eq_refl) as [Hocc Hline].
      apply Hfound; [by left|done].
    + destruct (index_in s c) as [idx'|] eqn:Hidx.
      * intros [= <- <-]. apply index_in_Some in Hidx as [Hocc _].
        apply Hfound; [by left|done].
      * apply index_in_None in Hidx.
        destruct (regexp_exec _ c 0) as [[idx' n]|] eqn:Hexec; [|done].
        intros [= <- <-]. apply Hfound; [|done]. right. split; [done|]. by exists n.
Qed.

(** X17: what [findSearchContent] returns is where it says.  It returns
    nothing exactly when the text occurs nowhere in the content and the
    whitespace-tolerant pattern matches nowhere, whatever the hint.  A
    returned index lies within the content and its line is the line of that
    index (one more than the line feeds before it); the index is a literal
    occurrence of the text, unless the text occurs nowhere, in which case it
    is the first match of the whitespace-tolerant pattern. *)
Theorem findSearchContent_sound (c s : jsstring) (h : option nat) :
  s <> [] ->
  (findSearchContent c s h = None
   <-> no_occurrence s c
       /\ regexp_exec (buildWhitespaceTolerantRegex s) c 0 = None)
  /\ (forall idx line,
        findSearchContent c s h = Some (idx, line) ->
        idx <= length c
        /\ line = S (newlines (take idx c))
        /\ line <= length (split_lines c)
        /\ (occurs_at s c idx
            \/ (no_occurrence s c
                /\ exists n,
                     regexp_exec (buildWhitespaceTolerantRegex s) c 0
                     = Some (idx, n)))).
Proof. apply findSearchContent_spec. Qed.

Lemma findSearchContent_sound_witness :
  findSearchContent (unlines ["a"; "b  c"; ""]%string) (js "b c") None = None
  <-> no_occurrence (js "b c") (unlines ["a"; "b  c"; ""]%string)
      /\ regexp_exec (buildWhitespaceTolerantRegex (js "b c"))
           (unlines ["a"; "b  c"; ""]%string) 0 = None.
Proof.
  apply (findSearchContent_sound (unlines ["a"; "b  c"; ""]%string) (js "b c") None).
  done.
Defined.

(** X18: [applyAllBlocks] reports one result for every block, in the order
    of the blocks, and the result of a block is that of [_applyBlock] on
    the content as it was read: the same block, the same success flag and
    matched line, and the same record altogether unless the search text is
    empty, where only the wording of the error differs. *)
Theorem applyAllBlocks_reports_each_block (content : jsstring)
    (blocks : list DiffBlock) :
  length (snd (applyAllBlocks content blocks)) = length blocks
  /\ forall i b,
       blocks !! i = Some b ->
       exists r,
         snd (applyAllBlocks content blocks) !! i = Some r
         /\ block r = b
         /\ success r = success (_applyBlock content b)
         /\ matchedAtLine r = matchedAtLine (_applyBlock content b)
         /\ (normalizeToLF (searchContent b) <> [] -> r = _applyBlock content b)
         /\ (normalizeToLF (searchContent b) = [] ->
             error r = Some (js "Empty search content")).
Proof.
  rewrite applyAllBlocks_results. split; [by rewrite length_imap|].
  intros i b Hb. exists (blockOutcome content i b).
  split; [by rewrite list_lookup_imap, Hb|].
  unfold blockOutcome, locateBlock, _applyBlock.
  destruct (bool_decide (normalizeToLF (searchContent b) = [])) eqn:Hempty.
  - apply bool_decide_eq_true in Hempty. by repeat split.
  - apply bool_decide_eq_false in Hempty.
    destruct (findSearchContent content _ (startLine b)) as [[idx line]|];
      by repeat split.
Qed.

Lemma applyAllBlocks_reports_each_block_witness :
  exists r,
    snd (applyAllBlocks (js "x")
           [{| startLine := None; searchContent := []; replaceContent := js "y";
               rawBlock := [] |}]) !! 0 = Some r
    /\ success r = false
    /\ error r = Some (js "Empty search content").
Proof.
  destruct (applyAllBlocks_reports_each_block (js "x")
              [{| startLine := None; searchContent := []; replaceContent := js "y";
                  rawBlock := [] |}]) as [_ Hall].
  destruct (Hall 0 _ eq_refl) as (r & Hr & _ & Hs & _ & _ & He).
  exists r. split; [done|]. split; [done|]. by apply He.
Defined.

Lemma applyAllBlocks_single (content : jsstring) (b : DiffBlock) :
  fst (applyAllBlocks content [b])
  = match locateBlock content 0 b with
    | inr m => splice content m
    | inl _ => content
    end.
Proof.
  unfold applyAllBlocks, locateAll, matchResultsOf. cbn [fst imap omap].
  by destruct (locateBlock content 0 b).
Qed.

Lemma applyAllBlocks_one_hunk (content : jsstring) (b : DiffBlock) :
  let searchLF := normalizeToLF (searchContent b) in
  let replaceLF := normalizeToLF (replaceContent b) in
  searchLF <> [] ->
  (exists i, occurs_at searchLF content i) ->
  exists pre suf,
    content = pre ++ searchLF ++ suf
    /\ applyAllBlocks content [b]
       = (pre ++ replaceLF ++ suf,
          [{| block := b; success := true; error := None;
              matchedAtLine := Some (S (newlines pre)) |}])
    /\ (startLine b = None -> first_occurrence searchLF content (length pre)).
Proof.
  intros searchLF replaceLF Hne [i Hi].
  destruct (findSearchContent_spec content searchLF (startLine b) Hne)
    as [Hnone Hsome].
  destruct (findSearchContent content searchLF (startLine b))
    as [[idx line]|] eqn:Hfind.
  2:{ destruct Hnone as [Hnone _]. destruct (Hnone eq_refl) as [Hno _].
      by destruct (Hno i). }
  destruct (Hsome idx line eq_refl) as (Hidx & Hline & _ & Hwhere).
  destruct Hwhere as [Hocc|[Hno _]]; [|by destruct (Hno i)].
  destruct Hocc as (pre & suf & Hc & Hpre).
  exists pre, suf. split; [done|]. split.
  - rewrite (surjective_pairing (applyAllBlocks content [b])). f_equal.
    + rewrite applyAllBlocks_single. unfold locateBlock.
      fold searchLF replaceLF.
      rewrite (bool_decide_eq_false_2 _ Hne), Hfind. unfold splice.
      cbn [m_index m_replaceLF m_matchLength].
      rewrite Hc, <- Hpre. rewrite substring_0_app.
      replace (length pre + length searchLF) with (length (pre ++ searchLF))
        by (by rewrite length_app).
      rewrite (app_assoc pre searchLF suf), substring_from_app. done.
    + rewrite applyAllBlocks_results. cbn [imap]. f_equal.
      unfold blockOutcome, locateBlock. fold searchLF.
      rewrite (bool_decide_eq_false_2 _ Hne), Hfind. cbn.
      rewrite Hline, Hc, <- Hpre. by rewrite take_app_length.
  - intros Hhint. rewrite Hhint in Hfind.
    rewrite (findSearchContent_cases _ _ _ Hne) in Hfind.
    destruct (index_in searchLF content) as [idx'|] eqn:Hidx'.
    + injection Hfind as <- _. apply index_in_Some in Hidx'. by rewrite Hpre.
    + apply index_in_None in Hidx'. by destruct (Hidx' i).
Qed.

(** X19: one hunk whose search text occurs in the content replaces one
    occurrence of it and nothing else: the content is [pre ++ search ++ suf]
    and the result [pre ++ replacement ++ suf], reported as applied at the
    line after the line feeds of [pre]; without a line hint that occurrence
    is the first one. *)
Theorem single_hunk_replaces_occurrence (content : jsstring) (b : DiffBlock) :
  let searchLF := normalizeToLF (searchContent b) in
  let replaceLF := normalizeToLF (replaceContent b) in
  searchLF <> [] ->
  (exists i, occurs_at searchLF content i) ->
  exists pre suf,
    content = pre ++ searchLF ++ suf
    /\ applyAllBlocks content [b]
       = (pre ++ replaceLF ++ suf,
          [{| block := b; success := true; error := None;
              matchedAtLine := Some (S (newlines pre)) |}])
    /\ (startLine b = None -> first_occurrence searchLF content (length pre)).
Proof. apply applyAllBlocks_one_hunk. Qed.

Lemma single_hunk_replaces_occurrence_witness :
  let b := {| startLine := None; searchContent := js "b" ++ CRLF ++ js "c";
              replaceContent := js "X"; rawBlock := [] |} in
  exists pre suf,
    unlines ["a"; "b"; "c"; "b"; "c"]%string
    = pre ++ unlines ["b"; "c"]%string ++ suf
    /\ applyAllBlocks (unlines ["a"; "b"; "c"; "b"; "c"]%string) [b]
       = (pre ++ js "X" ++ suf,
          [{| block := b; success := true; error := None;
              matchedAtLine := Some (S (newlines pre)) |}])
    /\ (startLine b = None ->
        first_occurrence (unlines ["b"; "c"]%string)
          (unlines ["a"; "b"; "c"; "b"; "c"]%string) (length pre)).
Proof.
  intros b.
  apply (single_hunk_replaces_occurrence
           (unlines ["a"; "b"; "c"; "b"; "c"]%string) b); [done|].
  exists 6, (unlines ["a"; "b"; "c"; ""]%string), []. by vm_compute.
Defined.

Lemma StronglySorted_lookup {A} (R : A -> A -> Prop) (l : list A)
    (i j : nat) (a b : A) :
  StronglySorted R l -> i < j -> l !! i = Some a -> l !! j = Some b -> R a b.
Proof.
  intros Hs. revert i j. induction Hs as [|x l _ IH Hall]; intros i j Hij Ha Hb.
  - done.
  - destruct j as [|j]; [lia|]. destruct i as [|i].
    + simpl in Ha. injection Ha as ->. simpl in Hb.
      by apply (Forall_lookup_1 _ _ _ _ Hall Hb).
    + apply (IH i j); [lia|done|done].
Qed.

Lemma located_length (content : jsstring) (blocks : list DiffBlock)
    (m : MatchResult) :
  m ∈ matchResultsOf (locateAll content blocks) -> 0 < m_matchLength m.
Proof.
  intros (i & b & _ & Hloc)%elem_of_matchResults. unfold locateBlock in Hloc.
  destruct (bool_decide (normalizeToLF (searchContent b) = [])) eqn:Hempty;
    [done|].
  apply bool_decide_eq_false in Hempty.
  destruct (findSearchContent _ _ _) as [[idx line]|]; [|done].
  injection Hloc as <-. simpl.
  destruct (normalizeToLF (searchContent b)); [done|simpl; lia].
Qed.

(** X20: hunks whose located ranges are pairwise disjoint and lie within
    the content are all applied as if at once: the result is the content
    with every range replaced by its replacement text, the ranges being taken
    in descending order of their offsets, each once. *)
Theorem disjoint_hunks_apply_at_once (content : jsstring)
    (blocks : list DiffBlock) :
  let located := matchResultsOf (locateAll content blocks) in
  (forall i j a b, i <> j -> located !! i = Some a -> located !! j = Some b ->
     m_index a + m_matchLength a <= m_index b
     \/ m_index b + m_matchLength b <= m_index a) ->
  (forall m, m ∈ located -> m_index m + m_matchLength m <= length content) ->
  fst (applyAllBlocks content blocks)
  = stitched content (sortDesc located) (length content)
  /\ sortDesc located ≡ₚ located
  /\ stacked_below (length content) (sortDesc located).
Proof.
  intros located Hdisjoint Hbound.
  pose proof (sortDesc_Permutation located) as Hperm.
  assert (Hstay : splices_stay_before (sortDesc located)).
  { intros i j a b Hij Ha Hb.
    assert (Hdesc : descending a b).
    { apply (StronglySorted_lookup descending (sortDesc located) i j); try done.
      apply Sorted_StronglySorted; [|apply sortDesc_Sorted].
      intros x y z. unfold descending. lia. }
    unfold descending in Hdesc.
    apply Permutation_inj in Hperm as [_ (f & Hinj & Hf)].
    rewrite Hf in Ha, Hb.
    assert (Hne : f i <> f j) by (intros Heq%Hinj; lia).
    assert (Hlen : 0 < m_matchLength a).
    { apply (located_length content blocks). by apply list_elem_of_lookup_2 in Ha. }
    destruct (Hdisjoint (f i) (f j) a b Hne Ha Hb); lia. }
  assert (Hin : forall m, m ∈ sortDesc located ->
                  m_index m + m_matchLength m <= length content).
  { intros m Hm. apply Hbound. by rewrite <- Hperm. }
  split; [by apply applyAllBlocks_disjoint|]. split; [done|].
  by apply stacked_below_of_stay_before.
Qed.

Lemma disjoint_hunks_apply_at_once_witness :
  let content := unlines ["aaa"; "bbb"; "ccc"; ""]%string in
  let blocks :=
    [ {| startLine := None; searchContent := js "aaa";
         replaceContent := js "A"; rawBlock := [] |};
      {| startLine := None; searchContent := js "ccc";
         replaceContent := js "CCCC"; rawBlock := [] |} ] in
  fst (applyAllBlocks content blocks) = unlines ["A"; "bbb"; "CCCC"; ""]%string.
Proof.
  intros content blocks.
  destruct (disjoint_hunks_apply_at_once content blocks) as (-> & _ & _).
  - intros i j a b Hij Ha Hb.
    destruct i as [|[|i]], j as [|[|j]]; try done;
      injection Ha as <-; injection Hb as <-; vm_compute; lia.
  - intros m Hm.
    repeat (apply elem_of_cons in Hm as [->|Hm]; [vm_compute; lia|]).
    by apply elem_of_nil in Hm.
  - by vm_compute.
Defined.

(** ** The order of the checks *)

Section Rejections.
Variable resolveToCwd : jsstring -> jsstring -> jsstring.
Variable dirname : jsstring -> jsstring.
Variable cwd : jsstring.

(** X21: [code_apply_diff] checks its arguments before it touches the
    file, and parses the diff before it reads the file.  A blank path, then a
    blank diff, are rejected with no file operation at all; a missing file,
    a malformed diff and a diff without any block are rejected after the
    access check alone, the file not being read. *)
Theorem diff_rejections_come_first (file_path diff : jsstring)
    (signal : nat -> bool) (w : world) :
  signal 0 = false ->
  let path := resolveToCwd file_path cwd in
  let run := execute_diff resolveToCwd cwd file_path diff signal w in
  (trim file_path = [] -> run = (Thrown DiffMissingFilePath, w))
  /\ (trim file_path <> [] -> trim diff = [] ->
      run = (Thrown DiffMissingDiff, w))
  /\ (trim file_path <> [] -> trim diff <> [] ->
      (files w !! path = None ->
       run = (Thrown (DiffFileDoesNotExist file_path), log (EvAccess path) w))
      /\ (is_Some (files w !! path) -> signal 1 = false ->
          (forall e, parseDiffBlocks diff = inl e ->
             run = (Thrown (DiffParseFailed e), log (EvAccess path) w))
          /\ (parseDiffBlocks diff = inr [] ->
              run = (Thrown DiffNoBlocks, log (EvAccess path) w)))).
Proof.
  intros H0 path run. subst run.
  unfold execute_diff, io_bind, check_aborted, access, throw, io_ret.
  rewrite H0. cbv beta iota.
  split.
  { intros Hp. by rewrite (bool_decide_eq_true_2 _ Hp). }
  split.
  { intros Hp Hd.
    by rewrite (bool_decide_eq_false_2 _ Hp), (bool_decide_eq_true_2 _ Hd). }
  intros Hp Hd.
  rewrite (bool_decide_eq_false_2 _ Hp), (bool_decide_eq_false_2 _ Hd).
  fold path. cbn [files log]. split.
  - intros Hnone. rewrite Hnone.
    rewrite (bool_decide_eq_false_2 (is_Some None)) by (by intros [? ?]). done.
  - intros Hsome H1. rewrite (bool_decide_eq_true_2 _ Hsome), H1.
    cbv beta iota. cbn [negb]. split.
    + by intros e ->.
    + by intros ->.
Qed.

(** X22: [code_edit] rejects a blank path before any file operation, in
    edit mode and in create mode alike (so an empty [old_string] with a blank
    path creates nothing); in edit mode it rejects a missing file after the
    access check alone, without creating it. *)
Theorem edit_rejections_come_first (args : CodeEditInput)
    (signal : nat -> bool) (w : world) :
  signal 0 = false ->
  let path := resolveToCwd (file_path args) cwd in
  let run := execute resolveToCwd dirname cwd args signal w in
  (trim (file_path args) = [] -> run = (Thrown MissingFilePath, w))
  /\ (trim (file_path args) <> [] -> old_string args <> [] ->
      files w !! path = None ->
      run = (Thrown (FileDoesNotExist (file_path args)), log (EvAccess path) w)
      /\ files (snd run) !! path = None).
Proof.
  intros H0 path run. subst run.
  unfold execute, io_bind, check_aborted, access, throw, io_ret.
  rewrite H0. cbv beta iota. split.
  { intros Hp. by rewrite (bool_decide_eq_true_2 _ Hp). }
  intros Hp Hold Hnone.
  rewrite (bool_decide_eq_false_2 _ Hp), (bool_decide_eq_false_2 _ Hold).
  fold path. cbn [files log]. rewrite Hnone.
  rewrite (bool_decide_eq_false_2 (is_Some None)) by (by intros [? ?]).
  by cbn.
Qed.

End Rejections.

Lemma diff_rejections_come_first_witness :
  execute_diff resolve_plain (js "/w") (js "f")
    (unlines ["<<<<<<< SEARCH"; "a"]%string) never_aborted (one_file (js "a"))
  = (Thrown (DiffParseFailed (MissingSeparator 1)),
     log (EvAccess (js "/w/f")) (one_file (js "a"))).
Proof.
  destruct (diff_rejections_come_first resolve_plain (js "/w") (js "f")
              (unlines ["<<<<<<< SEARCH"; "a"]%string) never_aborted
              (one_file (js "a")) eq_refl) as (_ & _ & Hrest).
  destruct Hrest as [_ Hparse]; [by vm_compute|by vm_compute|].
  destruct Hparse as [Herr _]; [by eexists; vm_compute|done|].
  apply Herr. by vm_compute.
Defined.

Lemma edit_rejections_come_first_witness :
  execute resolve_plain dirname_plain (js "/w")
    {| file_path := js "  "; old_string := []; new_string := js "text";
       expected_replacements := None |} never_aborted (one_file (js "a"))
  = (Thrown MissingFilePath, one_file (js "a")).
Proof.
  destruct (edit_rejections_come_first resolve_plain dirname_plain (js "/w")
              {| file_path := js "  "; old_string := []; new_string := js "text";
                 expected_replacements := None |} never_aborted
              (one_file (js "a")) eq_refl) as [Hblank _].
  apply Hblank. by vm_compute.
Defined.

(** ** The excerpt shown after an edit *)

Lemma slice_lookup {A} (l : list A) (a b i : nat) (x : A) :
  slice l a b !! i = Some x -> l !! (a + i) = Some x.
Proof.
  unfold slice. intros H. apply lookup_take_Some in H as [H _].
  by rewrite lookup_drop in H.
Qed.

Lemma slice_lookup_is_Some {A} (l : list A) (a b i : nat) :
  a + i < b -> a + i < length l -> is_Some (slice l a b !! i).
Proof.
  intros Hb Hl. unfold slice. apply lookup_lt_is_Some.
  rewrite length_take, length_drop. lia.
Qed.

Lemma slice_length {A} (l : list A) (a b : nat) : length (slice l a b) <= b - a.
Proof. unfold slice. rewrite length_take. lia. Qed.

(** X23: the post-edit context shows the edit.  When the new text occurs in
    the content, the excerpt consists of consecutive lines of the content,
    each under its own line number counted from one; it starts
    [contextLines] lines before the first line of the first occurrence (or at
    the first line of the content), holds every line that occurrence touches,
    and is at most the lines of the new text and twice [contextLines] long. *)
Theorem extractContext_shows_the_edit
    (content oldText newText : jsstring) (contextLines : nat)
    (pre suf : jsstring) :
  content = pre ++ newText ++ suf ->
  first_occurrence newText content (length pre) ->
  exists start shown,
    extractContext content oldText newText contextLines
    = join [LF] (numberLines start shown)
    /\ (forall i l, shown !! i = Some l ->
          split_lines content !! (start + i) = Some l)
    /\ (forall j, newlines pre <= j <= newlines pre + newlines newText ->
          start <= j /\ is_Some (shown !! (j - start)))
    /\ start = newlines pre - contextLines
    /\ length shown <= S (newlines newText) + 2 * contextLines.
Proof.
  intros Hc Hfirst. unfold extractContext.
  rewrite indexOf_0, (first_occurrence_index_in _ _ _ Hfirst).
  assert (Hsub : substring content 0 (length pre) = pre)
    by (rewrite Hc; apply substring_0_app).
  rewrite Hsub, !split_lines_length.
  replace (S (newlines pre) - 1) with (newlines pre) by lia.
  rewrite Nat.max_0_l.
  set (start := newlines pre - contextLines).
  set (stop := Nat.min _ _).
  exists start, (slice (split_lines content) start stop).
  split; [done|]. split; [intros i l; apply slice_lookup|].
  assert (Hlines : newlines content = newlines pre + newlines newText + newlines suf).
  { rewrite Hc, !newlines_app. lia. }
  split; [|split; [done|]].
  - intros j Hj. split; [unfold start; lia|].
    apply slice_lookup_is_Some; [unfold start, stop; lia|].
    rewrite split_lines_length. unfold start. lia.
  - pose proof (slice_length (split_lines content) start stop).
    unfold start, stop in *. lia.
Qed.

Lemma extractContext_shows_the_edit_witness :
  exists start shown,
    extractContext (unlines ["a"; "b"; "NEW"; "d"]%string) (js "c") (js "NEW") 1
    = join [LF] (numberLines start shown)
    /\ (forall i l, shown !! i = Some l ->
          split_lines (unlines ["a"; "b"; "NEW"; "d"]%string) !! (start + i)
          = Some l)
    /\ (forall j, newlines (unlines ["a"; "b"; ""]%string) <= j
                  <= newlines (unlines ["a"; "b"; ""]%string) + newlines (js "NEW") ->
          start <= j /\ is_Some (shown !! (j - start)))
    /\ start = newlines (unlines ["a"; "b"; ""]%string) - 1
    /\ length shown <= S (newlines (js "NEW")) + 2 * 1.
Proof.
  apply (extractContext_shows_the_edit (unlines ["a"; "b"; "NEW"; "d"]%string)
           (js "c") (js "NEW") 1 (unlines ["a"; "b"; ""]%string)
           ([LF] ++ js "d")).
  - by vm_compute.
  - apply index_in_Some. by vm_compute.
Defined.

(** ** Expanding a path *)

Lemma normalized_twice (p : jsstring) :
  let f := fun c : N => if is_unicode_space c then 32%N else c in
  map f (map f p) = map f p.
Proof.
  intros f. rewrite map_map. apply map_ext. intros c. unfold f.
  by destruct (is_unicode_space c) eqn:Hc; [|rewrite Hc].
Qed.

Lemma normalized_plain (p : jsstring) :
  forallb (fun c => negb (is_unicode_space c)) p = true ->
  map (fun c : N => if is_unicode_space c then 32%N else c) p = p.
Proof.
  induction p as [|c t IH]; [done|]. simpl. intros [Hc Ht]%andb_true_iff.
  apply negb_true_iff in Hc. by rewrite Hc, IH.
Qed.

Lemma normalized_has_no_unicode_space (p : jsstring) :
  forallb (fun c => negb (is_unicode_space c))
    (map (fun c : N => if is_unicode_space c then 32%N else c) p) = true.
Proof.
  induction p as [|c t IH]; [done|]. simpl. rewrite IH, andb_true_r.
  by destruct (is_unicode_space c) eqn:Hc; [|rewrite Hc].
Qed.

Lemma expandPath_no_tilde (homedir q : jsstring) :
  startsWith q (js "~") = false ->
  expandPath homedir q
  = map (fun c : N => if is_unicode_space c then 32%N else c) q.
Proof.
  unfold expandPath. destruct q as [|c t]; [done|].
  change (startsWith (c :: t) (js "~")) with (if (126 =? c)%N then true else false).
  destruct (N.eqb_spec 126 c) as [|Hc]; [done|]. intros _.
  cbn [map]. set (t' := map _ t).
  assert (Hfc : (if is_unicode_space c then 32%N else c) <> 126%N).
  { destruct (is_unicode_space c); [done|congruence]. }
  rewrite bool_decide_eq_false_2 by (intros [= Heq _]; done).
  change (startsWith (?x :: t') (js "~/"))
    with (if (126 =? x)%N then startsWith t' (js "/") else false).
  by destruct (N.eqb_spec 126 (if is_unicode_space c then 32%N else c)).
Qed.

Lemma forallb_drop {A} (p : A -> bool) (n : nat) (l : list A) :
  forallb p l = true -> forallb p (drop n l) = true.
Proof.
  rewrite !forallb_forall. intros H x Hx. apply H.
  apply list_elem_of_In. apply list_elem_of_In in Hx.
  by apply (subseteq_drop n l).
Qed.

(** X24: [expandPath] is idempotent and leaves no special space: when the
    home directory has no such space and does not start with a tilde,
    expanding an expanded path changes nothing, the result holds none of the
    spaces the function rewrites, a lone tilde is the home directory, and
    [~/rest] is [rest] under the home directory. *)
Theorem expandPath_idempotent (homedir filePath : jsstring) :
  forallb (fun c => negb (is_unicode_space c)) homedir = true ->
  startsWith homedir (js "~") = false ->
  expandPath homedir (expandPath homedir filePath) = expandPath homedir filePath
  /\ forallb (fun c => negb (is_unicode_space c)) (expandPath homedir filePath)
     = true
  /\ expandPath homedir (js "~") = homedir
  /\ (forall rest,
        forallb (fun c => negb (is_unicode_space c)) rest = true ->
        expandPath homedir (js "~/" ++ rest) = homedir ++ js "/" ++ rest).
Proof.
  intros Hplain Htilde.
  pose proof (normalized_has_no_unicode_space filePath) as Hnorm.
  split; [|split; [|split]].
  - unfold expandPath at 2 3. set (normalized := map _ filePath) in *.
    destruct (bool_decide (normalized = js "~")) eqn:E1.
    { rewrite expandPath_no_tilde by done. by apply normalized_plain. }
    destruct (startsWith normalized (js "~/")) eqn:E2.
    + apply startsWith_app in E2 as [u Hu].
      assert (Hrest : forallb (fun c => negb (is_unicode_space c))
                        (homedir ++ drop 1 normalized) = true).
      { rewrite forallb_app, Hplain. by apply forallb_drop. }
      rewrite expandPath_no_tilde; [by apply normalized_plain|].
      rewrite Hu. destruct homedir as [|c t]; [done|].
      revert Htilde. simpl. by destruct (126 =? c)%N.
    + unfold expandPath. unfold normalized at 1 2 3. rewrite normalized_twice.
      fold normalized. rewrite E1, E2. by apply normalized_plain.
  - unfold expandPath. set (normalized := map _ filePath) in *.
    destruct (bool_decide (normalized = js "~")); [done|].
    destruct (startsWith normalized (js "~/")); [|done].
    rewrite forallb_app, Hplain. by apply forallb_drop.
  - unfold expandPath. by rewrite bool_decide_eq_true_2.
  - intros rest Hrest. unfold expandPath.
    rewrite map_app, (normalized_plain rest Hrest).
    by rewrite bool_decide_eq_false_2.
Qed.

Lemma expandPath_idempotent_witness :
  expandPath (js "/home/u") (expandPath (js "/home/u") (js "~/a b"))
  = expandPath (js "/home/u") (js "~/a b")
  /\ expandPath (js "/home/u") (js "~/a b") = js "/home/u/a b".
Proof.
  destruct (expandPath_idempotent (js "/home/u") (js "~/a b")) as (H1 & _ & _ & H2);
    [by vm_compute|by vm_compute|].
  split; [done|]. apply (H2 (js "a b")). by vm_compute.
Defined.

(** ** The matches of a pattern *)

Lemma search_from_sound (atoms : list ratom) (s : jsstring) (k i n : nat) :
  search_from atoms s k = Some (i, n) ->
  k <= i /\ match_here atoms (drop (i - k) s) = Some n.
Proof.
  revert k; induction s as [|c t IH]; intros k; cbn [search_from].
  - destruct (match_here atoms []) as [m|] eqn:Hm; [|done].
    intros [= <- <-]. by rewrite Nat.sub_diag.
  - destruct (match_here atoms (c :: t)) as [m|] eqn:Hm.
    + intros [= <- <-]. by rewrite Nat.sub_diag.
    + intros [Hk Hhere]%IH. split; [lia|].
      replace (i - k) with (S (i - S k)) by lia. done.
Qed.

Lemma regexp_exec_sound (atoms : list ratom) (s : jsstring) (lastIndex i n : nat) :
  regexp_exec (RSeq atoms) s lastIndex = Some (i, n) ->
  lastIndex <= i /\ i + n <= length s /\ Matches atoms (take n (drop i s)).
Proof.
  intros Hexec. destruct (regexp_exec_bound _ _ _ _ _ Hexec) as [H1 H2].
  split; [done|]. split; [done|].
  unfold regexp_exec in Hexec. destruct (decide (lastIndex <= length s)); [|done].
  apply search_from_sound in Hexec as [_ Hhere].
  rewrite drop_drop in Hhere. replace (lastIndex + (i - lastIndex)) with i in Hhere by lia.
  by apply match_here_sound.
Qed.

Lemma matchAllLoop_inv (fuel : nat) (atoms : list ratom) (s : jsstring)
    (lastIndex : nat) :
  Forall (fun m => lastIndex <= fst m /\ fst m + snd m <= length s
                   /\ Matches atoms (take (snd m) (drop (fst m) s)))
    (matchAllLoop fuel (RSeq atoms) s lastIndex)
  /\ StronglySorted (fun a b => fst a + snd a <= fst b)
       (matchAllLoop fuel (RSeq atoms) s lastIndex).
Proof.
  revert lastIndex; induction fuel as [|f IH]; intros lastIndex;
    [split; constructor|].
  cbn [matchAllLoop].
  destruct (regexp_exec (RSeq atoms) s lastIndex) as [[i n]|] eqn:Hexec;
    [|split; constructor].
  destruct (regexp_exec_sound _ _ _ _ _ Hexec) as (H1 & H2 & H3).
  set (next := if n =? 0 then S (i + n) else i + n).
  assert (Hnext : i + n <= next) by (unfold next; destruct (n =? 0); lia).
  destruct (IH next) as [Hall Hsorted]. split.
  - constructor; [done|]. eapply Forall_impl; [exact Hall|].
    intros m (? & ? & ?). split; [lia|done].
  - constructor; [done|]. eapply Forall_impl; [exact Hall|].
    intros m (? & _). simpl. lia.
Qed.

Lemma Matches_length (atoms : list ratom) (t : jsstring) :
  Matches atoms t -> atoms <> [] -> 0 < length t.
Proof.
  intros H Hne. destruct H as [|c rest t _|run rest t Hrun _ _|run rest t Hrun _ _].
  - done.
  - simpl. lia.
  - rewrite length_app. destruct run; [done|simpl; lia].
  - rewrite length_app. destruct run; [done|simpl; lia].
Qed.

Lemma disjoint_count (limit : nat) (ms : list (nat * nat)) (lastIndex : nat) :
  Forall (fun m => lastIndex <= fst m /\ fst m + snd m <= limit /\ 0 < snd m) ms ->
  StronglySorted (fun a b => fst a + snd a <= fst b) ms ->
  ms <> [] -> length ms + lastIndex <= limit.
Proof.
  intros Hall Hsorted. revert lastIndex Hall.
  induction Hsorted as [|m ms Hs IH Hm]; intros lastIndex Hall; [done|]. intros _.
  apply Forall_cons in Hall as [(H1 & H2 & H3) Hall].
  destruct ms as [|m' ms']; [simpl; lia|].
  assert (Hall' : Forall (fun x => fst m + snd m <= fst x /\ fst x + snd x <= limit
                                   /\ 0 < snd x) (m' :: ms')).
  { apply Forall_forall. intros x Hx.
    rewrite Forall_forall in Hm, Hall.
    destruct (Hall x Hx) as (_ & ? & ?). split; [by apply Hm|done]. }
  specialize (IH (fst m + snd m) Hall' ltac:(done)). simpl in *. lia.
Qed.

Lemma countRegexMatches_bound (atoms : list ratom) (s : jsstring) :
  atoms <> [] -> countRegexMatches s (RSeq atoms) <= length s.
Proof.
  intros Hne. unfold countRegexMatches, matchAll.
  destruct (matchAllLoop_inv (S (S (length s))) atoms s 0) as [Hall Hsorted].
  destruct (matchAllLoop _ _ s 0) as [|m ms] eqn:Hms; [simpl; lia|].
  pose proof (disjoint_count (length s) (m :: ms) 0) as H.
  rewrite Nat.add_0_r in H. apply H; [|done|done].
  eapply Forall_impl; [exact Hall|]. intros x (? & ? & Hx).
  split; [done|]. split; [done|].
  apply Matches_length in Hx; [|done].
  rewrite length_take, length_drop in Hx. lia.
Qed.

Lemma wsPattern_nonempty (s : jsstring) :
  s <> [] -> flat_map wsPartPattern (wsParts s) <> [].
Proof.
  intros Hne. pose proof (wsParts_nonempty s Hne) as Hparts.
  pose proof (wsParts_head s) as Hhead.
  destruct (wsParts s) as [|[|c p] ps]; [done|by destruct (Hhead ps)|].
  cbn [flat_map]. unfold wsPartPattern.
  destruct (all_space (c :: p)); [by destruct (includes _ _)|done].
Qed.

Lemma join_nonempty {A B} (sep : list B) (f : A -> list B) (x : A) (xs : list A) :
  f x <> [] -> join sep (map f (x :: xs)) <> [].
Proof.
  intros Hx. cbn [map]. destruct (map f xs) as [|y ys]; [done|].
  rewrite join_cons by done. by destruct (f x).
Qed.

(** X25: the matches a pattern is counted and replaced by are genuine and
    disjoint: every match lies within the content and is text of the shape
    the pattern stands for, the matches come from left to right and none
    starts before the one before it ends; so neither relaxed count of
    [code_edit] can exceed the length of the content. *)
Theorem pattern_matches_are_disjoint (atoms : list ratom) (s : jsstring) :
  (forall i n, (i, n) ∈ matchAll s (RSeq atoms) ->
     i + n <= length s /\ Matches atoms (take n (drop i s)))
  /\ (forall j k a b, j < k ->
        matchAll s (RSeq atoms) !! j = Some a ->
        matchAll s (RSeq atoms) !! k = Some b ->
        fst a + snd a <= fst b)
  /\ (forall oldLF,
        countRegexMatches s (buildWhitespaceTolerantRegex oldLF) <= length s
        /\ countRegexMatches s (buildTokenRegex oldLF) <= length s).
Proof.
  destruct (matchAllLoop_inv (S (S (length s))) atoms s 0) as [Hall Hsorted].
  fold (matchAll s (RSeq atoms)) in Hall, Hsorted.
  split; [|split].
  - intros i n Hin. rewrite Forall_forall in Hall.
    by destruct (Hall (i, n) Hin) as (_ & ? & ?).
  - intros j k a b Hjk Ha Hb. revert j k Hjk Ha Hb.
    induction Hsorted as [|m ms _ IH Hm]; intros j k Hjk Ha Hb; [done|].
    destruct k as [|k]; [lia|]. destruct j as [|j].
    + injection Ha as ->. by apply (Forall_lookup_1 _ _ _ _ Hm Hb).
    + apply Forall_cons in Hall as [_ Hall]. apply (IH Hall j k); [lia|done|done].
  - intros oldLF. split.
    + unfold buildWhitespaceTolerantRegex. destruct (decide (oldLF = [])).
      * vm_compute. lia.
      * apply countRegexMatches_bound. by apply wsPattern_nonempty.
    + unfold buildTokenRegex.
      destruct (List.filter nonempty (split_spaces oldLF)) as [|t ts] eqn:Htok.
      * vm_compute. lia.
      * destruct (decide (length (t :: ts) = 0)); [done|].
        apply countRegexMatches_bound. apply join_nonempty.
        assert (Ht : t ∈ List.filter nonempty (split_spaces oldLF))
          by (rewrite Htok; by left).
        apply list_elem_of_In, filter_In in Ht as [_ Ht]. by destruct t.
Qed.

(** X26: literal replacement works from the left and composes: when the
    first occurrence of the old text is at the end of [pre], the result is
    [pre], the new text itself, and the rest of the content replaced in the
    same way; so the new text occurs in the result where the old text first
    occurred. *)
Theorem replacement_lands_on_first_occurrence
    (str oldString newString pre suf : jsstring) :
  oldString <> [] ->
  str = pre ++ oldString ++ suf ->
  first_occurrence oldString str (length pre) ->
  exists rest,
    safeLiteralReplace str oldString newString = pre ++ newString ++ rest
    /\ rest = safeLiteralReplace suf oldString newString
    /\ occurs_at newString (safeLiteralReplace str oldString newString) (length pre).
Proof.
  intros Hne Hstr Hfirst.
  pose proof (safeLiteralReplace_spec str oldString newString Hne) as Hall.
  pose proof (safeLiteralReplace_spec suf oldString newString Hne) as Hsuf.
  assert (Hnext : ReplacedAll oldString newString
            (S (countOccurrences suf oldString)) (pre ++ oldString ++ suf)
            (pre ++ newString ++ safeLiteralReplace suf oldString newString)).
  { constructor; [by rewrite <- Hstr|done]. }
  rewrite Hstr in Hall.
  destruct (ReplacedAll_functional _ _ _ _ _ _ _ Hall Hnext) as [_ Heq].
  exists (safeLiteralReplace suf oldString newString).
  rewrite Hstr, Heq. split; [done|]. split; [done|].
  by exists pre, (safeLiteralReplace suf oldString newString).
Qed.

Lemma replacement_lands_on_first_occurrence_witness :
  exists rest,
    safeLiteralReplace (js "a-b-c") (js "-") (js "$&$&") = js "a" ++ js "$&$&" ++ rest
    /\ rest = safeLiteralReplace (js "b-c") (js "-") (js "$&$&")
    /\ occurs_at (js "$&$&") (safeLiteralReplace (js "a-b-c") (js "-") (js "$&$&"))
         (length (js "a")).
Proof.
  apply (replacement_lands_on_first_occurrence (js "a-b-c") (js "-") (js "$&$&")
           (js "a") (js "b-c")); [done|done|].
  apply index_in_Some. by vm_compute.
Defined.

Lemma replaceMatches_length (s newLF : jsstring) (ms : list (nat * nat))
    (pos : nat) :
  Forall (fun m => pos <= fst m /\ fst m + snd m <= length s) ms ->
  StronglySorted (fun a b => fst a + snd a <= fst b) ms ->
  pos <= length s ->
  length (replaceMatches s ms pos newLF) + sum_list (snd <$> ms) + pos
  = length s + length ms * length newLF.
Proof.
  intros Hall Hsorted. revert pos Hall.
  induction Hsorted as [|[i n] ms Hs IH Hm]; intros pos Hall Hpos.
  - simpl. unfold substring_from. rewrite length_drop. lia.
  - apply Forall_cons in Hall as [[H1 H2] Hall]. simpl in H1, H2.
    assert (Hall' : Forall (fun m => i + n <= fst m /\ fst m + snd m <= length s) ms).
    { apply Forall_forall. intros x Hx. rewrite Forall_forall in Hm, Hall.
      split; [by apply (Hm x Hx)|by apply Hall]. }
    specialize (IH (i + n) Hall' H2).
    cbn [replaceMatches fmap list_fmap sum_list length]. rewrite !length_app.
    assert (Hsub : length (substring s pos i) = i - pos).
    { unfold substring. rewrite length_take, length_drop. lia. }
    rewrite Hsub. simpl in *. lia.
Qed.

(** X27: replacing the matches of a pattern takes out the matched text and
    puts in the new text once per match: the length of the result and the
    lengths of the matches add up to the length of the content and that of
    the new text times the number of matches. *)
Theorem regexpReplace_length (s newLF : jsstring) (r : RegExp) :
  length (regexpReplace s r newLF) + sum_list (snd <$> matchAll s r)
  = length s + countRegexMatches s r * length newLF.
Proof.
  destruct r as [|atoms].
  { destruct (RNever_finds_nothing s) as (_ & Hcount & Hrepl).
    rewrite Hrepl, Hcount. unfold countRegexMatches in Hcount.
    destruct (matchAll s RNever); [simpl; lia|done]. }
  unfold regexpReplace, countRegexMatches.
  destruct (matchAllLoop_inv (S (S (length s))) atoms s 0) as [Hall Hsorted].
  fold (matchAll s (RSeq atoms)) in Hall, Hsorted.
  pose proof (replaceMatches_length s newLF (matchAll s (RSeq atoms)) 0) as H.
  rewrite Nat.add_0_r in H. apply H; [|done|lia].
  eapply Forall_impl; [exact Hall|]. by intros m (? & ? & _).
Qed.

(** ** The token-based pattern *)

Section Tokens.

Local Abbreviation tokenAtoms toks := (join [RSpaces] (map (map RChar) toks)).

Lemma split_spaces_from_cons (in_sep : bool) (c : N) (t : jsstring) :
  split_spaces_from in_sep (c :: t) =
    if is_space c then
      if in_sep then split_spaces_from true t
      else [] :: split_spaces_from true t
    else match split_spaces_from false t with
         | p :: ps => (c :: p) :: ps
         | [] => [[c]]
         end.
Proof. done. Qed.

Lemma tokens_cons (tok : jsstring) (toks : list jsstring) (ws mid : jsstring) :
  ws <> [] -> forallb is_space ws = true ->
  (toks <> [] -> Matches (tokenAtoms toks) mid) ->
  toks <> [] ->
  Matches (tokenAtoms (tok :: toks)) (tok ++ ws ++ mid).
Proof.
  intros Hws Hsp Hm Hne. cbn [map]. rewrite join_cons by (by destruct toks).
  apply Matches_app; [apply Matches_chars|].
  apply (Matches_app [RSpaces] _ ws mid); [|by apply Hm].
  rewrite <- (app_nil_r ws). by constructor; [| |constructor].
Qed.

(** The pieces [s.split(/\s+/)] cuts a text into, read back from the text:
    after white space ([in_sep]) the text is white space and then the tokens;
    otherwise it is the rest of the piece at hand, then white space and the
    tokens. *)
Lemma split_spaces_from_tokens (s : jsstring) :
  (let toks := List.filter nonempty (split_spaces_from true s) in
   (toks = [] -> forallb is_space s = true)
   /\ (toks <> [] ->
       exists lead mid trail,
         s = lead ++ mid ++ trail /\ forallb is_space lead = true
         /\ Matches (tokenAtoms toks) mid))
  /\ (exists first ps rest,
        split_spaces_from false s = first :: ps /\ s = first ++ rest
        /\ let toks := List.filter nonempty ps in
           (toks = [] -> forallb is_space rest = true)
           /\ (toks <> [] ->
               exists ws mid trail,
                 rest = ws ++ mid ++ trail /\ ws <> []
                 /\ forallb is_space ws = true
                 /\ Matches (tokenAtoms toks) mid)).
Proof.
  induction s as [|c t [IHa IHb]].
  - split; [split; done|]. by exists [], [], [].
  - rewrite !split_spaces_from_cons.
    destruct IHb as (first & ps & rest & Hsplit & Ht & Hnone & Hsome).
    destruct IHa as [Hnone_a Hsome_a].
    destruct (is_space c) eqn:Hc.
    + split.
      * split.
        -- intros Htoks. simpl. by rewrite Hc, (Hnone_a Htoks).
        -- intros Htoks. destruct (Hsome_a Htoks) as (lead & mid & trail & -> & Hlead & Hm).
           exists (c :: lead), mid, trail. split; [done|]. split; [|done].
           simpl. by rewrite Hc.
      * exists [], (split_spaces_from true t), (c :: t). split; [done|].
        split; [done|]. split.
        -- intros Htoks. simpl. by rewrite Hc, (Hnone_a Htoks).
        -- intros Htoks.
           destruct (Hsome_a Htoks) as (lead & mid & trail & -> & Hlead & Hm).
           exists (c :: lead), mid, trail. split; [done|]. split; [done|].
           split; [|done]. simpl. by rewrite Hc.
    + rewrite Hsplit. split.
      * cbn [List.filter nonempty]. split; [done|]. intros _.
        destruct (List.filter nonempty ps) as [|tok toks] eqn:Hps.
        -- exists [], (c :: first), rest. split; [by rewrite Ht|]. split; [done|].
           exact (Matches_chars (c :: first)).
        -- destruct (Hsome ltac:(done)) as (ws & mid & trail & -> & Hws & Hsp & Hm).
           exists [], ((c :: first) ++ ws ++ mid), trail.
           split; [by rewrite Ht, <- !app_assoc|]. split; [done|].
           by apply tokens_cons.
      * exists (c :: first), ps, rest. split; [done|]. split; [by rewrite Ht|].
        by split.
Qed.

Lemma tokens_in_text (s : jsstring) :
  let toks := List.filter nonempty (split_spaces s) in
  (toks = [] -> forallb is_space s = true)
  /\ (toks <> [] ->
      exists lead mid trail,
        s = lead ++ mid ++ trail /\ Matches (tokenAtoms toks) mid).
Proof.
  unfold split_spaces.
  destruct (split_spaces_from_tokens s)
    as [_ (first & ps & rest & -> & -> & Hnone & Hsome)].
  destruct first as [|c first]; cbn [List.filter nonempty].
  - split; [done|]. intros Htoks.
    destruct (Hsome Htoks) as (ws & mid & trail & -> & _ & _ & Hm).
    by exists ws, mid, trail.
  - split; [done|]. intros _.
    destruct (List.filter nonempty ps) as [|tok toks] eqn:Hps.
    + exists [], (c :: first), rest. split; [done|].
      exact (Matches_chars (c :: first)).
    + destruct (Hsome ltac:(done)) as (ws & mid & trail & -> & Hws & Hsp & Hm).
      exists [], ((c :: first) ++ ws ++ mid), trail.
      split; [by rewrite <- !app_assoc|]. by apply tokens_cons.
Qed.

(** X28: the token-based pattern relaxes the exact search for every kind
    of white space: when the text has a code unit that is not white space,
    the pattern built from it finds a match in every content in which the
    text occurs literally, at the latest inside that occurrence, and so
    counts at least one match. *)
Theorem token_based_relaxes_exact (content s : jsstring) (i : nat) :
  forallb is_space s = false -> occurs_at s content i ->
  (exists j n,
     regexp_exec (buildTokenRegex s) content 0 = Some (j, n)
     /\ j <= i + length s)
  /\ 0 < countRegexMatches content (buildTokenRegex s).
Proof.
  intros Hsolid (pre & suf & -> & <-).
  destruct (tokens_in_text s) as [Hnone Hsome]. unfold buildTokenRegex.
  destruct (List.filter nonempty (split_spaces s)) as [|tok toks] eqn:Htoks;
    [rewrite Hnone in Hsolid; done|].
  destruct (decide (length (tok :: toks) = 0)); [done|].
  destruct (Hsome ltac:(done)) as (lead & mid & trail & Hs & Hm).
  assert (Hexec : exists j len,
            regexp_exec (RSeq (tokenAtoms (tok :: toks))) (pre ++ s ++ suf) 0
            = Some (j, len) /\ j <= length pre + length s).
  { unfold regexp_exec.
    destruct (decide (0 <= length (pre ++ s ++ suf))); [|lia]. rewrite drop_0.
    destruct (search_from_finds (tokenAtoms (tok :: toks)) (pre ++ s ++ suf)
                (length (pre ++ lead)) 0) as (j & len & Hfound & Hj).
    - rewrite Hs, !length_app. lia.
    - rewrite Hs.
      replace (pre ++ (lead ++ mid ++ trail) ++ suf)
        with ((pre ++ lead) ++ mid ++ (trail ++ suf))
        by (by rewrite <- !app_assoc).
      rewrite drop_app_length. by apply match_here_complete.
    - exists j, len. split; [done|]. rewrite Hs, !length_app in *. lia. }
  split; [done|].
  destruct Hexec as (j & len & Hexec & _).
  unfold countRegexMatches, matchAll. cbn [matchAllLoop]. rewrite Hexec.
  simpl. lia.
Qed.

End Tokens.

Lemma token_based_relaxes_exact_witness :
  let s := js " a" ++ [160%N] ++ js "b " in
  (exists j n,
     regexp_exec (buildTokenRegex s) (js "x" ++ s) 0 = Some (j, n)
     /\ j <= 1 + length s)
  /\ 0 < countRegexMatches (js "x" ++ s) (buildTokenRegex s).
Proof.
  intros s. apply (token_based_relaxes_exact (js "x" ++ s) s 1); [done|].
  exists (js "x"), []. by vm_compute.
Defined.

(** ** A diff of one hunk, from the call to the file *)

Section OneHunk.
Variable resolveToCwd : jsstring -> jsstring -> jsstring.
Variable cwd : jsstring.

(** X29: a diff of one hunk whose search text occurs in the file rewrites
    that occurrence and nothing else.  With the normalised content
    [pre ++ search ++ suf], the call returns and the file then holds
    [pre ++ replacement ++ suf] in the line endings the file had (the file is
    left untouched when this is what it held already); without a line hint
    the occurrence is the first one. *)
Theorem one_hunk_diff_rewrites_the_occurrence
    (file_path diff : jsstring) (signal : nat -> bool) (w : world)
    (raw : jsstring) (b : DiffBlock) :
  (forall k, signal k = false) ->
  trim file_path <> [] ->
  trim diff <> [] ->
  files w !! resolveToCwd file_path cwd = Some raw ->
  parseDiffBlocks diff = inr [b] ->
  let searchLF := normalizeToLF (searchContent b) in
  let replaceLF := normalizeToLF (replaceContent b) in
  searchLF <> [] ->
  (exists i, occurs_at searchLF (normalizeToLF raw) i) ->
  let run := execute_diff resolveToCwd cwd file_path diff signal w in
  exists pre suf,
    normalizeToLF raw = pre ++ searchLF ++ suf
    /\ (exists text, fst run = Returned text)
    /\ files (snd run) !! resolveToCwd file_path cwd
       = Some (restoreLineEnding (pre ++ replaceLF ++ suf) (detectLineEnding raw))
    /\ (startLine b = None ->
        first_occurrence searchLF (normalizeToLF raw) (length pre)).
Proof.
  intros Hsig Hpath Hdiff Hfile Hparse searchLF replaceLF Hne Hocc run.
  destruct (applyAllBlocks_one_hunk (normalizeToLF raw) b Hne Hocc)
    as (pre & suf & Hc & Happly & Hfirst).
  exists pre, suf. split; [done|].
  subst run.
  rewrite (execute_diff_mode resolveToCwd cwd file_path diff signal w raw [b])
    by done.
  cbv zeta. fold searchLF replaceLF in Happly. rewrite Happly.
  cbn [fst snd List.filter success length Nat.eqb].
  destruct (bool_decide (restoreLineEnding (pre ++ replaceLF ++ suf)
                           (detectLineEnding raw) = raw)) eqn:Hsame.
  - apply bool_decide_eq_true in Hsame. split; [by eexists|]. split; [|done].
    cbn [snd after_read files]. by rewrite Hsame.
  - split; [by eexists|]. split; [|done].
    cbn [snd files]. by rewrite lookup_insert_eq.
Qed.

End OneHunk.

Lemma one_hunk_diff_rewrites_the_occurrence_witness :
  let raw := js "aaa" ++ CRLF ++ js "bbb" ++ CRLF in
  let diff :=
    unlines ["<<<<<<< SEARCH"; "bbb"; "======="; "BBB"; ">>>>>>> REPLACE"]%string in
  files (snd (execute_diff resolve_plain (js "/w") (js "f") diff never_aborted
                (one_file raw))) !! resolve_plain (js "f") (js "/w")
  = Some (js "aaa" ++ CRLF ++ js "BBB" ++ CRLF).
Proof.
  intros raw diff.
  destruct (one_hunk_diff_rewrites_the_occurrence resolve_plain (js "/w")
              (js "f") diff never_aborted (one_file raw) raw
              {| startLine := None; searchContent := js "bbb";
                 replaceContent := js "BBB"; rawBlock := diff |})
    as (pre & suf & Hc & _ & Hfile & Hfirst);
    [done|by vm_compute|by vm_compute|by vm_compute|by vm_compute|by vm_compute| |].
  { exists 4, (unlines ["aaa"; ""]%string), [LF]. by vm_compute. }
  rewrite Hfile. f_equal.
  assert (Hpre : length pre = 4).
  { assert (H4 : first_occurrence (js "bbb") (normalizeToLF raw) 4)
      by (apply index_in_Some; by vm_compute).
    destruct (Hfirst eq_refl) as [_ Hmin], H4 as [H4 Hmin4].
    destruct (Hfirst eq_refl) as [Hp _].
    apply Nat.le_antisymm; [by apply Hmin|by apply Hmin4]. }
  assert (Hsplit : pre = unlines ["aaa"; ""]%string /\ suf = [LF]).
  { apply (occurs_at_inj (js "bbb")); [|by rewrite Hpre].
    transitivity (normalizeToLF raw); [symmetry; exact Hc|by vm_compute]. }
  destruct Hsplit as [-> ->]. by vm_compute.
Defined.
